(** * Networking mini-tool: topology building, issue detection, demand model

    A shallow embedding of [tool.py] (functions [build_topology],
    [detect_issues], [estimate_endpoint_demands], [recommend_load_balancing])
    together with the parts of the [networkx] graph class the tool calls.

    Python dictionaries keep insertion order and the tool's output depends on
    that order ([parsed.items()], [G.edges()], [Counter.items()]), so they are
    association lists here.  Python integers are [Z]; [None] is [None]. *)

From Stdlib Require Import ZArith Lia Ascii String.
From stdpp Require Import base list strings gmap.

Local Open Scope Z_scope.
Local Set Warnings "-clear-no-such-hyp".

(** ** Data model: the dictionaries produced by [parse_config] *)

(** One entry of [out["interfaces"]]. *)
Record InterfaceSpec := mkInterface {
  name : string;
  ip : option string;
  mask : option string;
  vlan : option string;
  mtu : Z;
  bw : Z;
  connects_to : option (string * string)
}.

Inductive device_kind := router | switch.

Global Instance device_kind_eq_dec : EqDecision device_kind.
Proof. solve_decision. Defined.

Record static_route := mkRoute { dst : string; rmask : string; nh : string }.

(** The dictionary returned by [parse_config]. *)
Record ConfigRecord := mkConfig {
  hostname : string;
  device_type : device_kind;
  interfaces : list InterfaceSpec;
  vlans : list (string * string);
  routes : list static_route;
  protocols : list string;
  default_gateway : option string;
  asn : option Z
}.

(** [parsed]: device name -> record, in insertion order. *)
Definition Parsed := list (string * ConfigRecord).

(** [b in parsed] *)
Definition in_parsed (b : string) (parsed : Parsed) : bool :=
  bool_decide (b ∈ parsed.*1).

(** [parsed[a]["interfaces"]]; the first binding of [a].  A missing key is a
    [KeyError] in Python; [build_topology] only looks up devices that are keys
    of [parsed] (lemma [build_links_in_parsed]), so the empty default is never
    observed there. *)
Fixpoint interfaces_of (parsed : Parsed) (a : string) : list InterfaceSpec :=
  match parsed with
  | [] => []
  | (n, d) :: rest => if decide (n = a) then interfaces d else interfaces_of rest a
  end.

(** Python truthiness of a value that is [None] or a string. *)
Definition truthy (o : option string) : bool :=
  match o with
  | Some s => bool_decide (s ≠ "")
  | None => false
  end.

(** Python truthiness of a value that is [None] or an int. *)
Definition truthy_int (o : option Z) : bool :=
  match o with
  | Some z => bool_decide (z ≠ 0)
  | None => false
  end.

(** ** Strings: [".".join(s.split(".")[:3])] *)

Definition dot : ascii := "."%char.

(** [s.split(".")] *)
Fixpoint split_dot (s : string) : list string :=
  match s with
  | EmptyString => [EmptyString]
  | String c s' =>
      if decide (c = dot) then EmptyString :: split_dot s'
      else match split_dot s' with
           | h :: t => String c h :: t
           | [] => [String c EmptyString]
           end
  end.

(** [".".join(l)] *)
Fixpoint join_dot (l : list string) : string :=
  match l with
  | [] => EmptyString
  | [x] => x
  | x :: rest => (x +:+ String dot (join_dot rest))%string
  end.

Definition prefix24 (addr : string) : string :=
  join_dot (take 3 (split_dot addr)).

(** ** The [networkx.Graph] operations used by the tool

    [nx.Graph] keeps [_node] (name -> attribute dict) and a symmetric
    [_adj] (name -> neighbour -> edge attribute dict) in which both
    directions of an edge share ONE attribute dict.  The model keeps the
    nodes in insertion order and one entry per undirected edge, in the order
    and orientation of its first [add_edge]; a neighbour dict [_adj[n]] is the
    sub-sequence of the edges incident to [n], which is exactly its insertion
    order.  Looking an edge up in either orientation reaches the same entry:
    this is the sharing of the attribute dict. *)

(** A Link tuple [(a, intf_name, b, b_if)]. *)
Definition Link := (string * string * string * string)%type.

(** Node attributes set by [add_node]. *)
Record node_attr := mkNodeAttr {
  na_device_type : device_kind;
  na_protocols : list string;
  na_asn : option Z
}.

(** The attribute dict of an edge: ["links"] (a Python set, kept as a
    duplicate-free list in insertion order; Python leaves the iteration
    order of a set unspecified, and only the order of the entries of one
    edge among themselves depends on it), and ["capacity_kbps"] and
    ["mtus"], absent until the annotation loop. *)
Record edge_attr := mkEdgeAttr {
  links : list Link;
  capacity_kbps : option Z;
  mtus : option (list (Z * Z))
}.

Record Graph := mkGraph {
  g_node : list (string * option node_attr);
  g_edge : list ((string * string) * edge_attr)
}.

Definition empty_graph : Graph := mkGraph [] [].

(** [nodes G], in insertion order. *)
Definition nodes (G : Graph) : list string := (g_node G).*1.

(** Does the stored pair [e] stand for the undirected edge [{u, v}]? *)
Definition same_edge (u v : string) (e : string * string) : Prop :=
  (e.1 = u ∧ e.2 = v) ∨ (e.1 = v ∧ e.2 = u).

Global Instance same_edge_dec u v e : Decision (same_edge u v e).
Proof. unfold same_edge. apply _. Defined.

(** [G.edges[u, v]] (either orientation). *)
Fixpoint edge_data (es : list ((string * string) * edge_attr)) (u v : string)
  : option edge_attr :=
  match es with
  | [] => None
  | (e, d) :: rest => if decide (same_edge u v e) then Some d else edge_data rest u v
  end.

(** [G.has_edge(u, v)] *)
Definition has_edge (G : Graph) (u v : string) : bool :=
  bool_decide (is_Some (edge_data (g_edge G) u v)).

(** In-place update of the attribute dict of edge [{u, v}]. *)
Fixpoint update_edge (f : edge_attr → edge_attr)
    (es : list ((string * string) * edge_attr)) (u v : string) :=
  match es with
  | [] => []
  | (e, d) :: rest =>
      if decide (same_edge u v e) then (e, f d) :: rest
      else (e, d) :: update_edge f rest u v
  end.

(** [G.add_node(n, **attrs)] *)
Fixpoint set_node (ns : list (string * option node_attr)) (n : string)
    (a : node_attr) :=
  match ns with
  | [] => [(n, Some a)]
  | (m, b) :: rest =>
      if decide (m = n) then (m, Some a) :: rest else (m, b) :: set_node rest n a
  end.

Definition add_node (G : Graph) (n : string) (a : node_attr) : Graph :=
  mkGraph (set_node (g_node G) n a) (g_edge G).

(** The implicit node creation of [add_edge] ([if u not in self._node]). *)
Definition ensure_node (ns : list (string * option node_attr)) (n : string) :=
  if decide (n ∈ ns.*1) then ns else ns ++ [(n, None)].

Definition set_links (l : list Link) (d : edge_attr) : edge_attr :=
  mkEdgeAttr l (capacity_kbps d) (mtus d).

(** [G.add_edge(u, v, links=set())]: the attribute dict of the edge (a new
    empty one when the edge is new) is updated with [links = set()]. *)
Definition add_edge (G : Graph) (u v : string) : Graph :=
  let ns := ensure_node (ensure_node (g_node G) u) v in
  if has_edge G u v
  then mkGraph ns (update_edge (set_links []) (g_edge G) u v)
  else mkGraph ns (g_edge G ++ [((u, v), mkEdgeAttr [] None None)]).

(** [s.add(t)] on a Python set. *)
Definition set_add (t : Link) (s : list Link) : list Link :=
  if decide (t ∈ s) then s else s ++ [t].

(** [G.edges[u, v]["links"].add(t)] *)
Definition add_link (G : Graph) (u v : string) (t : Link) : Graph :=
  mkGraph (g_node G)
          (update_edge (λ d, set_links (set_add t (links d)) d) (g_edge G) u v).

(** [G._adj[z].items()]: neighbours of [z] with the edge attributes. *)
Definition adj (G : Graph) (z : string) : list (string * edge_attr) :=
  omap (λ '((u, v), d),
          if decide (u = z) then Some (v, d)
          else if decide (v = z) then Some (u, d) else None)
       (g_edge G).

(** [G[z]] / [G.neighbors(z)] *)
Definition neighbors (G : Graph) (z : string) : list string := (adj G z).*1.

(** [G.edges(data=True)]: every node in order, every neighbour not yet seen
    as a first component. *)
Fixpoint edges_from (G : Graph) (seen ns : list string)
  : list (string * string * edge_attr) :=
  match ns with
  | [] => []
  | n :: rest =>
      omap (λ '(nbr, d), if decide (nbr ∈ seen) then None else Some (n, nbr, d))
           (adj G n)
      ++ edges_from G (n :: seen) rest
  end.

Definition edges (G : Graph) : list (string * string * edge_attr) :=
  edges_from G [] (nodes G).

(** ** [build_topology] *)

Definition node_attr_of (d : ConfigRecord) : node_attr :=
  mkNodeAttr (device_type d) (protocols d) (asn d).

(** The node loop. *)
Definition add_nodes (parsed : Parsed) (G : Graph) : Graph :=
  foldl (λ G '(n, d), add_node G n (node_attr_of d)) G parsed.

(** Body of the explicit-hint loop for one interface of device [a]. *)
Definition pass1_intf (parsed : Parsed) (a : string) (G : Graph)
    (intf : InterfaceSpec) : Graph :=
  match connects_to intf with
  | Some (b, b_if) =>
      if in_parsed b parsed
      then add_link (add_edge G a b) a b (a, name intf, b, b_if)
      else G
  | None => G
  end.

Definition pass1_from (parsed : Parsed) (G : Graph) (todo : Parsed) : Graph :=
  foldl (λ G '(a, d), foldl (pass1_intf parsed a) G (interfaces d)) G todo.

Definition pass1 (parsed : Parsed) (G : Graph) : Graph :=
  pass1_from parsed G parsed.

(** An entry of [iface_list]: [(n, name, ip, mtu, bw)]. *)
Definition IfaceEntry := (string * string * string * Z * Z)%type.

Definition iface_entries (n : string) (d : ConfigRecord) : list IfaceEntry :=
  omap (λ intf, if truthy (ip intf)
                then (λ a, (n, name intf, a, mtu intf, bw intf)) <$> ip intf
                else None)
       (interfaces d).

Definition iface_list (parsed : Parsed) : list IfaceEntry :=
  flat_map (λ '(n, d), iface_entries n d) parsed.

(** [itertools.combinations(l, 2)] *)
Fixpoint combinations2 {A} (l : list A) : list (A * A) :=
  match l with
  | [] => []
  | x :: rest => ((λ y, (x, y)) <$> rest) ++ combinations2 rest
  end.

(** Body of the shared-subnet loop for one pair of entries. *)
Definition pass2_pair (G : Graph) (p : IfaceEntry * IfaceEntry) : Graph :=
  let '((n1, i1, ip1, _, _), (n2, i2, ip2, _, _)) := p in
  if decide (prefix24 ip1 = prefix24 ip2 ∧ n1 ≠ n2)
  then
    let G' := if has_edge G n1 n2 then G else add_edge G n1 n2 in
    add_link G' n1 n2 (n1, i1, n2, i2)
  else G.

Definition pass2 (parsed : Parsed) (G : Graph) : Graph :=
  foldl pass2_pair G (combinations2 (iface_list parsed)).

(** The [for intf in ...: if intf["name"] == ai: bw = intf["bw"]] loop: the
    LAST interface of that name wins, the start value is the default. *)
Definition resolve_bw (ifs : list InterfaceSpec) (ai : string) : Z :=
  foldl (λ acc intf, if decide (name intf = ai) then bw intf else acc) 100000 ifs.

(** [next((x["mtu"] for x in ... if x["name"] == ai), 1500)]: the FIRST
    interface of that name. *)
Fixpoint resolve_mtu (ifs : list InterfaceSpec) (ai : string) : Z :=
  match ifs with
  | [] => 1500
  | x :: rest => if decide (name x = ai) then mtu x else resolve_mtu rest ai
  end.

Definition link_min_bw (parsed : Parsed) (l : Link) : Z :=
  let '(a, ai, b, bi) := l in
  Z.min (resolve_bw (interfaces_of parsed a) ai)
        (resolve_bw (interfaces_of parsed b) bi).

Definition link_mtus (parsed : Parsed) (l : Link) : Z * Z :=
  let '(a, ai, b, bi) := l in
  (resolve_mtu (interfaces_of parsed a) ai,
   resolve_mtu (interfaces_of parsed b) bi).

(** [cap] after the inner loop of the annotation. *)
Definition links_capacity (parsed : Parsed) (ls : list Link) : Z :=
  foldl (λ cap l, cap + link_min_bw parsed l) 0 ls.

(** The annotation of one edge's attribute dict. *)
Definition annotate_edge (parsed : Parsed) (d : edge_attr) : edge_attr :=
  let cap := links_capacity parsed (links d) in
  mkEdgeAttr (links d)
             (Some (if decide (cap = 0) then 100000 else cap))
             (Some (link_mtus parsed <$> links d)).

(** The annotation loop, [for u, v, data in G.edges(data=True)], mutates the
    attribute dict of each edge it visits in place; it visits every stored
    edge (lemma [edges_cover]) and the new attributes depend on the links of
    that edge only, so the loop is a map over the store. *)
Definition annotate (parsed : Parsed) (G : Graph) : Graph :=
  mkGraph (g_node G) (prod_map id (annotate_edge parsed) <$> g_edge G).

Definition build_topology (parsed : Parsed) : Graph :=
  annotate parsed (pass2 parsed (pass1 parsed (add_nodes parsed empty_graph))).

(** ** [networkx.cycle_basis]

    The library routine called by [detect_issues], transcribed loop by loop.
    [pred] and [used] are dictionaries read by key only, hence [gmap]; the
    values of [used] are Python sets of nodes, hence [gset].  [stack.pop()]
    takes the most recently appended node: the head of the list.

    A result of [None] stands for a run that does not return a value: a
    [while] loop that is still running when its fuel is spent, or a
    [KeyError].  Theorem [cycle_basis_correct] shows that neither happens on
    a graph built by the [Graph] operations. *)

Record walk := mkWalk {
  w_stack : list string;
  w_pred : gmap string string;
  w_used : gmap string (gset string);
  w_cycles : list (list string)
}.

(** [while p not in pn: cycle.append(p); p = pred[p]] followed by
    [cycle.append(p)]: the nodes appended to [cycle]. *)
Fixpoint climb (fuel : nat) (pred : gmap string string) (pn : gset string)
    (p : string) : option (list string) :=
  if decide (p ∈ pn) then Some [p]
  else match fuel with
       | O => None
       | S f => q ← pred !! p; (p ::.) <$> climb f pred pn q
       end.

(** Body of [for nbr in G[z]]. *)
Definition visit (fuel : nat) (z : string) (zused : gset string) (st : walk)
    (nbr : string) : option walk :=
  match w_used st !! nbr with
  | None =>
      Some (mkWalk (nbr :: w_stack st) (<[nbr := z]> (w_pred st))
                   (<[nbr := {[z]}]> (w_used st)) (w_cycles st))
  | Some pn =>
      if decide (nbr = z)
      then Some (mkWalk (w_stack st) (w_pred st) (w_used st)
                        (w_cycles st ++ [[z]]))
      else if decide (nbr ∈ zused) then Some st
      else
        p ← w_pred st !! z;
        tl ← climb fuel (w_pred st) pn p;
        Some (mkWalk (w_stack st) (w_pred st)
                     (<[nbr := pn ∪ {[z]}]> (w_used st))
                     (w_cycles st ++ [nbr :: z :: tl]))
  end.

(** A [for] loop whose body may fail to return. *)
Fixpoint for_each {S A} (body : S → A → option S) (st : S) (l : list A)
  : option S :=
  match l with
  | [] => Some st
  | x :: rest => st' ← body st x; for_each body st' rest
  end.

(** One iteration of [while stack]: pop [z], run the [for] loop. *)
Definition pop_step (G : Graph) (st : walk) (z : string) (rest : list string)
  : option walk :=
  zused ← w_used st !! z;
  for_each (visit (length (nodes G)) z zused)
           (mkWalk rest (w_pred st) (w_used st) (w_cycles st))
           (neighbors G z).

(** [while stack: ...] *)
Fixpoint walk_loop (fuel : nat) (G : Graph) (st : walk) : option walk :=
  match w_stack st with
  | [] => Some st
  | z :: rest =>
      match fuel with
      | O => None
      | S f => st' ← pop_step G st z rest; walk_loop f G st'
      end
  end.

(** The walk of one connected component from [root]. *)
Definition component (G : Graph) (root : string) (cycles : list (list string))
  : option walk :=
  walk_loop (length (nodes G)) G
            (mkWalk [root] {[root := root]} {[root := ∅]} cycles).

(** [while gnodes: root = gnodes.popitem()[0]; ...;
     for node in pred: gnodes.pop(node, None)] *)
Fixpoint components (fuel : nat) (G : Graph) (gnodes : list string)
    (cycles : list (list string)) : option (list (list string)) :=
  match last gnodes with
  | None => Some cycles
  | Some root =>
      match fuel with
      | O => None
      | S f =>
          st ← component G root cycles;
          components f G (filter (λ n, w_pred st !! n = None) gnodes)
                     (w_cycles st)
      end
  end.

Definition cycle_basis (G : Graph) : option (list (list string)) :=
  components (length (nodes G)) G (nodes G) [].

(** ** [detect_issues] *)

Inductive Issue :=
| duplicate_ip (ip_ : string) (where_ : list string)
| wrong_vlan_label (node interface vlan_ : string)
| gateway_mismatch (node gateway : string)
| mtu_mismatch (link : string) (mtu_a mtu_b : Z)
| network_loops (cycles : list (list string))
| bgp_recommended (reason : string).

Global Instance Issue_eq_dec : EqDecision Issue.
Proof. solve_decision. Defined.

(** [all_ips]: the [(n, vlan or "no-vlan", ip)] triples. *)
Definition IpUse := (string * string * string)%type.

(** [intf.get("vlan") or "no-vlan"] *)
Definition vlan_or_no_vlan (intf : InterfaceSpec) : string :=
  if truthy (vlan intf) then default "no-vlan"%string (vlan intf)
  else "no-vlan"%string.

Definition ip_uses (n : string) (d : ConfigRecord) : list IpUse :=
  omap (λ intf, if truthy (ip intf)
                then (λ a, (n, vlan_or_no_vlan intf, a)) <$> ip intf
                else None)
       (interfaces d).

Definition all_ips (parsed : Parsed) : list IpUse :=
  flat_map (λ '(n, d), ip_uses n d) parsed.

(** [Counter(l)]: keys in order of first occurrence, with their counts. *)
Fixpoint counter_incr (k : string) (c : list (string * Z)) : list (string * Z) :=
  match c with
  | [] => [(k, 1)]
  | (k', n) :: rest =>
      if decide (k' = k) then (k', n + 1) :: rest
      else (k', n) :: counter_incr k rest
  end.

Definition Counter (l : list string) : list (string * Z) :=
  foldl (λ c k, counter_incr k c) [] l.

(** [[x[0] for x in all_ips if x[2] == ip]] *)
Definition where_used (uses : list IpUse) (a : string) : list string :=
  omap (λ '(n, _, b), if decide (b = a) then Some n else None) uses.

Definition duplicate_ip_issues (parsed : Parsed) : list Issue :=
  let uses := all_ips parsed in
  omap (λ '(a, cnt), if decide (cnt > 1)
                     then Some (duplicate_ip a (where_used uses a)) else None)
       (Counter (uses.*2)).

Definition wrong_vlan_issues (parsed : Parsed) : list Issue :=
  flat_map (λ '(n, d),
    if decide (device_type d = switch)
    then omap (λ intf,
                 match vlan intf with
                 | Some v => if truthy (vlan intf) && bool_decide (v ∉ (vlans d).*1)
                             then Some (wrong_vlan_label n (name intf) v)
                             else None
                 | None => None
                 end)
              (interfaces d)
    else []) parsed.

(** The [same24] flag after the inner loop. *)
Definition same24 (gw : string) (ifs : list InterfaceSpec) : bool :=
  foldl (λ acc intf,
           match ip intf with
           | Some a => if truthy (ip intf) && bool_decide (prefix24 a = prefix24 gw)
                       then true else acc
           | None => acc
           end) false ifs.

Definition gateway_issues (parsed : Parsed) : list Issue :=
  omap (λ '(n, d),
          match default_gateway d with
          | Some gw => if truthy (default_gateway d) && negb (same24 gw (interfaces d))
                       then Some (gateway_mismatch n gw) else None
          | None => None
          end) parsed.

(** [f"{u}-{v}"] *)
Definition link_label (u v : string) : string := (u +:+ "-" +:+ v)%string.

(** The issues of one edge: one per pair of [ed.get("mtus", [])] whose
    two values differ. *)
Definition mtu_issues_of_edge (e : string * string * edge_attr) : list Issue :=
  let '(u, v, ed) := e in
  omap (λ '(ma, mb), if decide (ma ≠ mb)
                     then Some (mtu_mismatch (link_label u v) ma mb) else None)
       (default [] (mtus ed)).

Definition mtu_issues (G : Graph) : list Issue :=
  flat_map mtu_issues_of_edge (edges G).

Definition loop_issues (cycles : list (list string)) : list Issue :=
  match cycles with
  | [] => []
  | _ => [network_loops cycles]
  end.

(** [[d.get("asn") for n, d in parsed.items() if d.get("asn")]] *)
Definition asns (parsed : Parsed) : list Z :=
  omap (λ '(_, d), if truthy_int (asn d) then asn d else None) parsed.

Definition bgp_issues (parsed : Parsed) : list Issue :=
  if decide (1 < length (remove_dups (asns parsed)))%nat
  then [bgp_recommended "Multiple autonomous systems detected"]
  else [].

Definition detect_issues (parsed : Parsed) (G : Graph) : option (list Issue) :=
  cycles ← cycle_basis G;
  Some (duplicate_ip_issues parsed ++ wrong_vlan_issues parsed
        ++ gateway_issues parsed ++ mtu_issues G
        ++ loop_issues cycles ++ bgp_issues parsed).

(** ** [estimate_endpoint_demands] and [recommend_load_balancing] *)

(** The exceptions these two functions can raise. *)
Inductive exn := ValueError | KeyError.

Inductive result (A : Type) :=
| Ok (a : A)
| Raise (e : exn).
Arguments Ok {A} a.
Arguments Raise {A} e.

(** [EdgeLoad]: a dict from pairs of device names to kbps. *)
Definition EdgeLoad := list ((string * string) * Z).

(** [d.get(k, dflt)] *)
Fixpoint dict_get (k : string * string) (d : EdgeLoad) (dflt : Z) : Z :=
  match d with
  | [] => dflt
  | (k', v) :: rest => if decide (k' = k) then v else dict_get k rest dflt
  end.

(** [d[k] = v]: an existing key keeps its place, a new key goes last. *)
Fixpoint dict_set (k : string * string) (v : Z) (d : EdgeLoad) : EdgeLoad :=
  match d with
  | [] => [(k, v)]
  | (k', v') :: rest =>
      if decide (k' = k) then (k', v) :: rest else (k', v') :: dict_set k v rest
  end.

(** [tuple(sorted((a, b)))]: strings compare by code point, the sort is
    stable. *)
Definition sorted_pair (a b : string) : string * string :=
  if String.ltb b a then (b, a) else (a, b).

(** A pair is canonical when it is its own sorted form. *)
Definition canonical (e : string * string) : Prop := sorted_pair e.1 e.2 = e.

Global Instance canonical_dec e : Decision (canonical e).
Proof. unfold canonical. apply _. Defined.

(** The outcome of the random choices of one trial: positions for
    [random.sample] and for [random.choice]. *)
Record draw := mkDraw { d_src : nat; d_dst : nat; d_demand : nat }.

(** [random.sample(population, 2)]: two elements at distinct positions;
    [ValueError] when the population has fewer than two elements. *)
Definition sample2 (population : list string) (i j : nat)
  : result (string * string) :=
  if decide (length population < 2)%nat then Raise ValueError
  else
    let i' := (i mod length population)%nat in
    let rest := delete i' population in
    match population !! i', rest !! (j mod length rest)%nat with
    | Some src, Some dst_ => Ok (src, dst_)
    | _, _ => Raise ValueError
    end.

Definition demand_choices : list Z := [1000; 5000; 10000; 20000; 40000].

(** [random.choice(demand_choices)] *)
Definition choice (k : nat) : Z :=
  default 0 (demand_choices !! (k mod length demand_choices)%nat).

(** [edge_load = { (u, v): 0 for u, v in G.edges() }] *)
Definition initial_load (G : Graph) : EdgeLoad :=
  foldl (λ load '(u, v, _), dict_set (u, v) 0 load) [] (edges G).

(** Body of [for a, b in zip(path, path[1:])]. *)
Definition add_demand (demand : Z) (load : EdgeLoad) (ab : string * string)
  : EdgeLoad :=
  let e := sorted_pair ab.1 ab.2 in
  dict_set e (dict_get e load 0 + demand) load.

Definition add_path (demand : Z) (load : EdgeLoad) (path : list string)
  : EdgeLoad :=
  foldl (add_demand demand) load (zip path (tail path)).

Section Demand.
(** [nx.shortest_path(G, src, dst)]; [None] is [NetworkXNoPath]. *)
Variable shortest_path : Graph → string → string → option (list string).
(** The random source: the draws of trial [t]. *)
Variable rnd : nat → draw.

(** One iteration of [for _ in range(6)]. *)
Definition trial (G : Graph) (load : EdgeLoad) (t : nat) : result EdgeLoad :=
  match sample2 (nodes G) (d_src (rnd t)) (d_dst (rnd t)) with
  | Raise e => Raise e
  | Ok (src, dst_) =>
      match shortest_path G src dst_ with
      | None => Ok load
      | Some path => Ok (add_path (choice (d_demand (rnd t))) load path)
      end
  end.

Fixpoint trials (G : Graph) (load : EdgeLoad) (ts : list nat)
  : result EdgeLoad :=
  match ts with
  | [] => Ok load
  | t :: rest =>
      match trial G load t with
      | Raise e => Raise e
      | Ok load' => trials G load' rest
      end
  end.

Definition estimate_endpoint_demands (G : Graph) : result EdgeLoad :=
  trials G (initial_load G) (seq 0 6).
End Demand.

Record Reco := mkReco {
  r_link : string;
  r_load_kbps : Z;
  r_capacity_kbps : Z
}.

(** [G.edges[a, b].get("capacity_kbps", 0)]; a pair that is not an edge is a
    [KeyError]. *)
Fixpoint recommend_load_balancing (G : Graph) (edge_load : EdgeLoad)
  : result (list Reco) :=
  match edge_load with
  | [] => Ok []
  | ((a, b), load) :: rest =>
      match edge_data (g_edge G) a b with
      | None => Raise KeyError
      | Some ed =>
          let cap := default 0 (capacity_kbps ed) in
          match recommend_load_balancing G rest with
          | Raise e => Raise e
          | Ok recos =>
              Ok (if decide (load > cap)
                  then mkReco (link_label a b) load cap :: recos else recos)
          end
      end
  end.

(** * Vocabulary of the properties

    Example networks, the notions the claims are worded in, and the
    invariants used in the proofs. *)

(** ** Example networks *)

Definition plain_if (n : string) (hint : option (string * string))
  : InterfaceSpec :=
  mkInterface n None None None 1500 100000 hint.

Definition addr_if (n a : string) (m b : Z) : InterfaceSpec :=
  mkInterface n (Some a) (Some "255.255.255.0"%string) None m b None.

Definition device (ifs : list InterfaceSpec) (a : option Z) : ConfigRecord :=
  mkConfig "dev" router ifs [] [] [] None a.

(** R1 has two parallel cables to R2, each described on R1's side. *)
Definition parallel_net : Parsed :=
  [("R1"%string, device [plain_if "Fa0/0" (Some ("R2", "Fa0/0")%string);
                         plain_if "Fa0/1" (Some ("R2", "Fa0/1")%string)] None);
   ("R2"%string, device [plain_if "Fa0/0" None; plain_if "Fa0/1" None] None)].

(** R1 describes one of its interfaces as cabled to R1 itself. *)
Definition self_hint_net : Parsed :=
  [("R1"%string, device [plain_if "Fa0/0" (Some ("R1", "Fa0/1")%string);
                         plain_if "Fa0/1" None] None)].

(** Two devices in one /24, listed R2 first; MTU 1500 against 9000. *)
Definition subnet_net : Parsed :=
  [("R2"%string, device [addr_if "Gi0/0" "10.0.0.2" 9000 100000] None);
   ("R1"%string, device [addr_if "Gi0/0" "10.0.0.1" 1500 100000] None)].

(** One cable whose two ends are configured with [bandwidth 0]. *)
Definition zero_bw_net : Parsed :=
  [("R1"%string, device [mkInterface "Fa0/0" None None None 1500 0
                           (Some ("R2", "Fa0/0")%string)] None);
   ("R2"%string, device [mkInterface "Fa0/0" None None None 1500 0 None] None)].

(** A single device. *)
Definition single_net : Parsed :=
  [("R1"%string, device [plain_if "Fa0/0" None] None)].

(** Two interfaces of one device carry the same address. *)
Definition same_device_net : Parsed :=
  [("R1"%string, device [addr_if "Gi0/0" "10.0.0.1" 1500 100000;
                         addr_if "Gi0/1" "10.0.0.1" 1500 100000] None)].

(** [router bgp 0] on R1, [router bgp 100] on R2. *)
Definition asn_zero_net : Parsed :=
  [("R1"%string, device [plain_if "Fa0/0" None] (Some 0));
   ("R2"%string, device [plain_if "Fa0/0" None] (Some 100))].

(** ** Topology builder *)

Definition after_pass1 (parsed : Parsed) : Graph :=
  pass1 parsed (add_nodes parsed empty_graph).

(** The hints of pass 1 that name a device of the input set, as Link
    tuples. *)
Definition hint_links (parsed : Parsed) : list Link :=
  flat_map (λ '(a, d),
    omap (λ intf, match connects_to intf with
                  | Some (b, b_if) =>
                      if in_parsed b parsed then Some (a, name intf, b, b_if)
                      else None
                  | None => None
                  end) (interfaces d)) parsed.

(** The bandwidth of side [(a, ai)] as the claim words it: that of the
    interface named [ai] on device [a] (the last one, should the name occur
    twice), 100000 when there is none. *)
Definition side_bw (parsed : Parsed) (a ai : string) : Z :=
  match last (filter (λ intf, name intf = ai) (interfaces_of parsed a)) with
  | Some intf => bw intf
  | None => 100000
  end.

Definition sum_Z (l : list Z) : Z := foldr Z.add 0 l.

(** Sum over a link set of the smaller of the two side bandwidths. *)
Definition sum_min_bw (parsed : Parsed) (ls : list Link) : Z :=
  sum_Z ((λ '(a, ai, b, bi), Z.min (side_bw parsed a ai) (side_bw parsed b bi))
           <$> ls).

(** The MTU of side [(a, ai)] as the claim words it: that of the interface
    named [ai] on device [a] (the first one, should the name occur twice),
    1500 when there is none. *)
Definition side_mtu (parsed : Parsed) (a ai : string) : Z :=
  match head (filter (λ intf, name intf = ai) (interfaces_of parsed a)) with
  | Some intf => mtu intf
  | None => 1500
  end.

(** Do the MTUs of the two sides of a link differ? *)
Definition mtus_differ (parsed : Parsed) (l : Link) : Prop :=
  let '(a, ai, b, bi) := l in side_mtu parsed a ai ≠ side_mtu parsed b bi.

Global Instance mtus_differ_dec parsed l : Decision (mtus_differ parsed l).
Proof. destruct l as [[[a ai] b] bi]. simpl. apply _. Defined.

(** All underlying links of the graph, edge by edge. *)
Definition all_links (G : Graph) : list Link :=
  flat_map (λ e, links e.2) (edges G).

Definition links_in (parsed : Parsed) (G : Graph) : Prop :=
  ∀ e d a ai b bi, (e, d) ∈ g_edge G → (a, ai, b, bi) ∈ links d →
                   a ∈ parsed.*1 ∧ b ∈ parsed.*1.

(** No stored edge joins a node to itself. *)
Definition no_self_loop (G : Graph) : Prop :=
  ∀ u v, (u, v) ∈ (g_edge G).*1 → u ≠ v.

(** [l] is in the link set of the stored edge [e]. *)
Definition has_link (G : Graph) (e : string * string) (l : Link) : Prop :=
  ∃ d, (e, d) ∈ g_edge G ∧ l ∈ links d.

(** ** Issue detector *)

(** The device of every interface whose address is the (non-empty) string
    [a], in input order, with repetition. *)
Definition ip_owners (parsed : Parsed) (a : string) : list string :=
  flat_map (λ '(n, d),
    omap (λ intf, if decide (ip intf = Some a ∧ a ≠ ""%string)
                  then Some n else None) (interfaces d)) parsed.

Definition is_duplicate_ip_for (a : string) (i : Issue) : Prop :=
  match i with duplicate_ip b _ => a = b | _ => False end.

Global Instance is_duplicate_ip_for_dec a i : Decision (is_duplicate_ip_for a i).
Proof. destruct i; simpl; apply _. Defined.

(** The count of [k] in a [Counter]. *)
Fixpoint counter_get (c : list (string * Z)) (k : string) : Z :=
  match c with
  | [] => 0
  | (k', n) :: rest => if decide (k' = k) then n else counter_get rest k
  end.

Definition occurrences (k : string) (l : list string) : Z :=
  Z.of_nat (length (filter (λ x, x = k) l)).

(** The type tag of an issue (the ["type"] entry of its dictionary). *)
Inductive issue_type :=
| T_duplicate_ip | T_wrong_vlan_label | T_gateway_mismatch
| T_mtu_mismatch | T_network_loops | T_bgp_recommended.

Global Instance issue_type_eq_dec : EqDecision issue_type.
Proof. solve_decision. Defined.

Definition type_of (i : Issue) : issue_type :=
  match i with
  | duplicate_ip _ _ => T_duplicate_ip
  | wrong_vlan_label _ _ _ => T_wrong_vlan_label
  | gateway_mismatch _ _ => T_gateway_mismatch
  | mtu_mismatch _ _ _ => T_mtu_mismatch
  | network_loops _ => T_network_loops
  | bgp_recommended _ => T_bgp_recommended
  end.

(** The issues of type [t], in output order. *)
Definition of_type (t : issue_type) (issues : list Issue) : list Issue :=
  filter (λ i, type_of i = t) issues.

(** An ASN value that appears on some device. *)
Definition asn_value (parsed : Parsed) (z : Z) : Prop :=
  ∃ n d, (n, d) ∈ parsed ∧ asn d = Some z.

(** The non-zero ASN values of the devices. *)
Definition nonzero_asn (parsed : Parsed) (z : Z) : Prop :=
  z ≠ 0 ∧ ∃ n d, (n, d) ∈ parsed ∧ asn d = Some z.

(** More than one distinct non-zero ASN value among the devices. *)
Definition several_asns (parsed : Parsed) : Prop :=
  ∃ x y, nonzero_asn parsed x ∧ nonzero_asn parsed y ∧ x ≠ y.

(** What one underlying link contributes: one issue when the MTUs of its
    two sides differ, nothing when they are equal. *)
Definition link_mtu_issue (parsed : Parsed) (u v : string) (l : Link)
  : list Issue :=
  let '(a, ai, b, bi) := l in
  if decide (side_mtu parsed a ai = side_mtu parsed b bi) then []
  else [mtu_mismatch (link_label u v) (side_mtu parsed a ai)
                     (side_mtu parsed b bi)].

(** ** Cycles *)

(** A cycle of the graph, as its sequence of nodes: a self-loop, or three or
    more distinct nodes each adjacent to the next, the last to the first. *)
Definition is_cycle (G : Graph) (c : list string) : Prop :=
  (∃ z, c = [z] ∧ z ∈ neighbors G z)
  ∨ ((3 ≤ length c)%nat ∧ NoDup c
     ∧ ∀ i x y, c !! i = Some x → c !! ((i + 1) mod length c)%nat = Some y →
                y ∈ neighbors G x).

Definition has_cycle (G : Graph) : Prop := ∃ c, is_cycle G c.

(** What [cycle_basis] relies on: neighbour lists without repetition, over
    nodes of the graph.  (Symmetry holds by construction.) *)
Record graph_ok (G : Graph) : Prop := {
  ok_nodup : ∀ x, NoDup (neighbors G x);
  ok_closed : ∀ x y, y ∈ neighbors G x → x ∈ nodes G
}.

(** No two stored edges join the same pair of nodes. *)
Fixpoint distinct_edges (ks : list (string * string)) : Prop :=
  match ks with
  | [] => True
  | k :: rest => (∀ k', k' ∈ rest → ¬ same_edge k.1 k.2 k') ∧ distinct_edges rest
  end.

Record store_ok (G : Graph) : Prop := {
  so_ends : ∀ u v, (u, v) ∈ (g_edge G).*1 → u ∈ nodes G ∧ v ∈ nodes G;
  so_distinct : distinct_edges (g_edge G).*1
}.

(** On the node set [X] the graph is a forest: [X] is closed under
    adjacency, and every edge joins a node to its parent, one level up. *)
Definition treelike (G : Graph) (X : gset string) : Prop :=
  ∃ (par : string → string) (d : string → nat),
    ∀ x y, x ∈ X → y ∈ neighbors G x →
      y ∈ X ∧ ((par y = x ∧ d y = S (d x)) ∨ (par x = y ∧ d x = S (d y))).

(** ** The state of [cycle_basis] during a walk *)

(** [ancestors pred root x l]: following [pred] from [x] reaches [root]
    through exactly the nodes [l] (parent first, [root] last). *)
Inductive ancestors (pred : gmap string string) (root : string)
  : string → list string → Prop :=
| anc_root : ancestors pred root root []
| anc_step x p l :
    x ≠ root → pred !! x = Some p → ancestors pred root p l →
    ancestors pred root x (p :: l).

(** Consecutive nodes of the list are adjacent. *)
Fixpoint linked (G : Graph) (l : list string) : Prop :=
  match l with
  | x :: (y :: _) as rest => y ∈ neighbors G x ∧ linked G rest
  | _ => True
  end.

(** The order of the stack: the parent of a node lower in the stack is a
    proper ancestor of every node above it. *)
Fixpoint stack_ok (pred : gmap string string) (root : string)
    (stack : list string) : Prop :=
  match stack with
  | [] => True
  | s :: rest =>
      (∀ t, t ∈ rest →
         ∃ p l, pred !! t = Some p ∧ ancestors pred root s l ∧ p ∈ l)
      ∧ stack_ok pred root rest
  end.

(** The length of the parent chain of [x], by at most [fuel] steps. *)
Fixpoint depth (fuel : nat) (pred : gmap string string) (root x : string)
  : nat :=
  match fuel with
  | O => O
  | S f =>
      if decide (x = root) then O
      else match pred !! x with
           | Some p => S (depth f pred root p)
           | None => O
           end
  end.

(** *** Invariants of the walk of one component

    [P] is the set of nodes popped so far, [F] the nodes of the components
    walked before, and [dn x y] says that the popped node [x] has handled
    its neighbour [y] in its [for] loop. *)
Record core (G : Graph) (root : string) (F P : gset string)
    (dn : string → string → Prop) (st : walk) : Prop := {
  c_dom : ∀ x, is_Some (w_pred st !! x) ↔ is_Some (w_used st !! x);
  c_used : ∀ x, is_Some (w_used st !! x) ↔ x ∈ P ∨ x ∈ w_stack st;
  c_nodup : NoDup (w_stack st);
  c_disj : ∀ x, x ∈ w_stack st → x ∉ P;
  c_root : w_pred st !! root = Some root;
  c_anc : ∀ x, is_Some (w_pred st !! x) →
          ∃ l, ancestors (w_pred st) root x l ∧ NoDup (x :: l)
               ∧ ∀ y, y ∈ l → y ∈ P;
  c_par : ∀ x p, x ≠ root → w_pred st !! x = Some p →
          ∃ s, w_used st !! x = Some s ∧ p ∈ s;
  c_in : ∀ x s y, w_used st !! x = Some s → y ∈ s → dn y x ∧ y ≠ x;
  c_dn : ∀ x y, dn x y → x ∈ P ∧ y ∈ neighbors G x;
  c_done : ∀ x y, dn x y →
           y = x ∨ (∃ s, w_used st !! y = Some s ∧ x ∈ s)
           ∨ (∃ s, w_used st !! x = Some s ∧ y ∈ s);
  c_ns : ∀ x, is_Some (w_used st !! x) → x ∈ nodes G;
  c_F : ∀ x, is_Some (w_used st !! x) → x ∉ F;
  c_cyc : Forall (is_cycle G) (w_cycles st);
  c_tree : w_cycles st = [] →
           (∀ x y, dn x y → y ≠ x)
           ∧ (∀ x s y, w_used st !! x = Some s → y ∈ s →
                       w_pred st !! x = Some y ∧ x ≠ root)
}.

(** Between two iterations of [while stack]. *)
Definition done_all (G : Graph) (P : gset string) (x y : string) : Prop :=
  x ∈ P ∧ y ∈ neighbors G x.

Record head_inv (G : Graph) (root : string) (F P : gset string) (st : walk)
  : Prop := {
  h_core : core G root F P (done_all G P) st;
  h_stack : stack_ok (w_pred st) root (w_stack st);
  h_root : root ∈ P ∨ w_stack st = [root]
}.

(** Inside the [for] loop of the popped node [z], after the neighbours
    [seen]. *)
Definition done_upto (G : Graph) (P : gset string) (z : string)
    (seen : list string) (x y : string) : Prop :=
  (x ∈ P ∧ x ≠ z ∧ y ∈ neighbors G x) ∨ (x = z ∧ y ∈ seen).

Record mid_inv (G : Graph) (root : string) (F P : gset string) (z : string)
    (zused : gset string) (lz : list string) (seen : list string) (st : walk)
  : Prop := {
  m_core : core G root F P (done_upto G P z seen) st;
  m_stack : stack_ok (w_pred st) root (w_stack st);
  m_z : z ∈ P;
  m_root : root ∈ P;
  m_zused : w_used st !! z = Some zused;
  m_lz : ancestors (w_pred st) root z lz;
  m_top : ∀ t, t ∈ w_stack st →
          ∃ p, w_pred st !! t = Some p ∧ p ∈ z :: lz;
  m_seen : ∀ y, y ∈ seen → y ∈ neighbors G z
}.

(** ** Links found by the two passes *)

(** The Link tuple pass 2 adds for a pair of [iface_list] entries, if any. *)
Definition inferred_link (p : IfaceEntry * IfaceEntry) : option Link :=
  let '((n1, i1, ip1, _, _), (n2, i2, ip2, _, _)) := p in
  if decide (prefix24 ip1 = prefix24 ip2 ∧ n1 ≠ n2)
  then Some (n1, i1, n2, i2) else None.

(** The Link tuples of shared-subnet adjacency. *)
Definition inferred_links (parsed : Parsed) : list Link :=
  omap inferred_link (combinations2 (iface_list parsed)).

(** The stored edge [e] joins the two devices of the Link tuple [l]. *)
Definition joins (e : string * string) (l : Link) : Prop :=
  same_edge l.1.1.1 l.1.2 e.

(** Every stored edge has a non-empty, duplicate-free link set of tuples
    that join its two nodes and were found by one of the passes. *)
Definition links_sound (parsed : Parsed) (G : Graph) : Prop :=
  ∀ e d, (e, d) ∈ g_edge G →
    links d ≠ [] ∧ NoDup (links d)
    ∧ ∀ l, l ∈ links d →
        joins e l ∧ (l ∈ hint_links parsed ∨ l ∈ inferred_links parsed).

(** No interface hint names the device that carries it. *)
Definition no_self_hint (parsed : Parsed) : Prop :=
  ∀ a d intf b b_if,
    (a, d) ∈ parsed → intf ∈ interfaces d →
    connects_to intf = Some (b, b_if) → b ≠ a.

(** Every configured bandwidth is positive. *)
Definition positive_bw (parsed : Parsed) : Prop :=
  ∀ n d intf, (n, d) ∈ parsed → intf ∈ interfaces d → 0 < bw intf.

(** ** The other rules of the detector *)

(** Interface [i] of the switch [n] is in access VLAN [v], which the switch
    does not define. *)
Definition undefined_vlan (parsed : Parsed) (n i v : string) : Prop :=
  ∃ d intf, (n, d) ∈ parsed ∧ device_type d = switch
            ∧ intf ∈ interfaces d ∧ name intf = i
            ∧ vlan intf = Some v ∧ v ≠ ""%string ∧ v ∉ (vlans d).*1.

(** Some interface of [ifs] has an address in the /24 of [gw]. *)
Definition shares_prefix (gw : string) (ifs : list InterfaceSpec) : Prop :=
  ∃ intf a, intf ∈ ifs ∧ ip intf = Some a ∧ a ≠ ""%string
            ∧ prefix24 a = prefix24 gw.

(** Device [n] has default gateway [gw] and no interface in its /24. *)
Definition stray_gateway (parsed : Parsed) (n gw : string) : Prop :=
  ∃ d, (n, d) ∈ parsed ∧ default_gateway d = Some gw ∧ gw ≠ ""%string
       ∧ ¬ shares_prefix gw (interfaces d).

(** The rule order of the detector. *)
Definition rule_order : list issue_type :=
  [T_duplicate_ip; T_wrong_vlan_label; T_gateway_mismatch; T_mtu_mismatch;
   T_network_loops; T_bgp_recommended].

(** ** Demand simulator and load balancer *)

(** What the tool relies on from [nx.shortest_path]: consecutive nodes of a
    returned path are adjacent in the graph. *)
Definition path_ok (G : Graph)
    (shortest_path : Graph → string → string → option (list string)) : Prop :=
  ∀ s d p, shortest_path G s d = Some p → linked G p.

(** A path routine that only knows direct links. *)
Definition direct_path (G : Graph) (s d : string) : option (list string) :=
  if has_edge G s d then Some [s; d] else None.

(** [G.edges[a, b].get("capacity_kbps", 0)] on an existing edge. *)
Definition capacity_of (G : Graph) (a b : string) : Z :=
  default 0 (edge_data (g_edge G) a b ≫= capacity_kbps).

(** The recommendations for the keys whose load exceeds the capacity of
    their edge, in key order. *)
Definition overloaded (G : Graph) (edge_load : EdgeLoad) : list Reco :=
  omap (λ '((a, b), load),
          if decide (load > capacity_of G a b)
          then Some (mkReco (link_label a b) load (capacity_of G a b))
          else None) edge_load.

(** Every key of the mapping is an edge of the graph. *)
Definition keys_are_edges (G : Graph) (edge_load : EdgeLoad) : Prop :=
  Forall (λ k, has_edge G k.1 k.2 = true) edge_load.*1.

Global Instance keys_are_edges_dec G edge_load :
  Decision (keys_are_edges G edge_load).
Proof. unfold keys_are_edges. apply _. Defined.

(** ** Dotted strings *)

(** The string has no dot. *)
Fixpoint dot_free (s : string) : Prop :=
  match s with
  | EmptyString => True
  | String c s' => c ≠ dot ∧ dot_free s'
  end.

(** [a.b.c.rest] *)
Definition dotted4 (a b c rest : string) : string :=
  (a +:+ String dot (b +:+ String dot (c +:+ String dot rest)))%string.

(** ** The day-1 discovery simulation

    [run_day1_sim] starts one [NodeThread] per router; the threads run
    concurrently and talk through their [inbox] queues.  A thread is
    modelled by its place in [run], and a run of the whole simulation by a
    schedule: the sequence in which the main thread and the router threads
    take their next step.  One step is one statement with a visible effect
    ([Thread.start], [Queue.put], [Queue.get], [list.append], the lookup
    [nodes[frm]]); [Queue] operations are atomic.  The clock is not modelled:
    the [while] loop may end whenever the thread is at its head, and where
    the main thread reads the logs is any point of a schedule. *)

(** [msg["type"]] *)
Inductive msg_type := NEIGHBOR_HELLO | NEIGHBOR_ACK.

Global Instance msg_type_eq_dec : EqDecision msg_type.
Proof. solve_decision. Defined.

(** An inbox entry [(frm, msg)] and a log entry [(frm, msg["type"])]. *)
Definition Msg := (string * msg_type)%type.

(** Where a thread stands in [NodeThread.run]. *)
Inductive pc :=
| NotStarted
| Bootstrap (todo : list string)  (* in the [for] loop, [todo] still to greet *)
| Polling                         (* at the head of the [while] loop *)
| Received (m : Msg)              (* [inbox.get] returned [m] *)
| Replying (frm : string)         (* a hello from [frm] is logged *)
| Finished                        (* the [while] loop has ended *)
| Crashed.                        (* [nodes[frm]] raised [KeyError] *)

(** The threads of [nodes], by name, and the routers the main thread has
    still to start. *)
Record Sim := mkSim {
  to_start : list string;
  th_pc : string → pc;
  th_inbox : string → list Msg;
  th_log : string → list Msg
}.

(** [d.get("device_type") == "router"] *)
Definition is_router (d : option node_attr) : bool :=
  match d with
  | Some a => bool_decide (na_device_type a = router)
  | None => false
  end.

Definition router_nodes (G : Graph) : list string :=
  (filter (λ nd, is_router nd.2 = true) (g_node G)).*1.

(** [neighborhood[n]] *)
Definition neighborhood (G : Graph) (n : string) : list string :=
  filter (λ m, m ∈ router_nodes G) (neighbors G n).

(** A dict of per-thread values with the entry of [n] replaced. *)
Definition fn_set {T} (n : string) (v : T) (f : string → T) : string → T :=
  λ x, if decide (x = n) then v else f x.

Definition set_pc (n : string) (p : pc) (s : Sim) : Sim :=
  mkSim (to_start s) (fn_set n p (th_pc s)) (th_inbox s) (th_log s).

(** [nodes[n].inbox.put(m)] *)
Definition put (n : string) (m : Msg) (s : Sim) : Sim :=
  mkSim (to_start s) (th_pc s) (fn_set n (th_inbox s n ++ [m]) (th_inbox s))
        (th_log s).

(** [nodes[n].log.append(m)] *)
Definition log_append (n : string) (m : Msg) (s : Sim) : Sim :=
  mkSim (to_start s) (th_pc s) (th_inbox s)
        (fn_set n (th_log s n ++ [m]) (th_log s)).

(** All threads created, none started. *)
Definition created (G : Graph) : Sim :=
  mkSim (router_nodes G) (λ _, NotStarted) (λ _, []) (λ _, []).

(** Who takes the next step. *)
Inductive action :=
| Main                 (* the main thread: the next [nodes[n].start()] *)
| Run (n : string)     (* thread [n]: its next statement *)
| Expire (n : string). (* thread [n]: the two seconds are over *)

(** The next statement of thread [n].  [inbox.get] on an empty queue times
    out and the loop goes round: no change. *)
Definition thread_step (G : Graph) (n : string) (s : Sim) : Sim :=
  match th_pc s n with
  | Bootstrap (nb :: todo) =>
      set_pc n (Bootstrap todo) (put nb (n, NEIGHBOR_HELLO) s)
  | Bootstrap [] => set_pc n Polling s
  | Polling =>
      match th_inbox s n with
      | m :: q =>
          mkSim (to_start s) (fn_set n (Received m) (th_pc s))
                (fn_set n q (th_inbox s)) (th_log s)
      | [] => s
      end
  | Received (frm, ty) =>
      set_pc n (match ty with
                | NEIGHBOR_HELLO => Replying frm
                | NEIGHBOR_ACK => Polling
                end)
             (log_append n (frm, ty) s)
  | Replying frm =>
      if decide (frm ∈ router_nodes G)
      then set_pc n Polling (put frm (n, NEIGHBOR_ACK) s)
      else set_pc n Crashed s
  | NotStarted | Finished | Crashed => s
  end.

(** One step of the simulation.  The keys of [G.nodes] are distinct, so the
    main thread starts each thread once. *)
Definition fire (G : Graph) (a : action) (s : Sim) : Sim :=
  match a with
  | Main =>
      match to_start s with
      | n :: rest =>
          mkSim rest
                (match th_pc s n with
                 | NotStarted => fn_set n (Bootstrap (neighborhood G n)) (th_pc s)
                 | _ => th_pc s
                 end)
                (th_inbox s) (th_log s)
      | [] => s
      end
  | Run n => thread_step G n s
  | Expire n =>
      match th_pc s n with
      | Polling => set_pc n Finished s
      | _ => s
      end
  end.

(** The state after the steps of a schedule. *)
Definition sim_state (G : Graph) (sched : list action) : Sim :=
  foldl (λ s a, fire G a s) (created G) sched.

(** [simlog], read after the steps of [sched]. *)
Definition run_day1_sim (G : Graph) (sched : list action)
  : list (string * list Msg) :=
  (λ n, (n, th_log (sim_state G sched) n)) <$> router_nodes G.

(** Number of occurrences. *)
Definition occ `{EqDecision A} (x : A) (l : list A) : nat :=
  length (filter (λ y, y = x) l).

(** Hellos [m] has still to send to [n]. *)
Definition unsent (G : Graph) (s : Sim) (m n : string) : nat :=
  match th_pc s m with
  | NotStarted => occ n (neighborhood G m)
  | Bootstrap todo => occ n todo
  | _ => 0%nat
  end.

(** Is [x] the message thread [n] has taken from its inbox and not yet
    logged? *)
Definition in_hand (s : Sim) (n : string) (x : Msg) : nat :=
  match th_pc s n with
  | Received y => if decide (y = x) then 1%nat else 0%nat
  | _ => 0%nat
  end.

(** Does [n] owe [m] the answer to a logged hello? *)
Definition owes (s : Sim) (n m : string) : nat :=
  match th_pc s n with
  | Replying f => if decide (f = m) then 1%nat else 0%nat
  | _ => 0%nat
  end.

(** Every router thread waits or has ended, with an empty inbox. *)
Definition quiescent (G : Graph) (s : Sim) : Prop :=
  ∀ n, n ∈ router_nodes G →
    th_inbox s n = [] ∧ (th_pc s n = Polling ∨ th_pc s n = Finished).

(** Messages are only sent between adjacent routers. *)
Record local (G : Graph) (s : Sim) : Prop := {
  lc_start : ∀ n, n ∈ to_start s → n ∈ router_nodes G;
  lc_started : ∀ n, th_pc s n ≠ NotStarted → n ∈ router_nodes G;
  lc_alive : ∀ n, th_pc s n ≠ Crashed;
  lc_todo : ∀ n todo m, th_pc s n = Bootstrap todo → m ∈ todo →
                        m ∈ neighborhood G n;
  lc_inbox : ∀ n x, x ∈ th_inbox s n → x.1 ∈ neighborhood G n;
  lc_hand : ∀ n x, th_pc s n = Received x → x.1 ∈ neighborhood G n;
  lc_reply : ∀ n frm, th_pc s n = Replying frm → frm ∈ neighborhood G n;
  lc_log : ∀ n x, x ∈ th_log s n →
                  n ∈ router_nodes G ∧ x.1 ∈ neighborhood G n
}.

(** No message is lost or duplicated. *)
Record conserved (G : Graph) (s : Sim) : Prop := {
  cs_hello : ∀ m n,
    (unsent G s m n + occ (m, NEIGHBOR_HELLO) (th_inbox s n)
     + in_hand s n (m, NEIGHBOR_HELLO)
     + occ (m, NEIGHBOR_HELLO) (th_log s n))%nat
    = occ n (neighborhood G m);
  cs_ack : ∀ m n,
    (owes s n m + occ (n, NEIGHBOR_ACK) (th_inbox s m)
     + in_hand s m (n, NEIGHBOR_ACK)
     + occ (n, NEIGHBOR_ACK) (th_log s m))%nat
    = occ (m, NEIGHBOR_HELLO) (th_log s n)
}.

(** The log entries a router can have. *)
Definition expected_log (G : Graph) (n : string) : list Msg :=
  flat_map (λ m, [(m, NEIGHBOR_HELLO); (m, NEIGHBOR_ACK)]) (neighborhood G n).

(** Two routers joined by one link, for the examples. *)
Definition router_attr : option node_attr :=
  Some (mkNodeAttr router [] None).

Definition two_routers : Graph :=
  mkGraph [("R1"%string, router_attr); ("R2"%string, router_attr)]
          [(("R1"%string, "R2"%string), mkEdgeAttr [] None None)].

(** Both threads are started, greet, and handle all they receive. *)
Definition full_schedule : list action :=
  [Main; Main; Run "R1"; Run "R1"; Run "R2"; Run "R2";
   Run "R1"; Run "R1"; Run "R1"; Run "R2"; Run "R2"; Run "R2";
   Run "R1"; Run "R1"; Run "R2"; Run "R2"; Expire "R1"]%string.

(** The devices whose configuration says [router], in input order. *)
Definition routers_of (parsed : Parsed) : list string :=
  (filter (λ nd, device_type nd.2 = router) parsed).*1.

(** R1 greets and its window closes before R2 has sent anything. *)
Definition early_schedule : list action :=
  [Main; Main; Run "R1"; Run "R1"; Expire "R1";
   Run "R2"; Run "R2"; Run "R2"; Run "R2"; Run "R2"; Expire "R2"]%string.

(** * Properties *)

(** ** Pass 1 of [build_topology] *)

(** C1 (fails on the code): on [parallel_net] both hints of R1 name R2, which
    is in the input set, yet after pass 1 the edge R1-R2 holds only the
    Link tuple of the second hint: [add_edge(a, b, links=set())] has
    replaced the link set that held the first one. *)
Theorem C1_pass1_drops_earlier_link :
  hint_links parallel_net
    = [("R1", "Fa0/0", "R2", "Fa0/0"); ("R1", "Fa0/1", "R2", "Fa0/1")]%string
  ∧ (links <$> edge_data (g_edge (after_pass1 parallel_net)) "R1" "R2")
    = Some [("R1", "Fa0/1", "R2", "Fa0/1")%string]
  ∧ ¬ (∀ l, l ∈ hint_links parallel_net →
         ∃ ed, edge_data (g_edge (after_pass1 parallel_net)) l.1.1.1 l.1.2
                 = Some ed ∧ l ∈ links ed).
Proof.
  split; [reflexivity|]. split; [reflexivity|].
  intros H.
  destruct (H ("R1", "Fa0/0", "R2", "Fa0/0")%string) as (ed & Hed & Hin).
  - vm_compute. left.
  - vm_compute in Hed. inversion Hed; subst ed; clear Hed.
    simpl in Hin. apply list_elem_of_singleton in Hin. discriminate Hin.
Qed.

(** C9 (fails on the code): a hint that names the device itself passes the
    [b in parsed] test of pass 1, which has no [a != b] guard, and the built
    graph has the self-loop R1-R1. *)
Theorem C9_self_hint_makes_self_loop :
  edges (build_topology self_hint_net)
  = [("R1", "R1",
      mkEdgeAttr [("R1", "Fa0/0", "R1", "Fa0/1")] (Some 100000)
                 (Some [(1500, 1500)]))]%string
  ∧ ¬ (∀ u v ed, (u, v, ed) ∈ edges (build_topology self_hint_net) → u ≠ v).
Proof.
  split; [reflexivity|].
  intros H. eapply (H "R1" "R1")%string; [|reflexivity].
  vm_compute. left.
Qed.

(** ** The demand simulator *)

Lemma sample2_short population i j :
  (length population < 2)%nat → sample2 population i j = Raise ValueError.
Proof. intros H. unfold sample2. by rewrite decide_True. Qed.

Lemma sample2_ok population i j :
  (2 ≤ length population)%nat →
  ∃ s d, sample2 population i j = Ok (s, d).
Proof.
  intros H. unfold sample2. rewrite decide_False by lia.
  assert (Hi : (i mod length population < length population)%nat)
    by (apply Nat.mod_upper_bound; lia).
  destruct (lookup_lt_is_Some_2 population _ Hi) as [s Hs]. rewrite Hs.
  assert (Hlen : length (delete (i mod length population)%nat population)
                 = (length population - 1)%nat).
  { rewrite length_delete; [lia|]. eauto. }
  assert (Hj : (j mod length (delete (i mod length population)%nat population)
                < length (delete (i mod length population)%nat population))%nat)
    by (apply Nat.mod_upper_bound; lia).
  destruct (lookup_lt_is_Some_2 _ _ Hj) as [d Hd]. rewrite Hd. eauto.
Qed.

Lemma dict_set_keys k v (d : EdgeLoad) k' :
  k' ∈ d.*1 → k' ∈ (dict_set k v d).*1.
Proof.
  induction d as [|[k0 v0] d IH]; simpl; [by intros ?%elem_of_nil|].
  intros Hin. case_decide; simpl; [done|].
  apply elem_of_cons in Hin as [->|Hin]; [left|right; auto].
Qed.

Lemma dict_set_key_in k v (d : EdgeLoad) : k ∈ (dict_set k v d).*1.
Proof.
  induction d as [|[k0 v0] d IH]; simpl; [left|].
  case_decide; simpl; [subst; left|by right].
Qed.

Lemma add_path_keys demand path (load : EdgeLoad) k :
  k ∈ load.*1 → k ∈ (add_path demand load path).*1.
Proof.
  unfold add_path. generalize (zip path (tail path)). intros l.
  revert load. induction l as [|ab l IH]; simpl; [done|].
  intros load Hin. apply IH. unfold add_demand. by apply dict_set_keys.
Qed.

Section DemandFacts.
Variable shortest_path : Graph → string → string → option (list string).
Variable rnd : nat → draw.

(** A trial whose pair has no path leaves the load untouched. *)
Lemma trial_no_path G load t src dst_ :
  sample2 (nodes G) (d_src (rnd t)) (d_dst (rnd t)) = Ok (src, dst_) →
  shortest_path G src dst_ = None →
  trial shortest_path rnd G load t = Ok load.
Proof. intros Hs Hp. unfold trial. by rewrite Hs, Hp. Qed.

Lemma trials_ok G load ts :
  (2 ≤ length (nodes G))%nat →
  ∃ load', trials shortest_path rnd G load ts = Ok load'
           ∧ ∀ k, k ∈ load.*1 → k ∈ load'.*1.
Proof.
  intros Hn. revert load. induction ts as [|t ts IH]; intros load; simpl.
  - eauto.
  - unfold trial.
    destruct (sample2_ok (nodes G) (d_src (rnd t)) (d_dst (rnd t)) Hn)
      as (s & d & ->).
    destruct (shortest_path G s d) as [path|].
    + destruct (IH (add_path (choice (d_demand (rnd t))) load path))
        as (load' & -> & Hk).
      eexists; split; [done|]. intros k Hin. by apply Hk, add_path_keys.
    + apply IH.
Qed.

Lemma trials_raise_short G load t ts :
  (length (nodes G) < 2)%nat →
  trials shortest_path rnd G load (t :: ts) = Raise ValueError.
Proof. intros H. simpl. unfold trial. by rewrite sample2_short. Qed.
End DemandFacts.

(** C5 (fails on the code): with a single device the graph has one node and
    [random.sample(list(G.nodes()), 2)] raises [ValueError] in the first
    trial, whatever the random source and the path routine are. *)
Theorem C5_single_device_raises :
  nodes (build_topology single_net) = ["R1"%string]
  ∧ ∀ shortest_path rnd,
      estimate_endpoint_demands shortest_path rnd (build_topology single_net)
      = Raise ValueError.
Proof.
  split; [reflexivity|]. intros sp rnd.
  unfold estimate_endpoint_demands. apply trials_raise_short.
  vm_compute. lia.
Qed.

(** C7 (fails on the code): on [subnet_net] the graph lists the edge as
    (R2, R1), [edge_load] is initialised with that key as it is, and the key
    is still in the returned mapping, whatever the trials do; it is not a
    sorted pair. *)
Theorem C7_unsorted_key_returned :
  initial_load (build_topology subnet_net) = [(("R2", "R1")%string, 0)]
  ∧ ¬ canonical ("R2", "R1")%string
  ∧ ∀ shortest_path rnd,
      ∃ load,
        estimate_endpoint_demands shortest_path rnd (build_topology subnet_net)
        = Ok load
        ∧ ("R2", "R1")%string ∈ load.*1.
Proof.
  split; [reflexivity|]. split; [by vm_compute|].
  intros sp rnd. unfold estimate_endpoint_demands.
  destruct (trials_ok sp rnd (build_topology subnet_net)
              (initial_load (build_topology subnet_net)) (seq 0 6))
    as (load & Hload & Hk).
  - vm_compute. lia.
  - exists load. split; [done|]. apply Hk. vm_compute. left.
Qed.

(** ** Capacity annotation *)

Lemma resolve_bw_foldl ifs ai acc :
  foldl (λ acc intf, if decide (name intf = ai) then bw intf else acc) acc ifs
  = match last (filter (λ intf, name intf = ai) ifs) with
    | Some intf => bw intf
    | None => acc
    end.
Proof.
  revert acc. induction ifs as [|x ifs IH]; intros acc; simpl; [done|].
  rewrite IH. rewrite filter_cons. case_decide.
  - destruct (filter _ ifs) as [|y l]; [done|].
    change (last (x :: y :: l)) with (last (y :: l)).
    destruct (last (y :: l)) eqn:E; [done|]. by apply last_None in E.
  - done.
Qed.

Lemma resolve_bw_side parsed a ai :
  resolve_bw (interfaces_of parsed a) ai = side_bw parsed a ai.
Proof. unfold resolve_bw, side_bw. apply resolve_bw_foldl. Qed.

Lemma filter_none {A} (P : A → Prop) `{∀ x, Decision (P x)} (l : list A) :
  (∀ x, x ∈ l → ¬ P x) → filter P l = [].
Proof.
  induction l as [|x l IH]; intros Hl; [done|].
  rewrite filter_cons, decide_False by (apply Hl; left).
  apply IH. intros y Hy. apply Hl. by right.
Qed.

Lemma elem_of_flat_map {A B} (f : A → list B) (l : list A) (y : B) :
  y ∈ flat_map f l ↔ ∃ x, x ∈ l ∧ y ∈ f x.
Proof.
  induction l as [|x l IH]; simpl.
  - split; [by intros ?%elem_of_nil|]. by intros (x & ?%elem_of_nil & _).
  - rewrite elem_of_app, IH. split.
    + intros [Hy|(x' & Hx' & Hy)]; [exists x; split; [left|done]|].
      exists x'. split; [by right|done].
    + intros (x' & [->|Hx']%elem_of_cons & Hy); [by left|]. right. eauto.
Qed.

Lemma side_bw_unresolved parsed a ai :
  ai ∉ name <$> interfaces_of parsed a → side_bw parsed a ai = 100000.
Proof.
  intros Hn. unfold side_bw.
  replace (filter (λ intf, name intf = ai) (interfaces_of parsed a))
    with (@nil InterfaceSpec); [done|].
  symmetry. apply filter_none. intros x Hx Hname.
  apply Hn, list_elem_of_fmap. eauto.
Qed.

Lemma foldl_add_sum (f : Link → Z) ls acc :
  foldl (λ cap l, cap + f l) acc ls = acc + sum_Z (f <$> ls).
Proof.
  unfold sum_Z. revert acc.
  induction ls as [|l ls IH]; intros acc; simpl; [lia|].
  rewrite IH. symmetry. apply Z.add_assoc.
Qed.

Lemma links_capacity_sum parsed ls :
  links_capacity parsed ls = sum_min_bw parsed ls.
Proof.
  unfold links_capacity, sum_min_bw. rewrite foldl_add_sum, Z.add_0_l.
  f_equal. apply list_fmap_ext. intros _ [[[a ai] b] bi] _. simpl.
  by rewrite !resolve_bw_side.
Qed.

Lemma adj_annotate parsed G z :
  adj (annotate parsed G) z = prod_map id (annotate_edge parsed) <$> adj G z.
Proof.
  unfold adj, annotate. simpl.
  induction (g_edge G) as [|[[u v] d] es IH]; simpl; [done|].
  repeat case_decide; simpl; by f_equal.
Qed.

Lemma nodes_annotate parsed G : nodes (annotate parsed G) = nodes G.
Proof. done. Qed.

Lemma neighbors_annotate parsed G z :
  neighbors (annotate parsed G) z = neighbors G z.
Proof.
  unfold neighbors. rewrite adj_annotate, <- list_fmap_compose.
  apply list_fmap_ext. by intros _ [] _.
Qed.

Lemma edges_from_annotate parsed G seen ns :
  edges_from (annotate parsed G) seen ns
  = prod_map id (annotate_edge parsed) <$> edges_from G seen ns.
Proof.
  revert seen. induction ns as [|n ns IH]; intros seen; simpl; [done|].
  rewrite fmap_app, IH, adj_annotate. f_equal.
  induction (adj G n) as [|[nbr d] l IHl]; simpl; [done|].
  case_decide; simpl; by f_equal.
Qed.

Lemma edges_annotate parsed G :
  edges (annotate parsed G)
  = prod_map id (annotate_edge parsed) <$> edges G.
Proof. apply edges_from_annotate. Qed.

(** Every edge of the built graph carries the annotation of its links. *)
Lemma edges_build_annotated parsed u v ed :
  (u, v, ed) ∈ edges (build_topology parsed) →
  ed = annotate_edge parsed ed.
Proof.
  unfold build_topology. rewrite edges_annotate.
  intros ([[u' v'] d] & [= -> -> ->] & _)%list_elem_of_fmap.
  done.
Qed.

(** C2, as amended: the capacity of every edge of the built graph is the sum
    over its link set of the smaller side bandwidth (100000 for a side whose
    interface name is not found), except that a sum of zero is replaced by
    100000. *)
Theorem C2_capacity_is_sum_or_default parsed u v ed :
  (u, v, ed) ∈ edges (build_topology parsed) →
  capacity_kbps ed
  = Some (if decide (sum_min_bw parsed (links ed) = 0) then 100000
          else sum_min_bw parsed (links ed)).
Proof.
  intros ->%edges_build_annotated. simpl. by rewrite links_capacity_sum.
Qed.

Lemma C2_capacity_witness :
  ("R1", "R2", mkEdgeAttr [("R1", "Fa0/1", "R2", "Fa0/1")] (Some 100000)
                          (Some [(1500, 1500)]))%string
    ∈ edges (build_topology parallel_net)
  ∧ Some 100000 = Some (if decide (sum_min_bw parallel_net
                              [("R1", "Fa0/1", "R2", "Fa0/1")%string] = 0)
                        then 100000
                        else sum_min_bw parallel_net
                               [("R1", "Fa0/1", "R2", "Fa0/1")%string]).
Proof.
  assert (H : ("R1", "R2", mkEdgeAttr [("R1", "Fa0/1", "R2", "Fa0/1")]
                             (Some 100000) (Some [(1500, 1500)]))%string
              ∈ edges (build_topology parallel_net)) by (vm_compute; left).
  split; [exact H|].
  exact (C2_capacity_is_sum_or_default parallel_net _ _ _ H).
Defined.

(** C2 as stated fails: on [zero_bw_net] the only edge has one link whose
    sides both have bandwidth 0; the sum is 0 and the capacity 100000. *)
Lemma C2_counterexample :
  ¬ (∀ u v ed, (u, v, ed) ∈ edges (build_topology zero_bw_net) →
       capacity_kbps ed = Some (sum_min_bw zero_bw_net (links ed))).
Proof.
  intros H.
  specialize (H "R1" "R2"
    (mkEdgeAttr [("R1", "Fa0/0", "R2", "Fa0/0")] (Some 100000)
                (Some [(1500, 1500)]))%string).
  assert (Hin : ("R1", "R2",
                 mkEdgeAttr [("R1", "Fa0/0", "R2", "Fa0/0")] (Some 100000)
                            (Some [(1500, 1500)]))%string
                ∈ edges (build_topology zero_bw_net)) by (vm_compute; left).
  specialize (H Hin). vm_compute in H. discriminate H.
Qed.

(** ** The rules of [detect_issues] *)

Lemma counter_incr_get c x k :
  counter_get (counter_incr x c) k
  = if decide (x = k) then counter_get c k + 1 else counter_get c k.
Proof.
  induction c as [|[k' n] c IH]; simpl.
  - by destruct (decide (x = k)).
  - destruct (decide (k' = x)) as [->|Hne]; simpl.
    + by destruct (decide (x = k)).
    + rewrite IH.
      destruct (decide (k' = k)) as [->|]; [|done].
      by rewrite decide_False.
Qed.

Lemma counter_incr_keys c x :
  (counter_incr x c).*1 = c.*1 ++ (if decide (x ∈ c.*1) then [] else [x]).
Proof.
  induction c as [|[k' n] c IH]; simpl; [done|].
  destruct (decide (k' = x)) as [->|Hne]; simpl.
  - rewrite decide_True by (apply elem_of_cons; by left). by rewrite app_nil_r.
  - f_equal. etrans; [exact IH|]. f_equal.
    destruct (decide (x ∈ c.*1)) as [Hin|Hnin].
    + rewrite decide_True; [done|]. apply elem_of_cons. by right.
    + rewrite decide_False; [done|]. intros [->|]%elem_of_cons; done.
Qed.

Lemma Counter_snoc l x : Counter (l ++ [x]) = counter_incr x (Counter l).
Proof. unfold Counter. by rewrite foldl_snoc. Qed.

Lemma Counter_get l k : counter_get (Counter l) k = occurrences k l.
Proof.
  unfold occurrences.
  induction l as [|x l IH] using rev_ind; [done|].
  rewrite Counter_snoc, counter_incr_get, IH, filter_app, length_app.
  rewrite filter_cons, filter_nil. repeat case_decide; simpl; lia.
Qed.

Lemma Counter_keys_NoDup l : NoDup (Counter l).*1.
Proof.
  induction l as [|x l IH] using rev_ind; [constructor|].
  rewrite Counter_snoc, counter_incr_keys. case_decide.
  - by rewrite app_nil_r.
  - apply NoDup_app. split; [done|]. split; [|apply NoDup_singleton].
    intros y Hy ->%list_elem_of_singleton. done.
Qed.

Lemma Counter_keys l k : k ∈ (Counter l).*1 ↔ k ∈ l.
Proof.
  revert k. induction l as [|x l IH] using rev_ind; intros k; [done|].
  rewrite Counter_snoc, counter_incr_keys, !elem_of_app, IH.
  rewrite list_elem_of_singleton. case_decide as Hx.
  - rewrite elem_of_nil. apply IH in Hx. split.
    + intros [Hk|Hk]; [by left|done].
    + intros [Hk| ->]; by left.
  - by rewrite list_elem_of_singleton.
Qed.

Lemma counter_get_elem c k n :
  NoDup c.*1 → (k, n) ∈ c → counter_get c k = n.
Proof.
  induction c as [|[k' n'] c IH]; simpl; [by intros _ ?%elem_of_nil|].
  intros [Hk Hnd]%NoDup_cons Hin. case_decide; subst.
  - apply elem_of_cons in Hin as [[= ->]|Hin]; [done|].
    exfalso. apply Hk. apply list_elem_of_fmap. by exists (k, n).
  - apply elem_of_cons in Hin as [[= -> ->]|Hin]; [done|]. by apply IH.
Qed.

Lemma counter_elem_get c k :
  k ∈ c.*1 → (k, counter_get c k) ∈ c.
Proof.
  induction c as [|[k' n'] c IH]; simpl; [by intros ?%elem_of_nil|].
  intros Hin. case_decide; subst; [left|].
  right. apply IH. apply elem_of_cons in Hin as [->|]; done.
Qed.

(** An entry of the [Counter] is a key of the list with its number of
    occurrences. *)
Lemma Counter_elem l k n :
  (k, n) ∈ Counter l ↔ k ∈ l ∧ n = occurrences k l.
Proof.
  split.
  - intros Hin. split.
    + apply Counter_keys, list_elem_of_fmap. by exists (k, n).
    + rewrite <- Counter_get. symmetry.
      by apply counter_get_elem; [apply Counter_keys_NoDup|].
  - intros [Hin ->]. rewrite <- Counter_get.
    by apply counter_elem_get, Counter_keys.
Qed.

Lemma of_type_all t l : Forall (λ i, type_of i = t) l → of_type t l = l.
Proof.
  unfold of_type. induction 1 as [|i l Hi _ IH]; [done|].
  by rewrite filter_cons, decide_True, IH.
Qed.

Lemma of_type_none t t' l :
  t ≠ t' → Forall (λ i, type_of i = t') l → of_type t l = [].
Proof.
  intros Hne. unfold of_type. induction 1 as [|i l Hi _ IH]; [done|].
  rewrite filter_cons, decide_False, IH; congruence.
Qed.

Lemma of_type_Forall t t' l :
  Forall (λ i, type_of i = t') l →
  of_type t l = if decide (t = t') then l else [].
Proof.
  intros H. case_decide as Ht.
  - subst. by apply of_type_all.
  - by eapply of_type_none.
Qed.

Lemma Forall_omap {A B} (P : B → Prop) (f : A → option B) (l : list A) :
  (∀ x y, f x = Some y → P y) → Forall P (omap f l).
Proof.
  intros Hf. induction l as [|x l IH]; simpl; [constructor|].
  destruct (f x) as [y|] eqn:E; [constructor; eauto|done].
Qed.

Lemma Forall_flat_map_intro {A B} (P : B → Prop) (f : A → list B) (l : list A) :
  (∀ x, Forall P (f x)) → Forall P (flat_map f l).
Proof.
  intros Hf. induction l as [|x l IH]; simpl; [constructor|].
  apply Forall_app. eauto.
Qed.

Lemma duplicate_ip_issues_type parsed :
  Forall (λ i, type_of i = T_duplicate_ip) (duplicate_ip_issues parsed).
Proof.
  apply Forall_omap. intros [a cnt] y. case_decide; [|done]. by intros [= <-].
Qed.

Lemma wrong_vlan_issues_type parsed :
  Forall (λ i, type_of i = T_wrong_vlan_label) (wrong_vlan_issues parsed).
Proof.
  apply Forall_flat_map_intro. intros [n d]. case_decide; [|constructor].
  apply Forall_omap. intros intf y. destruct (vlan intf); [|done].
  destruct (_ && _); [|done]. by intros [= <-].
Qed.

Lemma gateway_issues_type parsed :
  Forall (λ i, type_of i = T_gateway_mismatch) (gateway_issues parsed).
Proof.
  apply Forall_omap. intros [n d] y. destruct (default_gateway d); [|done].
  destruct (_ && _); [|done]. by intros [= <-].
Qed.

Lemma mtu_issues_type G :
  Forall (λ i, type_of i = T_mtu_mismatch) (mtu_issues G).
Proof.
  apply Forall_flat_map_intro. intros [[u v] ed].
  apply Forall_omap. intros [ma mb] y. case_decide; [|done]. by intros [= <-].
Qed.

Lemma loop_issues_type cycles :
  Forall (λ i, type_of i = T_network_loops) (loop_issues cycles).
Proof. destruct cycles; repeat constructor. Qed.

Lemma bgp_issues_type parsed :
  Forall (λ i, type_of i = T_bgp_recommended) (bgp_issues parsed).
Proof. unfold bgp_issues. case_decide; repeat constructor. Qed.

Lemma of_type_app t l1 l2 : of_type t (l1 ++ l2) = of_type t l1 ++ of_type t l2.
Proof. apply filter_app. Qed.

(** The output of [detect_issues], split by type. *)
Lemma detect_issues_by_type parsed G issues :
  detect_issues parsed G = Some issues →
  ∃ cycles, cycle_basis G = Some cycles
  ∧ of_type T_duplicate_ip issues = duplicate_ip_issues parsed
  ∧ of_type T_mtu_mismatch issues = mtu_issues G
  ∧ of_type T_network_loops issues = loop_issues cycles
  ∧ of_type T_bgp_recommended issues = bgp_issues parsed.
Proof.
  unfold detect_issues. destruct (cycle_basis G) as [cycles|]; [|done].
  simpl. intros [= <-]. exists cycles. split; [done|].
  pose proof (duplicate_ip_issues_type parsed) as H1.
  pose proof (wrong_vlan_issues_type parsed) as H2.
  pose proof (gateway_issues_type parsed) as H3.
  pose proof (mtu_issues_type G) as H4.
  pose proof (loop_issues_type cycles) as H5.
  pose proof (bgp_issues_type parsed) as H6.
  rewrite !of_type_app.
  rewrite !(of_type_Forall _ _ _ H1), !(of_type_Forall _ _ _ H2),
    !(of_type_Forall _ _ _ H3), !(of_type_Forall _ _ _ H4),
    !(of_type_Forall _ _ _ H5), !(of_type_Forall _ _ _ H6).
  repeat match goal with
         | |- context [decide (?a = ?b)] =>
             first [ rewrite (decide_True (P := a = b)) by done
                   | rewrite (decide_False (P := a = b)) by done ]
         end.
  by rewrite ?app_nil_r.
Qed.

(** *** duplicate_ip *)

Lemma where_used_app uses1 uses2 a :
  where_used (uses1 ++ uses2) a = where_used uses1 a ++ where_used uses2 a.
Proof. apply omap_app. Qed.

Lemma where_used_device n d a :
  where_used (ip_uses n d) a
  = omap (λ intf, if decide (ip intf = Some a ∧ a ≠ ""%string)
                  then Some n else None) (interfaces d).
Proof.
  unfold ip_uses, where_used.
  induction (interfaces d) as [|intf ifs IH]; [done|].
  cbn [omap list_omap]. destruct (ip intf) as [s|] eqn:E; simpl.
  - destruct (decide (s = ""%string)) as [->|Hs].
    + rewrite bool_decide_false by (by intros ?).
      rewrite decide_False by (intros [[= <-] ?]; done). exact IH.
    + rewrite bool_decide_true by done. cbn [omap list_omap].
      destruct (decide (s = a)) as [->|Hsa].
      * rewrite decide_True by done. by f_equal.
      * rewrite decide_False by (intros [[= ?] ?]; done). exact IH.
  - exact IH.
Qed.

Lemma where_used_owners parsed a :
  where_used (all_ips parsed) a = ip_owners parsed a.
Proof.
  unfold all_ips, ip_owners.
  induction parsed as [|[n d] parsed IH]; [done|].
  simpl. by rewrite where_used_app, where_used_device, IH.
Qed.

Lemma where_used_length uses a :
  Z.of_nat (length (where_used uses a)) = occurrences a (uses.*2).
Proof.
  unfold occurrences. f_equal.
  induction uses as [|[[n v] b] uses IH]; [done|].
  cbn [where_used omap list_omap fmap list_fmap snd].
  rewrite filter_cons. destruct (decide (b = a)); simpl; by rewrite <- IH.
Qed.

Lemma where_used_nonempty uses a :
  a ∈ uses.*2 → where_used uses a ≠ [].
Proof.
  induction uses as [|[[n v] b] uses IH]; [by intros ?%elem_of_nil|].
  cbn [where_used omap list_omap fmap list_fmap snd].
  intros [->|Hin]%elem_of_cons.
  - by rewrite decide_True.
  - destruct (decide (b = a)); [done|]. by apply IH.
Qed.

(** A duplicate_ip issue is emitted for [a] exactly when two or more
    interfaces carry the address, and it lists the device of each. *)
Lemma duplicate_ip_issues_elem parsed a w :
  duplicate_ip a w ∈ duplicate_ip_issues parsed
  ↔ (2 ≤ length (ip_owners parsed a))%nat ∧ w = ip_owners parsed a.
Proof.
  unfold duplicate_ip_issues. rewrite list_elem_of_omap. split.
  - intros ([b cnt] & Hin & Hf). case_decide as Hcnt; [|done].
    injection Hf as Hb Hw. subst b w. apply Counter_elem in Hin as [_ ->].
    rewrite <- where_used_length, where_used_owners in Hcnt.
    rewrite where_used_owners. split; [lia|done].
  - intros [Hlen ->].
    exists (a, occurrences a (all_ips parsed).*2). split.
    + apply Counter_elem. split; [|done].
      destruct (decide (a ∈ (all_ips parsed).*2)) as [|Hn]; [done|].
      exfalso. rewrite <- where_used_owners in Hlen.
      assert (Hz : occurrences a (all_ips parsed).*2 = 0).
      { unfold occurrences. rewrite filter_none; [done|].
        intros x Hx ->. done. }
      rewrite <- where_used_length in Hz. lia.
    + rewrite <- where_used_length, where_used_owners.
      by rewrite decide_True by lia.
Qed.

Lemma omap_filter_NoDup_keys (c : list (string * Z))
    (f : string * Z → option Issue) a :
  NoDup c.*1 →
  (∀ k n i, f (k, n) = Some i → is_duplicate_ip_for a i → k = a) →
  (length (filter (is_duplicate_ip_for a) (omap f c)) ≤ 1)%nat.
Proof.
  intros Hnd Hf. induction c as [|[k n] c IH]; [simpl; lia|].
  apply NoDup_cons in Hnd as [Hk Hnd]. specialize (IH Hnd).
  cbn [omap list_omap].
  destruct (f (k, n)) as [i|] eqn:E; [|exact IH].
  rewrite filter_cons. case_decide as Hi; [|exact IH].
  assert (k = a) as -> by eauto.
  assert (Hnil : filter (is_duplicate_ip_for a) (omap f c) = []).
  { apply filter_none. intros j Hj Hja.
    apply list_elem_of_omap in Hj as ([k' n'] & Hin & Hfk).
    assert (k' = a) as -> by eauto.
    apply Hk. apply list_elem_of_fmap. by exists (a, n'). }
  rewrite Hnil. simpl. lia.
Qed.

(** At most one duplicate_ip issue per address. *)
Lemma duplicate_ip_issues_once parsed a :
  (length (filter (is_duplicate_ip_for a) (duplicate_ip_issues parsed)) ≤ 1)%nat.
Proof.
  apply omap_filter_NoDup_keys; [apply Counter_keys_NoDup|].
  intros k n i. case_decide; [|done]. by intros [= <-].
Qed.

(** *** bgp_recommended *)

Lemma asns_elem parsed z : z ∈ asns parsed ↔ nonzero_asn parsed z.
Proof.
  unfold asns, nonzero_asn. rewrite list_elem_of_omap. split.
  - intros ([n d] & Hin & Hf). destruct (asn d) as [z'|] eqn:E; [|done].
    simpl in Hf. case_bool_decide; [|done]. injection Hf as ->. eauto.
  - intros (Hz & n & d & Hin & Hasn). exists (n, d). split; [done|].
    rewrite Hasn. simpl. by rewrite bool_decide_true.
Qed.

Lemma two_distinct_length (l : list Z) :
  (1 < length (remove_dups l))%nat ↔ ∃ x y, x ∈ l ∧ y ∈ l ∧ x ≠ y.
Proof.
  split.
  - intros Hlen.
    destruct (remove_dups l) as [|x [|y r]] eqn:E; simpl in Hlen; try lia.
    pose proof (NoDup_remove_dups l) as Hnd. rewrite E in Hnd.
    exists x, y. rewrite <- !(elem_of_remove_dups l), E.
    split; [left|]. split; [right; left|].
    apply NoDup_cons in Hnd as [Hx _]. intros ->. apply Hx. left.
  - intros (x & y & Hx & Hy & Hne).
    rewrite <- (elem_of_remove_dups l) in Hx, Hy.
    destruct (remove_dups l) as [|a [|b r]]; simpl; [| |lia].
    + by apply elem_of_nil in Hx.
    + apply list_elem_of_singleton in Hx, Hy. congruence.
Qed.

Lemma bgp_issues_several parsed :
  several_asns parsed →
  bgp_issues parsed = [bgp_recommended "Multiple autonomous systems detected"].
Proof.
  intros (x & y & Hx & Hy & Hne). unfold bgp_issues.
  rewrite decide_True; [done|]. apply two_distinct_length.
  exists x, y. by rewrite !asns_elem.
Qed.

Lemma bgp_issues_single parsed :
  ¬ several_asns parsed → bgp_issues parsed = [].
Proof.
  intros Hn. unfold bgp_issues. rewrite decide_False; [done|].
  intros (x & y & Hx & Hy & Hne)%two_distinct_length.
  apply Hn. exists x, y. by rewrite <- !asns_elem.
Qed.

(** *** mtu_mismatch *)

Lemma resolve_mtu_side parsed a ai :
  resolve_mtu (interfaces_of parsed a) ai = side_mtu parsed a ai.
Proof.
  unfold side_mtu. induction (interfaces_of parsed a) as [|x ifs IH]; [done|].
  simpl. rewrite filter_cons. by case_decide.
Qed.

Lemma flat_map_ext_in {A B} (f g : A → list B) (l : list A) :
  (∀ x, x ∈ l → f x = g x) → flat_map f l = flat_map g l.
Proof.
  induction l as [|x l IH]; intros H; simpl; [done|].
  rewrite H by left. f_equal. apply IH. intros y Hy. apply H. by right.
Qed.

Lemma mtu_issues_of_annotated parsed u v ed :
  mtu_issues_of_edge (u, v, annotate_edge parsed ed)
  = flat_map (link_mtu_issue parsed u v) (links ed).
Proof.
  unfold mtu_issues_of_edge. simpl.
  induction (links ed) as [|[[[a ai] b] bi] ls IH]; [done|].
  cbn [fmap list_fmap omap list_omap flat_map link_mtus link_mtu_issue].
  rewrite !resolve_mtu_side.
  destruct (decide (side_mtu parsed a ai = side_mtu parsed b bi)) as [E|E].
  - rewrite decide_False by (by intros ?). simpl. exact IH.
  - rewrite decide_True by done. simpl. f_equal. exact IH.
Qed.

(** The mtu_mismatch issues of the built graph, link by link. *)
Lemma mtu_issues_build parsed :
  mtu_issues (build_topology parsed)
  = flat_map (λ '(u, v, ed), flat_map (link_mtu_issue parsed u v) (links ed))
             (edges (build_topology parsed)).
Proof.
  unfold mtu_issues. apply flat_map_ext_in. intros [[u v] ed] Hin.
  rewrite (edges_build_annotated _ _ _ _ Hin) at 1.
  apply mtu_issues_of_annotated.
Qed.

(** ** Cycles and the correctness of [cycle_basis] *)

Lemma neighbors_sym G x y : y ∈ neighbors G x → x ∈ neighbors G y.
Proof.
  unfold neighbors, adj. rewrite !list_elem_of_fmap.
  intros ([y' d] & -> & Hin). apply list_elem_of_omap in Hin
    as ([[u v] d'] & Hin & Hf).
  exists (x, d'). split; [done|]. apply list_elem_of_omap.
  exists ((u, v), d'). split; [done|]. simpl in *.
  repeat case_decide; simplify_eq; done.
Qed.

Lemma ancestors_fun pred root x l1 l2 :
  ancestors pred root x l1 → ancestors pred root x l2 → l1 = l2.
Proof.
  intros H1. revert l2. induction H1 as [|x p l Hx Hp _ IH]; intros l2 H2.
  - by inversion H2.
  - inversion H2; subst; [done|]. simplify_eq. f_equal. by apply IH.
Qed.

Lemma ancestors_insert pred root x l k v :
  pred !! k = None → pred !! root = Some root →
  ancestors pred root x l → ancestors (<[k := v]> pred) root x l.
Proof.
  intros Hk Hroot. induction 1 as [|x p l Hx Hp _ IH]; [constructor|].
  constructor; [done| |done].
  rewrite lookup_insert_ne; [done|]. intros ->. congruence.
Qed.

Lemma ancestors_new pred root z lz k :
  pred !! k = None → pred !! root = Some root →
  ancestors pred root z lz →
  ancestors (<[k := z]> pred) root k (z :: lz).
Proof.
  intros Hk Hroot Hz. constructor.
  - intros ->. congruence.
  - by rewrite lookup_insert_eq.
  - by apply ancestors_insert.
Qed.

(** The parent chain is linked in the graph when every parent is adjacent
    to its child. *)
Lemma ancestors_linked G pred root x l :
  (∀ y p, y ≠ root → pred !! y = Some p → p ∈ neighbors G y) →
  ancestors pred root x l → linked G (x :: l).
Proof.
  intros Hadj. induction 1 as [|x p l Hx Hp Hanc IH]; [done|].
  split; [by eapply Hadj|done].
Qed.

Lemma ancestors_tail pred root x p l :
  ancestors pred root x (p :: l) →
  x ≠ root ∧ pred !! x = Some p ∧ ancestors pred root p l.
Proof. by inversion 1. Qed.

Lemma climb_spec fuel pred root pn p l q :
  ancestors pred root p l → q ∈ p :: l → q ∈ pn → (length l ≤ fuel)%nat →
  ∃ tl rest q', climb fuel pred pn p = Some tl ∧ p :: l = tl ++ rest
                ∧ last tl = Some q' ∧ q' ∈ pn.
Proof.
  intros Hanc. revert fuel.
  induction Hanc as [|x p l Hx Hp Hanc IH]; intros fuel Hq Hpn Hlen.
  - apply list_elem_of_singleton in Hq as ->.
    exists [root], [], root. destruct fuel; simpl; by rewrite decide_True.
  - destruct (decide (x ∈ pn)) as [Hxin|Hxn].
    + exists [x], (p :: l), x. destruct fuel; simpl; by rewrite decide_True.
    + apply elem_of_cons in Hq as [->|Hq]; [done|].
      destruct fuel as [|fuel]; [simpl in Hlen; lia|].
      destruct (IH fuel Hq Hpn) as (tl & rest & q' & Hc & Heq & Hlast & Hq');
        [simpl in Hlen; lia|].
      exists (x :: tl), rest, q'. simpl. rewrite decide_False by done.
      rewrite Hp. simpl. rewrite Hc. simpl. split; [done|].
      split; [by rewrite Heq|]. split; [|done].
      destruct tl; [done|]. done.
Qed.

Lemma linked_lookup G l i x y :
  linked G l → l !! i = Some x → l !! S i = Some y → y ∈ neighbors G x.
Proof.
  revert i. induction l as [|a [|b l] IH]; intros i Hl Hx Hy; try done.
  destruct Hl as [Hab Hl]. destruct i as [|i]; simpl in *.
  - by simplify_eq.
  - by eapply IH.
Qed.

Lemma linked_app_l G l1 l2 : linked G (l1 ++ l2) → linked G l1.
Proof.
  induction l1 as [|a [|b l1] IH]; intros H; try done.
  destruct H as [Hab H]. split; [done|]. by apply IH.
Qed.

Lemma linked_cons G x l :
  linked G l → (∀ y, head l = Some y → y ∈ neighbors G x) → linked G (x :: l).
Proof. destruct l as [|y l]; [done|]. intros Hl Hy. split; [by apply Hy|done]. Qed.

(** A closed path of three or more distinct nodes is a cycle. *)
Lemma is_cycle_of_linked G c a z :
  (3 ≤ length c)%nat → NoDup c → linked G c →
  head c = Some a → last c = Some z → a ∈ neighbors G z →
  is_cycle G c.
Proof.
  intros Hlen Hnd Hl Ha Hz Hza. right. split; [done|]. split; [done|].
  intros i x y Hx Hy.
  assert (Hi : (i < length c)%nat) by (by eapply lookup_lt_Some).
  destruct (decide (S i = length c)) as [E|E].
  - replace ((i + 1) mod length c)%nat with 0%nat in Hy.
    2:{ replace (i + 1)%nat with (length c) by lia.
        by rewrite Nat.Div0.mod_same. }
    rewrite last_lookup in Hz. replace (pred (length c)) with i in Hz by lia.
    rewrite <- head_lookup in Hy. by simplify_eq.
  - rewrite Nat.mod_small in Hy by lia.
    replace (i + 1)%nat with (S i) in Hy by lia. by eapply linked_lookup.
Qed.

Lemma done_upto_snoc G P z seen nbr x y :
  done_upto G P z (seen ++ [nbr]) x y
  ↔ done_upto G P z seen x y ∨ (x = z ∧ y = nbr).
Proof.
  unfold done_upto. rewrite elem_of_app, list_elem_of_singleton. tauto.
Qed.

Lemma stack_ok_insert pred root stack k v :
  pred !! k = None → pred !! root = Some root →
  stack_ok pred root stack → stack_ok (<[k := v]> pred) root stack.
Proof.
  intros Hk Hroot. induction stack as [|s rest IH]; [done|].
  intros [Htop Hrest]. split; [|by apply IH].
  intros t Ht. destruct (Htop t Ht) as (p & l & Hp & Hanc & Hin).
  exists p, l. split; [|split; [by apply ancestors_insert|done]].
  rewrite lookup_insert_ne; [done|]. intros ->. congruence.
Qed.

Section Visit.
Variable G : Graph.
Hypothesis HG : graph_ok G.
Variable root : string.
Variable F : gset string.
Hypothesis HF : ∀ x y, x ∈ F → y ∈ neighbors G x → y ∈ F.

Variables (P : gset string) (z : string) (zused : gset string)
          (lz seen : list string) (nbr : string) (st : walk).
Hypothesis Hinv : mid_inv G root F P z zused lz seen st.
Hypothesis Hnbr : nbr ∈ neighbors G z.
Hypothesis Hnew : nbr ∉ seen.

Local Abbreviation dn := (done_upto G P z seen).
Local Abbreviation dn' := (done_upto G P z (seen ++ [nbr])).

Lemma dn_mono x y : dn x y → dn' x y.
Proof. intros H. apply done_upto_snoc. by left. Qed.

Lemma dn'_new : dn' z nbr.
Proof. apply done_upto_snoc. by right. Qed.

Lemma dn'_inv x y : dn' x y → dn x y ∨ (x = z ∧ y = nbr).
Proof. by intros ?%done_upto_snoc. Qed.

Lemma dn'_adj x y : dn' x y → x ∈ P ∧ y ∈ neighbors G x.
Proof.
  intros [H|[-> ->]]%dn'_inv.
  - by apply (c_dn _ _ _ _ _ _ (m_core _ _ _ _ _ _ _ _ _ Hinv)).
  - split; [apply (m_z _ _ _ _ _ _ _ _ _ Hinv)|done].
Qed.

Lemma z_used : is_Some (w_used st !! z).
Proof. rewrite (m_zused _ _ _ _ _ _ _ _ _ Hinv). eauto. Qed.

Lemma lz_in_P y : y ∈ lz → y ∈ P.
Proof.
  intros Hy. destruct Hinv as [Hc _ _ _ _ Hlz _ _].
  destruct (c_anc _ _ _ _ _ _ Hc z) as (l & Hl & _ & HP).
  - apply (c_dom _ _ _ _ _ _ Hc), z_used.
  - rewrite (ancestors_fun _ _ _ _ _ Hlz Hl) in Hy. by apply HP.
Qed.

Lemma lz_nodup : NoDup (z :: lz).
Proof.
  destruct Hinv as [Hc _ _ _ _ Hlz _ _].
  destruct (c_anc _ _ _ _ _ _ Hc z) as (l & Hl & Hnd & _).
  - apply (c_dom _ _ _ _ _ _ Hc), z_used.
  - by rewrite (ancestors_fun _ _ _ _ _ Hlz Hl).
Qed.

(** First branch: [nbr] is new; it is pushed with parent [z]. *)
Lemma visit_new :
  w_used st !! nbr = None →
  mid_inv G root F P z zused lz (seen ++ [nbr])
    (mkWalk (nbr :: w_stack st) (<[nbr := z]> (w_pred st))
            (<[nbr := {[z]}]> (w_used st)) (w_cycles st)).
Proof.
  intros Hnone.
  pose proof z_used as Hzu. pose proof lz_in_P as HlzP.
  pose proof lz_nodup as Hlznd.
  destruct Hinv as [Hc Hst Hz Hroot Hzused Hlz Htop Hseen].
  destruct Hc as [Hdom Hused Hnd Hdisj Hrt Hanc Hpar Hin Hdn Hdone Hns HFd
                    Hcyc Htree].
  assert (Hpnone : w_pred st !! nbr = None).
  { apply eq_None_not_Some. rewrite Hdom. by rewrite Hnone; intros []. }
  assert (HnP : nbr ∉ P).
  { intros H. assert (is_Some (w_used st !! nbr)) as [? ?] by (apply Hused; auto).
    congruence. }
  assert (Hnst : nbr ∉ w_stack st).
  { intros H. assert (is_Some (w_used st !! nbr)) as [? ?] by (apply Hused; auto).
    congruence. }
  assert (Hnz : nbr ≠ z) by (intros ->; done).
  assert (Hnroot : nbr ≠ root) by (intros ->; done).
  split; [split|..]; simpl.
  - intros x. rewrite !lookup_insert_is_Some. by rewrite Hdom.
  - intros x. rewrite lookup_insert_is_Some, Hused, elem_of_cons.
    destruct (decide (nbr = x)); naive_solver.
  - by apply NoDup_cons.
  - intros x [->|Hx]%elem_of_cons; auto.
  - by rewrite lookup_insert_ne.
  - intros x [->|[Hne Hx]]%lookup_insert_is_Some.
    + exists (z :: lz). split; [by apply ancestors_new|]. split.
      * apply NoDup_cons. split; [|done].
        intros [->|Hl]%elem_of_cons; [done|]. by apply HnP, HlzP.
      * intros y [->|Hy]%elem_of_cons; auto.
    + destruct (Hanc x Hx) as (l & Hl & Hlnd & HlP).
      exists l. split; [by apply ancestors_insert|done].
  - intros x p Hx. destruct (decide (nbr = x)) as [<-|Hne].
    + rewrite !lookup_insert_eq. intros [= <-]. exists {[z]}.
      split; [done|]. set_solver.
    + rewrite !lookup_insert_ne by done. by apply Hpar.
  - intros x s y. destruct (decide (nbr = x)) as [<-|Hne].
    + rewrite lookup_insert_eq. intros [= <-] ->%elem_of_singleton.
      split; [apply dn'_new|done].
    + rewrite lookup_insert_ne by done. intros Hs Hy.
      destruct (Hin x s y Hs Hy). split; [by apply dn_mono|done].
  - apply dn'_adj.
  - intros x y [Hxy|[-> ->]]%dn'_inv.
    + destruct (Hdone x y Hxy) as [->|[(s & Hs & Hxs)|(s & Hs & Hys)]];
        [by left|right; left|right; right]; exists s;
        (split; [|done]); rewrite lookup_insert_ne; congruence.
    + right. left. exists {[z]}. rewrite lookup_insert_eq.
      split; [done|]. set_solver.
  - intros x [->|[Hne Hx]]%lookup_insert_is_Some; [|by apply Hns].
    eapply (ok_closed G HG), neighbors_sym, Hnbr.
  - intros x [->|[Hne Hx]]%lookup_insert_is_Some; [|by apply HFd].
    intros HnF. apply (HFd z Hzu). eapply HF; [done|].
    by apply neighbors_sym.
  - done.
  - intros Hnil. destruct (Htree Hnil) as [Ht1 Ht2]. split.
    + intros x y [Hxy|[-> ->]]%dn'_inv; [by apply Ht1|done].
    + intros x s y. destruct (decide (nbr = x)) as [<-|Hne].
      * rewrite !lookup_insert_eq. intros [= <-] ->%elem_of_singleton. done.
      * rewrite !lookup_insert_ne by done. apply Ht2.
  - split.
    + intros t Ht. destruct (Htop t Ht) as (p & Hp & Hpin).
      exists p, (z :: lz). split; [|split; [by apply ancestors_new|done]].
      rewrite lookup_insert_ne; [done|]. intros ->. done.
    + by apply stack_ok_insert.
  - done.
  - done.
  - by rewrite lookup_insert_ne.
  - by apply ancestors_insert.
  - intros t [->|Ht]%elem_of_cons.
    + exists z. rewrite lookup_insert_eq. split; [done|left].
    + destruct (Htop t Ht) as (p & Hp & Hpin). exists p. split; [|done].
      rewrite lookup_insert_ne; [done|]. intros ->. done.
  - intros y [Hy| ->%list_elem_of_singleton]%elem_of_app; auto.
Qed.

(** The state is unchanged but for [cycles]; the new pair [(z, nbr)] is
    accounted for by [Hpair]. *)
Lemma visit_same cycles' :
  (nbr = z ∨ nbr ∈ zused) →
  Forall (is_cycle G) cycles' →
  (cycles' = [] → w_cycles st = [] ∧ nbr ≠ z) →
  mid_inv G root F P z zused lz (seen ++ [nbr])
    (mkWalk (w_stack st) (w_pred st) (w_used st) cycles').
Proof.
  intros Hpair Hcyc' Hnil.
  destruct Hinv as [Hc Hst Hz Hroot Hzused Hlz Htop Hseen].
  destruct Hc as [Hdom Hused Hnd Hdisj Hrt Hanc Hpar Hin Hdn Hdone Hns HFd
                    Hcyc Htree].
  split; [split|..]; simpl; try done.
  - intros x s y Hs Hy. destruct (Hin x s y Hs Hy).
    split; [by apply dn_mono|done].
  - apply dn'_adj.
  - intros x y [Hxy|[-> ->]]%dn'_inv; [by apply Hdone|].
    destruct Hpair as [->|Hzu]; [by left|].
    right. right. by exists zused.
  - intros Hn. destruct (Hnil Hn) as [Hn' Hne].
    destruct (Htree Hn') as [Ht1 Ht2]. split; [|done].
    intros x y [Hxy|[-> ->]]%dn'_inv; [by apply Ht1|done].
  - intros y [Hy| ->%list_elem_of_singleton]%elem_of_app; auto.
Qed.

Lemma ancestors_cons_inv pred x l q :
  ancestors pred root x l → q ∈ l →
  ∃ p l', l = p :: l' ∧ x ≠ root ∧ pred !! x = Some p
          ∧ ancestors pred root p l'.
Proof.
  intros H Hq. destruct H as [|x p l' Hx Hp Hanc].
  - by apply elem_of_nil in Hq.
  - by exists p, l'.
Qed.

(** Parents are adjacent to their children. *)
Lemma parent_adjacent y p :
  y ≠ root → w_pred st !! y = Some p → p ∈ neighbors G y.
Proof.
  intros Hy Hp. destruct Hinv as [Hc _ _ _ _ _ _ _].
  destruct (c_par _ _ _ _ _ _ Hc y p Hy Hp) as (s & Hs & Hps).
  destruct (c_in _ _ _ _ _ _ Hc y s p Hs Hps) as [Hd _].
  apply neighbors_sym. by apply (c_dn _ _ _ _ _ _ Hc).
Qed.

(** Third branch: [nbr] is known, is not [z] and has not registered [z]:
    the climb from the parent of [z] ends, and closes a cycle. *)
Lemma visit_cycle fuel pn :
  w_used st !! nbr = Some pn → nbr ≠ z → nbr ∉ zused →
  (length (nodes G) ≤ fuel)%nat →
  ∃ p tl, w_pred st !! z = Some p
    ∧ climb fuel (w_pred st) pn p = Some tl
    ∧ mid_inv G root F P z zused lz (seen ++ [nbr])
        (mkWalk (w_stack st) (w_pred st)
                (<[nbr := pn ∪ {[z]}]> (w_used st))
                (w_cycles st ++ [nbr :: z :: tl])).
Proof.
  intros Hpn Hnz Hnzu Hfuel.
  pose proof z_used as Hzu. pose proof lz_in_P as HlzP.
  pose proof lz_nodup as Hlznd. pose proof parent_adjacent as Hpadj.
  destruct Hinv as [Hc Hst Hz Hroot Hzused Hlz Htop Hseen].
  destruct Hc as [Hdom Hused Hnd Hdisj Hrt Hanc Hpar Hin Hdn Hdone Hns HFd
                    Hcyc Htree].
  (* [nbr] is still on the stack *)
  assert (Hstack : nbr ∈ w_stack st).
  { destruct (proj1 (Hused nbr)) as [HP|]; [by eauto| |done].
    exfalso.
    assert (Hd : dn nbr z).
    { left. split; [done|]. split; [done|]. by apply neighbors_sym. }
    destruct (Hdone nbr z Hd) as [->|[(s & Hs & Hxs)|(s & Hs & Hys)]].
    - done.
    - rewrite Hzused in Hs. by simplify_eq.
    - rewrite Hpn in Hs. simplify_eq.
      destruct (Hin nbr s z Hpn Hys) as [[(_ & Hzz & _)|[_ Hsn]] _]; done. }
  assert (HnP : nbr ∉ P) by (by apply Hdisj).
  assert (Hnroot : nbr ≠ root) by (intros ->; done).
  destruct (Htop nbr Hstack) as (q & Hq & Hqin).
  destruct (Hpar nbr q Hnroot Hq) as (s & Hs & Hqs).
  rewrite Hpn in Hs. injection Hs as <-.
  assert (Hqlz : q ∈ lz).
  { apply elem_of_cons in Hqin as [->|]; [|done]. exfalso.
    destruct (Hin nbr pn z Hpn Hqs) as [[(_ & Hzz & _)|[_ Hsn]] _]; done. }
  destruct (ancestors_cons_inv _ _ _ _ Hlz Hqlz)
    as (p & lz' & Elz & Hzroot & Hzp & Hanc').
  rewrite Elz in Hqlz, HlzP, Hlznd, Hlz.
  assert (Hlen : (length lz' ≤ fuel)%nat).
  { etrans; [|exact Hfuel].
    assert (Hsub : lz' ⊆+ nodes G).
    { apply NoDup_submseteq.
      - apply NoDup_cons in Hlznd as [_ Hnd2].
        by apply NoDup_cons in Hnd2 as [_ ?].
      - intros x Hx. apply Hns, Hused. left. apply HlzP. by right. }
    by apply submseteq_length. }
  destruct (climb_spec fuel _ _ pn p lz' q Hanc' Hqlz Hqs Hlen)
    as (tl & rest & q' & Hclimb & Heq & Hlast & Hq').
  exists p, tl. split; [done|]. split; [done|].
  assert (Hcycle : is_cycle G (nbr :: z :: tl)).
  { assert (Htl : tl ≠ []) by (by intros ->).
    assert (Hlink : linked G (z :: tl)).
    { apply (linked_app_l G (z :: tl) rest).
      rewrite <- app_comm_cons, <- Heq.
      eapply ancestors_linked; [|exact Hlz]. exact Hpadj. }
    apply (is_cycle_of_linked G _ nbr q').
    - destruct tl; [done|simpl; lia].
    - apply NoDup_cons. split.
      + intros [->|Hx]%elem_of_cons; [done|]. apply HnP, HlzP.
        rewrite Heq. apply elem_of_app. by left.
      + rewrite Heq in Hlznd. rewrite app_comm_cons in Hlznd.
        by apply NoDup_app in Hlznd as [? _].
    - split; [by apply neighbors_sym|done].
    - done.
    - destruct tl as [|t tl']; [done|]. exact Hlast.
    - by apply (Hdn q' nbr), (Hin nbr pn q' Hpn Hq'). }
  split; [split|..]; simpl; try done.
  - intros x. rewrite Hdom, lookup_insert_is_Some.
    destruct (decide (nbr = x)) as [<-|]; naive_solver.
  - intros x. rewrite <- Hused, lookup_insert_is_Some.
    destruct (decide (nbr = x)) as [<-|]; naive_solver.
  - intros x p' Hx Hp'. destruct (decide (nbr = x)) as [<-|Hne].
    + rewrite lookup_insert_eq. exists (pn ∪ {[z]}). split; [done|].
      assert (p' = q) as -> by congruence. set_solver.
    + rewrite lookup_insert_ne by done. by apply Hpar.
  - intros x s y. destruct (decide (nbr = x)) as [<-|Hne].
    + rewrite lookup_insert_eq. intros [= <-] [Hy| ->%elem_of_singleton]%elem_of_union.
      * destruct (Hin nbr pn y Hpn Hy). split; [by apply dn_mono|done].
      * split; [apply dn'_new|done].
    + rewrite lookup_insert_ne by done. intros Hs Hy.
      destruct (Hin x s y Hs Hy). split; [by apply dn_mono|done].
  - apply dn'_adj.
  - intros x y [Hxy|[-> ->]]%dn'_inv.
    + destruct (Hdone x y Hxy) as [->|[(s & Hs & Hxs)|(s & Hs & Hys)]];
        [by left|right; left|right; right].
      * destruct (decide (nbr = y)) as [<-|Hne].
        -- exists (pn ∪ {[z]}). rewrite lookup_insert_eq. split; [done|].
           rewrite Hpn in Hs. simplify_eq. set_solver.
        -- exists s. by rewrite lookup_insert_ne.
      * destruct (decide (nbr = x)) as [<-|Hne].
        -- exists (pn ∪ {[z]}). rewrite lookup_insert_eq. split; [done|].
           rewrite Hpn in Hs. simplify_eq. set_solver.
        -- exists s. by rewrite lookup_insert_ne.
    + right. left. exists (pn ∪ {[z]}). rewrite lookup_insert_eq.
      split; [done|]. set_solver.
  - intros x Hx. apply Hns. apply lookup_insert_is_Some in Hx
      as [<-|[_ Hx]]; [eauto|done].
  - intros x Hx. apply HFd. apply lookup_insert_is_Some in Hx
      as [<-|[_ Hx]]; [eauto|done].
  - apply Forall_app. split; [done|]. by constructor.
  - intros Hn. by apply app_nil in Hn as [_ ?].
  - by rewrite lookup_insert_ne.
  - by rewrite Elz.
  - intros y [Hy| ->%list_elem_of_singleton]%elem_of_app; auto.
Qed.
End Visit.

(** Every iteration of the [for] loop returns and keeps the invariant. *)
Lemma visit_ok G root F P z zused lz seen st nbr fuel :
  graph_ok G → (∀ x y, x ∈ F → y ∈ neighbors G x → y ∈ F) →
  mid_inv G root F P z zused lz seen st →
  nbr ∈ neighbors G z → nbr ∉ seen → (length (nodes G) ≤ fuel)%nat →
  ∃ st', visit fuel z zused st nbr = Some st'
         ∧ mid_inv G root F P z zused lz (seen ++ [nbr]) st'.
Proof.
  intros HG HF Hinv Hnbr Hnew Hfuel. unfold visit.
  destruct (w_used st !! nbr) as [pn|] eqn:Hpn.
  - destruct (decide (nbr = z)) as [Hz|Hz].
    + eexists. split; [done|]. subst nbr.
      apply (visit_same G root F P z zused lz seen z st Hinv Hnbr Hnew);
        [by left| |].
      * apply Forall_app. split; [apply Hinv|].
        constructor; [|constructor]. left. by exists z.
      * by intros [_ ?]%app_nil.
    + destruct (decide (nbr ∈ zused)) as [Hzu|Hzu].
      * eexists. split; [done|]. destruct st as [stk prd usd cyc].
        apply (visit_same G root F P z zused lz seen nbr _ Hinv Hnbr Hnew);
          [by right|apply Hinv|done].
      * destruct (visit_cycle G HG root F HF P z zused lz seen nbr st Hinv
                    Hnbr Hnew fuel pn Hpn Hz Hzu Hfuel)
          as (p & tl & Hp & Hc & Hi).
        rewrite Hp. simpl. rewrite Hc. simpl. eauto.
  - eexists. split; [done|]. by apply visit_new.
Qed.

Lemma for_each_visit_ok G root F P z zused lz fuel todo :
  graph_ok G → (∀ x y, x ∈ F → y ∈ neighbors G x → y ∈ F) →
  (length (nodes G) ≤ fuel)%nat →
  ∀ seen st,
    neighbors G z = seen ++ todo →
    mid_inv G root F P z zused lz seen st →
    ∃ st', for_each (visit fuel z zused) st todo = Some st'
           ∧ mid_inv G root F P z zused lz (neighbors G z) st'.
Proof.
  intros HG HF Hfuel. induction todo as [|nbr todo IH]; intros seen st Hnb Hinv.
  - rewrite app_nil_r in Hnb. rewrite Hnb. simpl. eauto.
  - pose proof (ok_nodup G HG z) as Hnd. rewrite Hnb in Hnd.
    apply NoDup_app in Hnd as (_ & Hdisj & _).
    destruct (visit_ok G root F P z zused lz seen st nbr fuel HG HF Hinv)
      as (st1 & Hv & Hinv1); [| |done|].
    + rewrite Hnb. apply elem_of_app. right. left.
    + intros Hin. apply (Hdisj nbr Hin). left.
    + simpl. rewrite Hv. simpl. apply (IH (seen ++ [nbr])); [|done].
      by rewrite Hnb, <- app_assoc.
Qed.

(** Popping [z] starts its [for] loop. *)
Lemma pop_mid G root F P st z rest :
  head_inv G root F P st → w_stack st = z :: rest →
  ∃ zused lz,
    w_used st !! z = Some zused
    ∧ mid_inv G root F (P ∪ {[z]}) z zused lz []
        (mkWalk rest (w_pred st) (w_used st) (w_cycles st)).
Proof.
  intros [Hc Hst Hrt] Hstk.
  destruct Hc as [Hdom Hused Hnd Hdisj Hroot Hanc Hpar Hin Hdn Hdone Hns HFd
                    Hcyc Htree].
  rewrite Hstk in *.
  assert (HzP : z ∉ P) by (apply Hdisj; left).
  assert (Hzu : is_Some (w_used st !! z)) by (apply Hused; right; left).
  destruct Hzu as [zused Hzused].
  destruct (Hanc z) as (lz & Hlz & Hlznd & HlzP); [apply Hdom; eauto|].
  apply NoDup_cons in Hnd as [Hzrest Hnd].
  assert (Hequiv : ∀ x y, done_upto G (P ∪ {[z]}) z [] x y ↔ done_all G P x y).
  { intros x y. unfold done_upto, done_all. split.
    - intros [(Hx & Hne & Hy)|[_ Hy]]; [|by apply elem_of_nil in Hy].
      split; [|done].
      apply elem_of_union in Hx as [?| ->%elem_of_singleton]; done.
    - intros [Hx Hy]. left. split; [set_solver|]. split; [|done].
      by intros ->. }
  exists zused, lz. split; [done|].
  split; [split|..]; simpl; try done.
  - intros x. rewrite Hused, elem_of_cons, elem_of_union, elem_of_singleton.
    tauto.
  - intros x Hx [HxP| ->%elem_of_singleton]%elem_of_union; [|done].
    apply (Hdisj x); [by right|done].
  - intros x Hx. destruct (Hanc x Hx) as (l & Hl & Hlnd & HlP).
    exists l. split; [done|]. split; [done|]. intros y Hy. set_solver.
  - intros x s y Hs Hy. destruct (Hin x s y Hs Hy). split; [|done].
    by apply Hequiv.
  - intros x y Hxy%Hequiv. destruct (Hdn x y Hxy). split; [set_solver|done].
  - intros x y Hxy%Hequiv. by apply Hdone.
  - intros Hn. destruct (Htree Hn) as [Ht1 Ht2]. split; [|done].
    intros x y Hxy%Hequiv. by apply Ht1.
  - apply Hst.
  - set_solver.
  - destruct Hrt as [?|Heq]; [set_solver|]. injection Heq as -> _. set_solver.
  - intros t Ht. destruct Hst as [Htop _].
    destruct (Htop t Ht) as (p & l & Hp & Hl & Hpl).
    exists p. split; [done|]. right.
    by rewrite (ancestors_fun _ _ _ _ _ Hlz Hl).
  - by intros y ?%elem_of_nil.
Qed.

(** The end of the [for] loop of [z]. *)
Lemma mid_head G root F P z zused lz st :
  mid_inv G root F P z zused lz (neighbors G z) st → head_inv G root F P st.
Proof.
  intros [Hc Hst Hz Hroot Hzused Hlz Htop Hseen].
  destruct Hc as [Hdom Hused Hnd Hdisj Hrt Hanc Hpar Hin Hdn Hdone Hns HFd
                    Hcyc Htree].
  assert (Hequiv : ∀ x y, done_upto G P z (neighbors G z) x y ↔ done_all G P x y).
  { intros x y. unfold done_upto, done_all. split.
    - intros [(Hx & Hne & Hy)|[-> Hy]]; done.
    - intros [Hx Hy]. destruct (decide (x = z)) as [->|]; [by right|by left]. }
  split; [split|..]; try done.
  - intros x s y Hs Hy. destruct (Hin x s y Hs Hy). split; [|done].
    by apply Hequiv.
  - intros x y Hxy%Hequiv. by apply Hdone.
  - intros Hn. destruct (Htree Hn) as [Ht1 Ht2]. split; [|done].
    intros x y Hxy%Hequiv. by apply Ht1.
  - by left.
Qed.

Lemma size_le_length (X : gset string) (l : list string) :
  (∀ x, x ∈ X → x ∈ l) → (size X ≤ length l)%nat.
Proof.
  intros H. unfold size, set_size. simpl.
  apply submseteq_length, NoDup_submseteq; [apply NoDup_elements|].
  intros x Hx. apply H. by apply elem_of_elements.
Qed.

Lemma head_inv_in_nodes G root F P st x :
  head_inv G root F P st → x ∈ P ∨ x ∈ w_stack st → x ∈ nodes G.
Proof.
  intros [Hc _ _] Hx. apply (c_ns _ _ _ _ _ _ Hc), (c_used _ _ _ _ _ _ Hc), Hx.
Qed.

(** The [while stack] loop returns, with an empty stack, within
    [length (nodes G)] iterations. *)
Lemma walk_loop_ok G root F :
  graph_ok G → (∀ x y, x ∈ F → y ∈ neighbors G x → y ∈ F) →
  ∀ fuel st P,
    head_inv G root F P st →
    (length (nodes G) ≤ size P + fuel)%nat →
    ∃ st' P', walk_loop fuel G st = Some st'
              ∧ head_inv G root F P' st' ∧ w_stack st' = [].
Proof.
  intros HG HF. induction fuel as [|fuel IH]; intros st P Hinv Hsz.
  - destruct (w_stack st) as [|z rest] eqn:Hstk.
    + exists st, P. simpl. by rewrite Hstk.
    + exfalso.
      assert (HzP : z ∉ P).
      { apply (c_disj _ _ _ _ _ _ (h_core _ _ _ _ _ Hinv)). rewrite Hstk. left. }
      assert (Hle : (size (P ∪ {[z]}) ≤ length (nodes G))%nat).
      { apply size_le_length. intros x Hx.
        apply (head_inv_in_nodes _ _ _ _ _ _ Hinv). rewrite Hstk.
        apply elem_of_union in Hx as [?| ->%elem_of_singleton];
          [by left|right; left]. }
      rewrite size_union in Hle by set_solver.
      rewrite size_singleton in Hle. lia.
  - destruct (w_stack st) as [|z rest] eqn:Hstk.
    + exists st, P. simpl. by rewrite Hstk.
    + destruct (pop_mid _ _ _ _ _ _ _ Hinv Hstk) as (zused & lz & Hzu & Hmid).
      destruct (for_each_visit_ok G root F (P ∪ {[z]}) z zused lz
                  (length (nodes G)) (neighbors G z) HG HF (le_n _) [] _
                  eq_refl Hmid) as (st1 & Hfor & Hmid1).
      apply mid_head in Hmid1.
      assert (HzP : z ∉ P).
      { apply (c_disj _ _ _ _ _ _ (h_core _ _ _ _ _ Hinv)). rewrite Hstk. left. }
      destruct (IH st1 (P ∪ {[z]}) Hmid1) as (st' & P' & Hw & Hinv' & Hst').
      { rewrite size_union by set_solver. rewrite size_singleton. lia. }
      exists st', P'. split; [|done].
      simpl. rewrite Hstk. unfold pop_step. rewrite Hzu. simpl.
      rewrite Hfor. simpl. exact Hw.
Qed.

(** The start of the walk of a component. *)
Lemma initial_head G root F cycles :
  root ∈ nodes G → root ∉ F → Forall (is_cycle G) cycles →
  head_inv G root F ∅ (mkWalk [root] {[root := root]} {[root := ∅]} cycles).
Proof.
  intros Hn HF Hcyc. split; [split|..]; simpl.
  - intros x. rewrite !lookup_singleton_is_Some. done.
  - intros x. rewrite lookup_singleton_is_Some, list_elem_of_singleton.
    set_solver.
  - apply NoDup_singleton.
  - set_solver.
  - apply lookup_singleton_eq.
  - intros x Hx%lookup_singleton_is_Some. subst x.
    exists []. split; [constructor|]. split; [apply NoDup_singleton|].
    by intros y ?%elem_of_nil.
  - intros x p Hx Hp. apply lookup_singleton_Some in Hp as [-> _]. done.
  - intros x s y Hs Hy. apply lookup_singleton_Some in Hs as [_ <-].
    set_solver.
  - intros x y [Hx _]. set_solver.
  - intros x y [Hx _]. set_solver.
  - intros x Hx%lookup_singleton_is_Some. by subst.
  - intros x Hx%lookup_singleton_is_Some. by subst.
  - done.
  - intros _. split.
    + intros x y [Hx _]. set_solver.
    + intros x s y Hs Hy. apply lookup_singleton_Some in Hs as [_ <-].
      set_solver.
  - split; [|done]. by intros t ?%elem_of_nil.
  - by right.
Qed.

Lemma component_ok G root F cycles :
  graph_ok G → (∀ x y, x ∈ F → y ∈ neighbors G x → y ∈ F) →
  root ∈ nodes G → root ∉ F → Forall (is_cycle G) cycles →
  ∃ st P, component G root cycles = Some st
          ∧ head_inv G root F P st ∧ w_stack st = [].
Proof.
  intros HG HF Hn HrF Hcyc. unfold component.
  eapply (walk_loop_ok G root F HG HF _ _ ∅).
  - by apply initial_head.
  - lia.
Qed.

(** Cycles are only ever appended. *)
Lemma visit_grow fuel z zused st nbr st' :
  visit fuel z zused st nbr = Some st' →
  w_cycles st' = [] → w_cycles st = [].
Proof.
  unfold visit. destruct (w_used st !! nbr) as [pn|].
  - case_decide.
    + intros [= <-]. simpl. by intros [? _]%app_nil.
    + case_decide; [by intros [= <-]|].
      destruct (w_pred st !! z) as [p|]; [|done]. simpl.
      destruct (climb _ _ _ _) as [tl|]; [|done]. simpl.
      intros [= <-]. simpl. by intros [? _]%app_nil.
  - by intros [= <-].
Qed.

Lemma for_each_grow fuel z zused todo st st' :
  for_each (visit fuel z zused) st todo = Some st' →
  w_cycles st' = [] → w_cycles st = [].
Proof.
  revert st. induction todo as [|nbr todo IH]; intros st; simpl.
  - by intros [= <-].
  - destruct (visit fuel z zused st nbr) as [st1|] eqn:E; [|done]. simpl.
    intros H Hn. eapply visit_grow; [done|]. by eapply IH.
Qed.

Lemma walk_loop_grow G fuel st st' :
  walk_loop fuel G st = Some st' → w_cycles st' = [] → w_cycles st = [].
Proof.
  revert st. induction fuel as [|fuel IH]; intros st; simpl.
  - destruct (w_stack st); [by intros [= <-]|done].
  - destruct (w_stack st) as [|z rest]; [by intros [= <-]|].
    unfold pop_step. destruct (w_used st !! z) as [zused|]; [|done]. simpl.
    destruct (for_each _ _ _) as [st1|] eqn:E; [|done]. simpl.
    intros H Hn. apply (for_each_grow _ _ _ _ _ _ E). by eapply IH.
Qed.

Lemma component_grow G root cycles st :
  component G root cycles = Some st → w_cycles st = [] → cycles = [].
Proof. intros H Hn. by apply (walk_loop_grow _ _ _ _ H Hn). Qed.

(** *** Walks that report no cycle leave a forest *)

Lemma depth_ancestors fuel pred root x l :
  ancestors pred root x l → (length l ≤ fuel)%nat →
  depth fuel pred root x = length l.
Proof.
  intros H. revert fuel. induction H as [|x p l Hx Hp _ IH]; intros fuel Hlen.
  - destruct fuel; simpl; [done|]. by rewrite decide_True.
  - destruct fuel as [|fuel]; simpl in *; [lia|].
    rewrite decide_False by done. rewrite Hp. f_equal. apply IH. lia.
Qed.

Section Finished.
Variables (G : Graph) (root : string) (F P : gset string) (st : walk).
Hypothesis Hinv : head_inv G root F P st.
Hypothesis Hempty : w_stack st = [].

Lemma finished_dom x : is_Some (w_pred st !! x) ↔ x ∈ P.
Proof.
  destruct Hinv as [Hc _ _].
  rewrite (c_dom _ _ _ _ _ _ Hc), (c_used _ _ _ _ _ _ Hc), Hempty.
  rewrite elem_of_nil. tauto.
Qed.

Lemma finished_root : root ∈ P.
Proof.
  destruct Hinv as [_ _ [?|Hr]]; [done|]. rewrite Hempty in Hr. done.
Qed.

Lemma finished_disjoint x : x ∈ P → x ∉ F.
Proof.
  intros Hx. destruct Hinv as [Hc _ _].
  apply (c_F _ _ _ _ _ _ Hc), (c_used _ _ _ _ _ _ Hc). by left.
Qed.

Lemma finished_nodes x : x ∈ P → x ∈ nodes G.
Proof.
  intros Hx. destruct Hinv as [Hc _ _].
  apply (c_ns _ _ _ _ _ _ Hc), (c_used _ _ _ _ _ _ Hc). by left.
Qed.

Lemma finished_closed x y : x ∈ P → y ∈ neighbors G x → y ∈ P.
Proof.
  intros Hx Hy. destruct Hinv as [Hc _ _].
  assert (Hd : done_all G P x y) by done.
  destruct (c_done _ _ _ _ _ _ Hc x y Hd)
    as [->|[(s & Hs & Hxs)|(s & Hs & Hys)]]; [done| |].
  - apply finished_dom, (c_dom _ _ _ _ _ _ Hc). eauto.
  - destruct (c_in _ _ _ _ _ _ Hc x s y Hs Hys) as [[HyP _] _]. done.
Qed.

Lemma finished_chain_length x l :
  ancestors (w_pred st) root x l → x ∈ P →
  (length l ≤ length (nodes G))%nat.
Proof.
  intros Hl Hx. destruct Hinv as [Hc _ _].
  destruct (c_anc _ _ _ _ _ _ Hc x) as (l' & Hl' & Hnd & HP);
    [by apply finished_dom|].
  rewrite <- (ancestors_fun _ _ _ _ _ Hl Hl') in *.
  apply submseteq_length, NoDup_submseteq.
  - by apply NoDup_cons in Hnd as [_ ?].
  - intros y Hy. by apply finished_nodes, HP.
Qed.

(** A child is one level below its parent. *)
Lemma finished_child x y s :
  x ∈ P → w_cycles st = [] → w_used st !! y = Some s → x ∈ s →
  default y (w_pred st !! y) = x
  ∧ depth (length (nodes G)) (w_pred st) root y
    = S (depth (length (nodes G)) (w_pred st) root x).
Proof.
  intros Hx Hn Hs Hxs. destruct Hinv as [Hc _ _].
  destruct (c_tree _ _ _ _ _ _ Hc Hn) as [_ Ht].
  destruct (Ht y s x Hs Hxs) as [Hp Hyr]. rewrite Hp. split; [done|].
  assert (HyP : y ∈ P) by (apply finished_dom; eauto).
  destruct (c_anc _ _ _ _ _ _ Hc y) as (ly & Hly & _ & _);
    [by apply finished_dom|].
  pose proof (finished_chain_length y ly Hly HyP) as Hlen.
  rewrite (depth_ancestors _ _ _ _ _ Hly Hlen).
  inversion Hly as [|y' p lx Hy' Hp' Hlx]; subst; [done|].
  assert (p = x) as -> by congruence.
  rewrite (depth_ancestors _ _ _ _ lx Hlx); [done|]. simpl in Hlen. lia.
Qed.

Lemma finished_treelike : w_cycles st = [] → treelike G P.
Proof.
  intros Hn.
  exists (λ x, default x (w_pred st !! x)),
         (depth (length (nodes G)) (w_pred st) root).
  intros x y Hx Hy. pose proof (finished_closed x y Hx Hy) as HyP.
  split; [done|]. destruct Hinv as [Hc _ _].
  destruct (c_tree _ _ _ _ _ _ Hc Hn) as [Hne _].
  assert (Hd : done_all G P x y) by done.
  destruct (c_done _ _ _ _ _ _ Hc x y Hd)
    as [->|[(s & Hs & Hxs)|(s & Hs & Hys)]].
  - by destruct (Hne x x Hd).
  - left. by eapply finished_child.
  - right. by eapply finished_child.
Qed.
End Finished.

Lemma treelike_empty G : treelike G ∅.
Proof. exists id, (λ _, O). set_solver. Qed.

Lemma treelike_union G X Y :
  treelike G X → treelike G Y → (∀ x, x ∈ Y → x ∉ X) → treelike G (X ∪ Y).
Proof.
  intros (par1 & d1 & H1) (par2 & d2 & H2) Hdisj.
  exists (λ x, if decide (x ∈ X) then par1 x else par2 x),
         (λ x, if decide (x ∈ X) then d1 x else d2 x).
  intros x y [Hx|Hx]%elem_of_union Hy.
  - destruct (H1 x y Hx Hy) as [HyX Hxy]. split; [set_solver|].
    by rewrite !decide_True.
  - destruct (H2 x y Hx Hy) as [HyY Hxy]. split; [set_solver|].
    rewrite !decide_False by (by apply Hdisj). done.
Qed.

Lemma max_depth_index (d : string → nat) (c : list string) :
  c ≠ [] → ∃ i x, c !! i = Some x ∧ ∀ y, y ∈ c → (d y ≤ d x)%nat.
Proof.
  induction c as [|a c IH]; [done|]. intros _.
  destruct c as [|b c].
  - exists 0%nat, a. split; [done|]. by intros y ->%list_elem_of_singleton.
  - destruct IH as (i & x & Hi & Hmax); [done|].
    destruct (decide (d x ≤ d a)%nat) as [Hle|Hgt].
    + exists 0%nat, a. split; [done|].
      intros y [->|Hy]%elem_of_cons; [done|]. specialize (Hmax y Hy). lia.
    + exists (S i), x. split; [done|].
      intros y [->|Hy]%elem_of_cons; [lia|]. by apply Hmax.
Qed.

(** A forest has no cycle. *)
Lemma treelike_acyclic G X :
  treelike G X → (∀ x y, y ∈ neighbors G x → x ∈ X) → ¬ has_cycle G.
Proof.
  intros (par & d & Ht) Hall [c [(z & -> & Hz)|(Hlen & Hnd & Hadj)]].
  - destruct (Ht z z (Hall _ _ Hz) Hz) as [_ [[_ ?]|[_ ?]]]; lia.
  - destruct (max_depth_index d c) as (i & x & Hi & Hmax);
      [intros ->; simpl in Hlen; lia|].
    set (n := length c) in *.
    assert (Hin : (i < n)%nat) by (by eapply lookup_lt_Some).
    set (j := ((i + 1) mod n)%nat).
    set (k := if decide (i = 0%nat) then (n - 1)%nat else (i - 1)%nat).
    assert (Hj : (j < n)%nat) by (apply Nat.mod_upper_bound; lia).
    assert (Hk : (k < n)%nat) by (unfold k; case_decide; lia).
    assert (Hk1 : ((k + 1) mod n)%nat = i).
    { unfold k. case_decide.
      - replace (n - 1 + 1)%nat with n by lia. subst i.
        apply Nat.Div0.mod_same.
      - replace (i - 1 + 1)%nat with i by lia. by apply Nat.mod_small. }
    assert (Hjk : j ≠ k).
    { unfold j, k. destruct (decide (i + 1 = n)%nat) as [E|E].
      - rewrite E, Nat.Div0.mod_same. case_decide; lia.
      - rewrite Nat.mod_small by lia. case_decide; lia. }
    destruct (lookup_lt_is_Some_2 c j Hj) as [w Hw].
    destruct (lookup_lt_is_Some_2 c k Hk) as [u Hu].
    assert (Hxw : w ∈ neighbors G x) by (by eapply Hadj).
    assert (Hux : x ∈ neighbors G u).
    { eapply (Hadj k); [done|]. by rewrite Hk1. }
    assert (Hxu : u ∈ neighbors G x) by (by apply neighbors_sym).
    assert (HxX : x ∈ X) by (by eapply Hall).
    assert (Hpw : par x = w).
    { destruct (Ht x w HxX Hxw) as [_ [[_ Hd]|[? _]]]; [|done].
      assert (d w ≤ d x)%nat by (eapply Hmax, list_elem_of_lookup_2; eauto). lia. }
    assert (Hpu : par x = u).
    { destruct (Ht x u HxX Hxu) as [_ [[_ Hd]|[? _]]]; [|done].
      assert (d u ≤ d x)%nat by (eapply Hmax, list_elem_of_lookup_2; eauto). lia. }
    apply Hjk. eapply NoDup_lookup; [done..|]. congruence.
Qed.

(** The loop over the connected components returns; every cycle it reports
    is one, and when it reports none the whole graph is a forest. *)
Lemma components_ok G :
  graph_ok G →
  ∀ fuel gnodes cycles (F : gset string),
    (∀ x y, x ∈ F → y ∈ neighbors G x → y ∈ F) →
    (∀ x, x ∈ nodes G → x ∈ gnodes ∨ x ∈ F) →
    (∀ x, x ∈ gnodes → x ∈ nodes G ∧ x ∉ F) →
    Forall (is_cycle G) cycles →
    (cycles = [] → treelike G F) →
    (length gnodes ≤ fuel)%nat →
    ∃ out, components fuel G gnodes cycles = Some out
           ∧ Forall (is_cycle G) out
           ∧ (out = [] → ∃ X, treelike G X ∧ ∀ x, x ∈ nodes G → x ∈ X).
Proof.
  intros HG. induction fuel as [|fuel IH];
    intros gnodes cycles F HF Hcover Hg Hcyc Htree Hlen.
  - destruct gnodes; [|simpl in Hlen; lia].
    exists cycles. split; [done|]. split; [done|].
    intros Hn. exists F. split; [by apply Htree|].
    intros x Hx. destruct (Hcover x Hx) as [?%elem_of_nil|]; done.
  - destruct (last gnodes) as [root|] eqn:Hlast.
    2:{ apply last_None in Hlast. subst gnodes.
        exists cycles. split; [done|]. split; [done|].
        intros Hn. exists F. split; [by apply Htree|].
        intros x Hx. destruct (Hcover x Hx) as [?%elem_of_nil|]; done. }
    pose proof (last_Some_elem_of _ _ Hlast) as Hroot.
    destruct (Hg root Hroot) as [Hrn HrF].
    destruct (component_ok G root F cycles HG HF Hrn HrF Hcyc)
      as (st & P & Hcomp & Hinv & Hst).
    pose proof (finished_dom G root F P st Hinv Hst) as Hdom.
    destruct (IH (filter (λ n, w_pred st !! n = None) gnodes) (w_cycles st)
                 (F ∪ P)) as (out & Hout & Hcyc' & Htree').
    + intros x y [Hx|Hx]%elem_of_union Hy; apply elem_of_union.
      * left. by eapply HF.
      * right. by eapply (finished_closed G root F P st).
    + intros x Hx. destruct (Hcover x Hx) as [Hxg|HxF]; [|set_solver].
      destruct (w_pred st !! x) as [p|] eqn:Hp.
      * right. apply elem_of_union. right. apply Hdom. eauto.
      * left. by apply list_elem_of_filter.
    + intros x [Hp Hx]%list_elem_of_filter. destruct (Hg x Hx) as [Hxn HxF].
      split; [done|]. intros [?|HxP]%elem_of_union; [done|].
      apply Hdom in HxP as [? ?]. congruence.
    + apply Hinv.
    + intros Hn. apply treelike_union.
      * apply Htree. by eapply component_grow.
      * by eapply finished_treelike.
      * intros x Hx. by eapply finished_disjoint.
    + assert (Hlt : (length (filter (λ n, w_pred st !! n = None) gnodes)
                     < length gnodes)%nat).
      { apply (length_filter_lt _ _ root); [done|].
        assert (is_Some (w_pred st !! root)) as [? Hr].
        { apply Hdom. by eapply finished_root. }
        by rewrite Hr. }
      lia.
    + exists out. split; [|done].
      simpl. rewrite Hlast, Hcomp. simpl. exact Hout.
Qed.

(** [cycle_basis] returns on every well-formed graph; each list it returns
    is a cycle of the graph; it returns none exactly when the graph has no
    cycle. *)
Theorem cycle_basis_correct G :
  graph_ok G →
  ∃ cycles, cycle_basis G = Some cycles
            ∧ Forall (is_cycle G) cycles
            ∧ (cycles ≠ [] ↔ has_cycle G).
Proof.
  intros HG. unfold cycle_basis.
  destruct (components_ok G HG (length (nodes G)) (nodes G) [] ∅)
    as (out & Hout & Hcyc & Htree); try done.
  - intros x Hx. by left.
  - intros _. apply treelike_empty.
  - exists out. split; [done|]. split; [done|]. split.
    + destruct out as [|c out]; [done|]. intros _. exists c.
      by apply Forall_cons in Hcyc as [? _].
    + intros Hc ->. destruct (Htree eq_refl) as (X & HX & Hall).
      apply (treelike_acyclic G X HX); [|done].
      intros x y Hy. apply Hall. by eapply (ok_closed G HG).
Qed.

(** ** Well-formedness of the graphs built by the [Graph] operations *)

Lemma same_edge_sym u v k : same_edge u v k → same_edge k.1 k.2 (u, v).
Proof. unfold same_edge. simpl. naive_solver. Qed.

Lemma update_edge_keys f es u v : (update_edge f es u v).*1 = es.*1.
Proof.
  induction es as [|[e d] es IH]; [done|]. simpl.
  case_decide; simpl; [done|]. by f_equal.
Qed.

Lemma edge_data_None es u v :
  edge_data es u v = None ↔ ∀ k, k ∈ es.*1 → ¬ same_edge u v k.
Proof.
  induction es as [|[e d] es IH]; simpl.
  - split; [|done]. by intros _ k ?%elem_of_nil.
  - case_decide as He.
    + split; [done|]. intros H. exfalso. apply (H e); [left|done].
    + rewrite IH. split.
      * intros H k [->|Hk]%elem_of_cons; auto.
      * intros H k Hk. apply H. by right.
Qed.

Lemma distinct_edges_snoc ks k :
  distinct_edges ks → (∀ k', k' ∈ ks → ¬ same_edge k.1 k.2 k') →
  distinct_edges (ks ++ [k]).
Proof.
  induction ks as [|k0 ks IH]; intros Hd Hk; simpl.
  - split; [|done]. by intros k' ?%elem_of_nil.
  - destruct Hd as [Hk0 Hd]. split.
    + intros k' [Hk'| ->%list_elem_of_singleton]%elem_of_app; [by apply Hk0|].
      intros Hs. apply (Hk k0); [left|].
      destruct k0 as [a b], k as [c e]. unfold same_edge in *. simpl in *.
      naive_solver.
    + apply IH; [done|]. intros k' Hk'. apply Hk. by right.
Qed.

Lemma nodes_set_node ns n a x : x ∈ ns.*1 → x ∈ (set_node ns n a).*1.
Proof.
  induction ns as [|[m b] ns IH]; simpl; [by intros ?%elem_of_nil|].
  intros Hx. case_decide; simpl; [done|].
  apply elem_of_cons in Hx as [->|Hx]; [left|right; auto].
Qed.

Lemma nodes_ensure_node ns n x : x ∈ ns.*1 → x ∈ (ensure_node ns n).*1.
Proof.
  unfold ensure_node. case_decide; [done|]. intros Hx.
  rewrite fmap_app. apply elem_of_app. by left.
Qed.

Lemma ensure_node_in ns n : n ∈ (ensure_node ns n).*1.
Proof.
  unfold ensure_node. case_decide; [done|].
  rewrite fmap_app. apply elem_of_app. right. left.
Qed.

Lemma store_ok_empty : store_ok empty_graph.
Proof. split; simpl; [by intros u v ?%elem_of_nil|done]. Qed.

Lemma store_ok_add_node G n a : store_ok G → store_ok (add_node G n a).
Proof.
  intros [He Hd]. split; simpl; [|done].
  intros u v Huv. destruct (He u v Huv). split; by apply nodes_set_node.
Qed.

Lemma store_ok_add_edge G u v : store_ok G → store_ok (add_edge G u v).
Proof.
  intros [He Hd]. unfold add_edge.
  destruct (has_edge G u v) eqn:Hhas; split; simpl.
  - rewrite update_edge_keys. intros a b Hab. destruct (He a b Hab).
    split; by apply nodes_ensure_node, nodes_ensure_node.
  - by rewrite update_edge_keys.
  - rewrite fmap_app. intros a b [Hab|Hab]%elem_of_app.
    + destruct (He a b Hab). split; by apply nodes_ensure_node, nodes_ensure_node.
    + apply list_elem_of_singleton in Hab. injection Hab as -> ->.
      split; [apply nodes_ensure_node|]; apply ensure_node_in.
  - rewrite fmap_app. apply distinct_edges_snoc; [done|].
    apply edge_data_None. unfold has_edge in Hhas.
    apply bool_decide_eq_false in Hhas.
    by apply eq_None_not_Some.
Qed.

Lemma store_ok_add_link G u v t : store_ok G → store_ok (add_link G u v t).
Proof.
  intros [He Hd]. split; simpl; by rewrite update_edge_keys.
Qed.

Lemma store_ok_annotate parsed G : store_ok G → store_ok (annotate parsed G).
Proof.
  intros [He Hd].
  assert (Hk : (prod_map id (annotate_edge parsed) <$> g_edge G).*1
               = (g_edge G).*1).
  { rewrite <- list_fmap_compose. apply list_fmap_ext. by intros _ [] _. }
  split; simpl; by rewrite Hk.
Qed.

Lemma foldl_preserves {A B} (Q : A → Prop) (f : A → B → A) (l : list B) a :
  (∀ a b, Q a → Q (f a b)) → Q a → Q (foldl f a l).
Proof.
  intros Hf. revert a. induction l as [|b l IH]; intros a Ha; simpl; auto.
Qed.

Lemma store_ok_build parsed : store_ok (build_topology parsed).
Proof.
  unfold build_topology. apply store_ok_annotate.
  unfold pass2. apply foldl_preserves.
  { intros G [[[[[n1 i1] ip1] m1] b1] [[[[n2 i2] ip2] m2] b2]] HG.
    unfold pass2_pair. case_decide; [|done].
    apply store_ok_add_link. destruct (has_edge G n1 n2); [done|].
    by apply store_ok_add_edge. }
  unfold pass1, pass1_from. apply foldl_preserves.
  { intros G [a d] HG. apply foldl_preserves; [|done].
    intros G' intf HG'. unfold pass1_intf.
    destruct (connects_to intf) as [[b b_if]|]; [|done].
    destruct (in_parsed b parsed); [|done].
    by apply store_ok_add_link, store_ok_add_edge. }
  unfold add_nodes. apply foldl_preserves; [|apply store_ok_empty].
  intros G [n d] HG. by apply store_ok_add_node.
Qed.

Lemma neighbors_keys G x :
  neighbors G x
  = omap (λ '(u, v), if decide (u = x) then Some v
                     else if decide (v = x) then Some u else None)
         (g_edge G).*1.
Proof.
  unfold neighbors, adj.
  induction (g_edge G) as [|[[u v] d] es IH]; [done|].
  cbn [omap list_omap fmap list_fmap fst].
  repeat case_decide; simpl; by f_equal.
Qed.

Lemma neighbors_of_keys_NoDup (ks : list (string * string)) x :
  distinct_edges ks →
  NoDup (omap (λ '(u, v), if decide (u = x) then Some v
                          else if decide (v = x) then Some u else None) ks).
Proof.
  induction ks as [|[u v] ks IH]; [constructor|].
  intros [Hk Hd]. specialize (IH Hd). cbn [omap list_omap].
  assert (Hfresh : ∀ y, same_edge u v (x, y) ∨ same_edge u v (y, x) →
            y ∉ omap (λ '(u0, v0), if decide (u0 = x) then Some v0
                        else if decide (v0 = x) then Some u0 else None) ks).
  { intros y Hs Hin. apply list_elem_of_omap in Hin as ([a b] & Hab & Hf).
    apply (Hk (a, b) Hab). unfold same_edge in *. simpl in *.
    repeat case_decide; simplify_eq; naive_solver. }
  repeat case_decide; subst; try done.
  - apply NoDup_cons. split; [|done]. apply Hfresh.
    unfold same_edge. simpl. naive_solver.
  - apply NoDup_cons. split; [|done]. apply Hfresh.
    unfold same_edge. simpl. naive_solver.
Qed.

Lemma store_ok_graph_ok G : store_ok G → graph_ok G.
Proof.
  intros [He Hd]. split.
  - intros x. rewrite neighbors_keys. by apply neighbors_of_keys_NoDup.
  - intros x y. rewrite neighbors_keys.
    intros ([u v] & Huv & Hf)%list_elem_of_omap.
    destruct (He u v Huv). repeat case_decide; simplify_eq; done.
Qed.

Lemma build_topology_ok parsed : graph_ok (build_topology parsed).
Proof. apply store_ok_graph_ok, store_ok_build. Qed.

(** ** The issue detector on a built topology *)

(** [detect_issues] returns on every built topology. *)
Lemma detect_issues_total parsed :
  ∃ issues cycles,
    detect_issues parsed (build_topology parsed) = Some issues
    ∧ cycle_basis (build_topology parsed) = Some cycles
    ∧ Forall (is_cycle (build_topology parsed)) cycles
    ∧ (cycles ≠ [] ↔ has_cycle (build_topology parsed)).
Proof.
  destruct (cycle_basis_correct _ (build_topology_ok parsed))
    as (cycles & Hcb & Hcyc & Hiff).
  eexists _, cycles. split; [|done].
  unfold detect_issues. rewrite Hcb. reflexivity.
Qed.

Lemma elem_of_of_type t i issues :
  i ∈ of_type t issues ↔ i ∈ issues ∧ type_of i = t.
Proof. unfold of_type. rewrite list_elem_of_filter. tauto. Qed.

Lemma filter_of_type (Q : Issue → Prop) `{∀ i, Decision (Q i)} t issues :
  (∀ i, Q i → type_of i = t) →
  filter Q issues = filter Q (of_type t issues).
Proof.
  intros HQ. unfold of_type.
  induction issues as [|i issues IH]; [done|].
  rewrite !filter_cons. destruct (decide (Q i)) as [Hq|Hq].
  - rewrite decide_True by auto. rewrite filter_cons, decide_True by done.
    by f_equal.
  - case_decide; [|done]. by rewrite filter_cons, decide_False.
Qed.

(** C3, as amended: a duplicate_ip issue is emitted for an address exactly
    when the address is carried by two or more interfaces, of one device or
    of several, whatever their VLANs; there is at most one such issue per
    address and it lists the device of every interface that carries it. *)
Theorem C3_duplicate_ip_per_interface parsed :
  ∃ issues,
    detect_issues parsed (build_topology parsed) = Some issues
    ∧ ∀ a,
        ((∃ w, duplicate_ip a w ∈ issues)
         ↔ (2 ≤ length (ip_owners parsed a))%nat)
        ∧ (∀ w, duplicate_ip a w ∈ issues → w = ip_owners parsed a)
        ∧ (length (filter (is_duplicate_ip_for a) issues) ≤ 1)%nat.
Proof.
  destruct (detect_issues_total parsed) as (issues & cycles & Hdet & _).
  exists issues. split; [done|]. intros a.
  destruct (detect_issues_by_type _ _ _ Hdet) as (_ & _ & Hdup & _).
  assert (Hmem : ∀ w, duplicate_ip a w ∈ issues
                      ↔ duplicate_ip a w ∈ duplicate_ip_issues parsed).
  { intros w. rewrite <- Hdup, elem_of_of_type. simpl. tauto. }
  split; [|split].
  - split.
    + intros (w & Hw). apply Hmem, duplicate_ip_issues_elem in Hw. tauto.
    + intros Hlen. exists (ip_owners parsed a).
      by apply Hmem, duplicate_ip_issues_elem.
  - intros w Hw. apply Hmem, duplicate_ip_issues_elem in Hw. tauto.
  - rewrite (filter_of_type _ T_duplicate_ip).
    + rewrite Hdup. apply duplicate_ip_issues_once.
    + intros [] Hi; done.
Qed.

(** C3 as stated fails: on [same_device_net] the address 10.0.0.1 is used by
    one device only, twice, and the issue is emitted. *)
Lemma C3_counterexample :
  ¬ (∀ issues a,
       detect_issues same_device_net (build_topology same_device_net)
       = Some issues →
       ((∃ w, duplicate_ip a w ∈ issues)
        ↔ (2 ≤ length (remove_dups (ip_owners same_device_net a)))%nat)).
Proof.
  intros H.
  specialize (H [duplicate_ip "10.0.0.1" ["R1"; "R1"]]%string
                "10.0.0.1"%string eq_refl).
  destruct H as [H _].
  assert (Hlen : (2 ≤ length (remove_dups
                    (ip_owners same_device_net "10.0.0.1")))%nat).
  { apply H. eexists. left. }
  vm_compute in Hlen. lia.
Qed.

(** C4: the mtu_mismatch issues are, edge by edge and link by link, one
    issue for every underlying link whose two resolved MTUs differ and none
    for a link whose MTUs are equal. *)
Theorem C4_mtu_mismatch_once_per_link parsed :
  ∃ issues,
    detect_issues parsed (build_topology parsed) = Some issues
    ∧ of_type T_mtu_mismatch issues
      = flat_map (λ '(u, v, ed),
                    flat_map (link_mtu_issue parsed u v) (links ed))
                 (edges (build_topology parsed))
    ∧ length (of_type T_mtu_mismatch issues)
      = length (filter (mtus_differ parsed)
                       (all_links (build_topology parsed))).
Proof.
  destruct (detect_issues_total parsed) as (issues & cycles & Hdet & _).
  exists issues. split; [done|].
  destruct (detect_issues_by_type _ _ _ Hdet) as (_ & _ & _ & Hmtu & _).
  rewrite Hmtu, mtu_issues_build. split; [done|].
  unfold all_links.
  induction (edges (build_topology parsed)) as [|[[u v] ed] es IH]; [done|].
  cbn [flat_map]. rewrite filter_app, !length_app, IH. f_equal. simpl.
  induction (links ed) as [|[[[a ai] b] bi] ls IHl]; [done|].
  cbn [flat_map]. rewrite length_app, filter_cons, IHl.
  unfold link_mtu_issue, mtus_differ.
  destruct (decide (side_mtu parsed a ai = side_mtu parsed b bi)) as [E|E].
  - by rewrite decide_False by (by intros ?).
  - by rewrite decide_True.
Qed.

(** C6: a network_loops issue is emitted exactly when the built graph has a
    cycle (none for a forest); there is at most one, it carries the whole
    list returned by [cycle_basis], and every entry of that list is a cycle
    of the graph. *)
Theorem C6_network_loops_iff_cycle parsed :
  ∃ issues,
    detect_issues parsed (build_topology parsed) = Some issues
    ∧ ((∃ cycles, network_loops cycles ∈ issues)
       ↔ has_cycle (build_topology parsed))
    ∧ (∀ cycles, network_loops cycles ∈ issues →
         cycle_basis (build_topology parsed) = Some cycles
         ∧ Forall (is_cycle (build_topology parsed)) cycles
         ∧ of_type T_network_loops issues = [network_loops cycles]).
Proof.
  destruct (detect_issues_total parsed)
    as (issues & cycles & Hdet & Hcb & Hcyc & Hiff).
  exists issues. split; [done|].
  destruct (detect_issues_by_type _ _ _ Hdet)
    as (cycles' & Hcb' & _ & _ & Hloops & _).
  assert (cycles' = cycles) as -> by congruence.
  assert (Hmem : ∀ cs, network_loops cs ∈ issues
                       ↔ network_loops cs ∈ loop_issues cycles).
  { intros cs. rewrite <- Hloops, elem_of_of_type. simpl. tauto. }
  split.
  - rewrite <- Hiff. split.
    + intros (cs & Hcs%Hmem). intros ->. by apply elem_of_nil in Hcs.
    + intros Hne. exists cycles. apply Hmem.
      destruct cycles; [done|]. left.
  - intros cs Hcs%Hmem. destruct cycles as [|c cycles].
    + by apply elem_of_nil in Hcs.
    + apply list_elem_of_singleton in Hcs. injection Hcs as ->.
      by rewrite Hloops.
Qed.

(** C8, as amended: exactly one bgp_recommended issue is emitted when more
    than one distinct non-zero ASN value appears across the devices, and
    none otherwise; an ASN of 0 counts as no ASN. *)
Theorem C8_bgp_recommended_nonzero_asns parsed :
  ∃ issues,
    detect_issues parsed (build_topology parsed) = Some issues
    ∧ (several_asns parsed →
       of_type T_bgp_recommended issues
       = [bgp_recommended "Multiple autonomous systems detected"])
    ∧ (¬ several_asns parsed → of_type T_bgp_recommended issues = []).
Proof.
  destruct (detect_issues_total parsed) as (issues & cycles & Hdet & _).
  exists issues. split; [done|].
  destruct (detect_issues_by_type _ _ _ Hdet) as (_ & _ & _ & _ & _ & Hbgp).
  rewrite Hbgp. split.
  - apply bgp_issues_several.
  - apply bgp_issues_single.
Qed.

(** C8 as stated fails: on [asn_zero_net] the ASN values 0 and 100 appear,
    and no issue is emitted. *)
Lemma C8_counterexample :
  ¬ (∀ issues,
       detect_issues asn_zero_net (build_topology asn_zero_net) = Some issues →
       ((∃ r, bgp_recommended r ∈ issues)
        ↔ ∃ x y, x ≠ y ∧ asn_value asn_zero_net x ∧ asn_value asn_zero_net y)).
Proof.
  intros H. specialize (H [] eq_refl). destruct H as [_ H].
  destruct H as [r Hr].
  - exists 0, 100. split; [done|]. split.
    + exists "R1"%string, (device [plain_if "Fa0/0" None] (Some 0)).
      split; [left|done].
    + exists "R2"%string, (device [plain_if "Fa0/0" None] (Some 100)).
      split; [right; left|done].
  - by apply elem_of_nil in Hr.
Qed.

(** ** What does hold of the demand simulator's keys *)

Lemma sorted_pair_comm a b : sorted_pair a b = sorted_pair b a.
Proof.
  unfold sorted_pair, String.ltb.
  rewrite (String.compare_antisym a b).
  destruct (String.compare b a) eqn:E; simpl; try done.
  by apply String.compare_eq_iff in E as ->.
Qed.

Lemma sorted_pair_canonical a b : canonical (sorted_pair a b).
Proof.
  unfold canonical, sorted_pair, String.ltb.
  destruct (String.compare b a) eqn:E; simpl; rewrite ?E; try done.
  rewrite String.compare_antisym, E. done.
Qed.

(** Both directions of an edge add to the same bucket. *)
Lemma add_demand_comm demand load a b :
  add_demand demand load (a, b) = add_demand demand load (b, a).
Proof. unfold add_demand. simpl. by rewrite (sorted_pair_comm a b). Qed.

(** The keys a path adds are sorted pairs. *)
Lemma add_path_new_keys demand path load k :
  k ∈ (add_path demand load path).*1 → k ∈ load.*1 ∨ canonical k.
Proof.
  unfold add_path. generalize (zip path (tail path)). intros l.
  revert load. induction l as [|ab l IH]; intros load; simpl; [by left|].
  intros [Hk|Hk]%IH; [|by right].
  unfold add_demand in Hk.
  assert (Hset : ∀ (d : EdgeLoad) e v,
            k ∈ (dict_set e v d).*1 → k ∈ d.*1 ∨ k = e).
  { clear. intros d e v. induction d as [|[k0 v0] d IH]; simpl.
    - intros ->%list_elem_of_singleton. by right.
    - case_decide; simpl; [by left|].
      intros [->|Hk]%elem_of_cons; [left; left|].
      destruct (IH Hk); [left; by right|by right]. }
  destruct (Hset _ _ _ Hk) as [?| ->]; [by left|right].
  apply sorted_pair_canonical.
Qed.

(** ** The devices named by Link tuples are keys of [parsed] *)

Lemma update_edge_elem f es u v e d' :
  (e, d') ∈ update_edge f es u v →
  ∃ d, (e, d) ∈ es ∧ (d' = d ∨ d' = f d).
Proof.
  induction es as [|[e0 d0] es IH]; simpl; [by intros ?%elem_of_nil|].
  case_decide.
  - intros [[= -> ->]|Hin]%elem_of_cons.
    + exists d0. split; [left|by right].
    + exists d'. split; [by right|by left].
  - intros [[= -> ->]|Hin]%elem_of_cons.
    + exists d0. split; [left|by left].
    + destruct (IH Hin) as (d & Hd & Hor). exists d. split; [by right|done].
Qed.

Lemma links_in_add_edge parsed G u v :
  links_in parsed G → links_in parsed (add_edge G u v).
Proof.
  intros HG e d a ai b bi. unfold add_edge.
  destruct (has_edge G u v); simpl.
  - intros (d0 & Hd0 & [->| ->])%update_edge_elem; [by eapply HG|].
    by intros ?%elem_of_nil.
  - intros [Hin|Hin]%elem_of_app; [by eapply HG|].
    apply list_elem_of_singleton in Hin. injection Hin as _ ->.
    by intros ?%elem_of_nil.
Qed.

Lemma links_in_add_link parsed G u v a ai b bi :
  a ∈ parsed.*1 → b ∈ parsed.*1 →
  links_in parsed G → links_in parsed (add_link G u v (a, ai, b, bi)).
Proof.
  intros Ha Hb HG e d a' ai' b' bi'. unfold add_link. simpl.
  intros (d0 & Hd0 & [->| ->])%update_edge_elem; [by eapply HG|].
  simpl. unfold set_add. case_decide; [by eapply HG|].
  intros [Hin|Hin]%elem_of_app; [by eapply HG|].
  apply list_elem_of_singleton in Hin. by injection Hin as -> _ -> _.
Qed.

Lemma foldl_preserves_in {A B} (Q : A → Prop) (f : A → B → A) (l : list B) a :
  (∀ a b, b ∈ l → Q a → Q (f a b)) → Q a → Q (foldl f a l).
Proof.
  revert a. induction l as [|b l IH]; intros a Hf Ha; simpl; [done|].
  apply IH.
  - intros a' b' Hb'. apply Hf. by right.
  - apply Hf; [left|done].
Qed.

Lemma combinations2_elem {A} (l : list A) x y :
  (x, y) ∈ combinations2 l → x ∈ l ∧ y ∈ l.
Proof.
  induction l as [|a l IH]; simpl; [by intros ?%elem_of_nil|].
  intros [Hin|Hin]%elem_of_app.
  - apply list_elem_of_fmap in Hin as (y' & [= -> ->] & Hy).
    split; [left|by right].
  - destruct (IH Hin). split; by right.
Qed.

Lemma iface_list_device parsed n i a m b :
  (n, i, a, m, b) ∈ iface_list parsed → n ∈ parsed.*1.
Proof.
  unfold iface_list. intros ([n' d] & Hnd & Hin)%elem_of_flat_map.
  unfold iface_entries in Hin.
  apply list_elem_of_omap in Hin as (intf & _ & Hf).
  destruct (ip intf); [|done]. destruct (truthy _); [|done].
  injection Hf as -> _ _ _ _. apply list_elem_of_fmap. by exists (n, d).
Qed.

Lemma links_in_build parsed : links_in parsed (build_topology parsed).
Proof.
  unfold build_topology.
  assert (Hpre : links_in parsed
                   (pass2 parsed (pass1 parsed (add_nodes parsed empty_graph)))).
  { unfold pass2. apply foldl_preserves_in.
    { intros G [[[[[n1 i1] ip1] m1] b1] [[[[n2 i2] ip2] m2] b2]] Hp HG.
      apply combinations2_elem in Hp as [H1 H2].
      apply iface_list_device in H1, H2.
      unfold pass2_pair. case_decide; [|done].
      apply links_in_add_link; [done..|].
      destruct (has_edge G n1 n2); [done|]. by apply links_in_add_edge. }
    unfold pass1, pass1_from. apply foldl_preserves_in.
    { intros G [a d] Had HG. apply foldl_preserves; [|done].
      intros G' intf HG'. unfold pass1_intf.
      destruct (connects_to intf) as [[b b_if]|]; [|done].
      destruct (in_parsed b parsed) eqn:Hb; [|done].
      apply links_in_add_link.
      - apply list_elem_of_fmap. by exists (a, d).
      - by apply bool_decide_eq_true in Hb.
      - by apply links_in_add_edge. }
    unfold add_nodes. apply foldl_preserves.
    - by intros G [n d] HG.
    - by intros e d a ai b bi ?%elem_of_nil. }
  intros e d a ai b bi Hin Hl. simpl in Hin.
  apply list_elem_of_fmap in Hin as ([e0 d0] & [= -> ->] & Hin0).
  by eapply Hpre.
Qed.

(** Every device looked up by the annotation loop is a key of [parsed]: the
    [KeyError] of [parsed[a]] cannot occur. *)
Lemma build_links_in_parsed parsed u v ed a ai b bi :
  (u, v, ed) ∈ edges (build_topology parsed) → (a, ai, b, bi) ∈ links ed →
  a ∈ parsed.*1 ∧ b ∈ parsed.*1.
Proof.
  intros Hin Hl.
  assert (He : ∃ e, (e, ed) ∈ g_edge (build_topology parsed)).
  { unfold edges in Hin. revert Hin. generalize (@nil string).
    induction (nodes (build_topology parsed)) as [|n ns IH]; intros seen;
      simpl; [by intros ?%elem_of_nil|].
    intros [Hin|Hin]%elem_of_app; [|by eapply IH].
    apply list_elem_of_omap in Hin as ([nbr d] & Hadj & Hf).
    case_decide; [done|]. injection Hf as _ _ ->.
    unfold adj in Hadj.
    apply list_elem_of_omap in Hadj as ([[u' v'] d'] & Hd' & Hf').
    exists (u', v'). repeat case_decide; simplify_eq; done. }
  destruct He as [e He]. by eapply links_in_build.
Qed.

(** ** Pass 2 of [build_topology], for comparison with pass 1 *)

Lemma update_edge_keeps f es u v e d :
  (e, d) ∈ es → ∃ d', (e, d') ∈ update_edge f es u v ∧ (d' = d ∨ d' = f d).
Proof.
  induction es as [|[e0 d0] es IH]; simpl; [by intros ?%elem_of_nil|].
  intros [[= -> ->]|Hin]%elem_of_cons.
  - case_decide.
    + exists (f d0). split; [left|by right].
    + exists d0. split; [left|by left].
  - case_decide.
    + exists d. split; [by right|by left].
    + destruct (IH Hin) as (d' & Hd' & Hor). exists d'. split; [by right|done].
Qed.

Lemma add_link_keeps G u v t e l :
  has_link G e l → has_link (add_link G u v t) e l.
Proof.
  intros (d & Hd & Hl). unfold add_link, has_link. simpl.
  destruct (update_edge_keeps (λ d, set_links (set_add t (links d)) d)
              (g_edge G) u v e d Hd) as (d' & Hd' & [->| ->]).
  - by exists d.
  - eexists. split; [done|]. simpl. unfold set_add.
    case_decide; [done|]. apply elem_of_app. by left.
Qed.

(** The guarded [add_edge] of pass 2 keeps every link. *)
Lemma pass2_pair_keeps G p e l :
  has_link G e l → has_link (pass2_pair G p) e l.
Proof.
  destruct p as [[[[[n1 i1] ip1] m1] b1] [[[[n2 i2] ip2] m2] b2]].
  intros Hl. unfold pass2_pair. case_decide; [|done].
  apply add_link_keeps. destruct (has_edge G n1 n2) eqn:Hhas; [done|].
  destruct Hl as (d & Hd & Hl). exists d. split; [|done].
  unfold add_edge. rewrite Hhas. simpl. apply elem_of_app. by left.
Qed.

Lemma pass2_keeps_links parsed G e l :
  has_link G e l → has_link (pass2 parsed G) e l.
Proof.
  unfold pass2. apply (foldl_preserves (λ G, has_link G e l)).
  intros G' p. apply pass2_pair_keeps.
Qed.

(** The [n1 != n2] guard of pass 2: it adds no self-loop. *)
Lemma pass2_no_self_loop parsed G :
  no_self_loop G → no_self_loop (pass2 parsed G).
Proof.
  unfold pass2. apply foldl_preserves.
  intros G' [[[[[n1 i1] ip1] m1] b1] [[[[n2 i2] ip2] m2] b2]] HG'.
  unfold pass2_pair. case_decide as Hc; [|done]. destruct Hc as [_ Hne].
  intros u v. unfold add_link. simpl. rewrite update_edge_keys.
  destruct (has_edge G' n1 n2) eqn:Hhas; [apply HG'|].
  unfold add_edge. rewrite Hhas. simpl. rewrite fmap_app.
  intros [Hin|Hin]%elem_of_app; [by apply HG'|].
  apply list_elem_of_singleton in Hin. by injection Hin as -> ->.
Qed.

(** ** [G.edges(data=True)] visits every attribute dict *)

Lemma edges_from_cover G a b d seen ns :
  ((a, b), d) ∈ g_edge G → a ∉ seen → b ∉ seen → a ∈ ns ∨ b ∈ ns →
  (a, b, d) ∈ edges_from G seen ns ∨ (b, a, d) ∈ edges_from G seen ns.
Proof.
  intros Hin. revert seen. induction ns as [|n ns IH]; intros seen Ha Hb Hor.
  - destruct Hor as [?%elem_of_nil|?%elem_of_nil]; done.
  - simpl. destruct (decide (n = a)) as [->|Hna].
    + left. apply elem_of_app. left. apply list_elem_of_omap.
      exists (b, d). split; [|by rewrite decide_False].
      unfold adj. apply list_elem_of_omap. exists ((a, b), d).
      split; [done|]. by rewrite decide_True.
    + destruct (decide (n = b)) as [->|Hnb].
      * right. apply elem_of_app. left. apply list_elem_of_omap.
        exists (a, d). split; [|by rewrite decide_False].
        unfold adj. apply list_elem_of_omap. exists ((a, b), d).
        split; [done|]. rewrite decide_False by done. by rewrite decide_True.
      * destruct (IH (n :: seen)) as [H|H].
        -- intros [->|?]%elem_of_cons; done.
        -- intros [->|?]%elem_of_cons; done.
        -- destruct Hor as [[->|?]%elem_of_cons|[->|?]%elem_of_cons]; auto;
             done.
        -- left. apply elem_of_app. by right.
        -- right. apply elem_of_app. by right.
Qed.

(** Every stored edge is listed by [edges], in one orientation: the loop of
    the annotation reaches the attribute dict of every edge. *)
Lemma edges_cover G a b d :
  store_ok G → ((a, b), d) ∈ g_edge G →
  (a, b, d) ∈ edges G ∨ (b, a, d) ∈ edges G.
Proof.
  intros [He _] Hin. apply edges_from_cover; [done| | |].
  - by intros ?%elem_of_nil.
  - by intros ?%elem_of_nil.
  - left. apply (He a b). apply list_elem_of_fmap. by exists ((a, b), d).
Qed.

(** Conversely [edges] lists stored edges only. *)
Lemma edges_sound G u v d :
  (u, v, d) ∈ edges G → ((u, v), d) ∈ g_edge G ∨ ((v, u), d) ∈ g_edge G.
Proof.
  unfold edges. generalize (@nil string).
  induction (nodes G) as [|n ns IH]; intros seen; simpl;
    [by intros ?%elem_of_nil|].
  intros [Hin|Hin]%elem_of_app; [|by eapply IH].
  apply list_elem_of_omap in Hin as ([nbr d'] & Hadj & Hf).
  case_decide; [done|]. injection Hf as -> -> ->.
  unfold adj in Hadj.
  apply list_elem_of_omap in Hadj as ([[u' v'] d''] & Hd' & Hf').
  repeat case_decide; simplify_eq; auto.
Qed.

(** * Further properties of the topology builder *)

(** ** Nodes *)

Lemma set_node_keys ns n a x :
  x ∈ (set_node ns n a).*1 ↔ x ∈ ns.*1 ∨ x = n.
Proof.
  induction ns as [|[m b] ns IH]; simpl.
  - rewrite list_elem_of_singleton, elem_of_nil. tauto.
  - case_decide; subst; simpl.
    + rewrite !elem_of_cons. naive_solver.
    + rewrite !elem_of_cons, IH. tauto.
Qed.

Lemma set_node_NoDup ns n a : NoDup ns.*1 → NoDup (set_node ns n a).*1.
Proof.
  induction ns as [|[m b] ns IH]; simpl.
  - intros _. apply NoDup_singleton.
  - intros [Hm Hnd]%NoDup_cons. case_decide; subst; simpl.
    + by apply NoDup_cons.
    + apply NoDup_cons. split; [|by apply IH].
      rewrite set_node_keys. intros [?| ->]; done.
Qed.

Lemma add_nodes_spec parsed G :
  NoDup (nodes G) →
  NoDup (nodes (add_nodes parsed G))
  ∧ ∀ x, x ∈ nodes (add_nodes parsed G) ↔ x ∈ nodes G ∨ x ∈ parsed.*1.
Proof.
  unfold add_nodes. revert G.
  induction parsed as [|[n d] parsed IH]; intros G Hnd; simpl.
  - split; [done|]. intros x. rewrite elem_of_nil. tauto.
  - destruct (IH (add_node G n (node_attr_of d))) as [Hnd' Hx].
    { by apply set_node_NoDup. }
    split; [done|]. intros x. rewrite Hx, elem_of_cons.
    unfold nodes at 1. simpl. rewrite set_node_keys. unfold nodes. tauto.
Qed.

Lemma ensure_node_id ns n : n ∈ ns.*1 → ensure_node ns n = ns.
Proof. intros H. unfold ensure_node. by rewrite decide_True. Qed.

(** [add_edge] between existing nodes leaves the node table alone. *)
Lemma add_edge_nodes G u v :
  u ∈ nodes G → v ∈ nodes G → g_node (add_edge G u v) = g_node G.
Proof.
  intros Hu Hv. unfold add_edge.
  rewrite (ensure_node_id _ u Hu), (ensure_node_id _ v Hv).
  by destruct (has_edge G u v).
Qed.

Lemma pass1_intf_nodes parsed a G intf :
  (∀ x, x ∈ parsed.*1 → x ∈ nodes G) → a ∈ parsed.*1 →
  g_node (pass1_intf parsed a G intf) = g_node G.
Proof.
  intros Hk Ha. unfold pass1_intf.
  destruct (connects_to intf) as [[b b_if]|]; [|done].
  destruct (in_parsed b parsed) eqn:Hb; [|done]. simpl.
  apply bool_decide_eq_true in Hb. apply add_edge_nodes; auto.
Qed.

Lemma pass2_pair_nodes parsed G p :
  (∀ x, x ∈ parsed.*1 → x ∈ nodes G) → p ∈ combinations2 (iface_list parsed) →
  g_node (pass2_pair G p) = g_node G.
Proof.
  destruct p as [[[[[n1 i1] ip1] m1] b1] [[[[n2 i2] ip2] m2] b2]].
  intros Hk [H1 H2]%combinations2_elem.
  apply iface_list_device in H1, H2.
  unfold pass2_pair. case_decide; [|done]. simpl.
  destruct (has_edge G n1 n2); [done|]. apply add_edge_nodes; auto.
Qed.

(** The two edge passes and the annotation neither add nor drop a node. *)
Lemma build_topology_nodes parsed :
  nodes (build_topology parsed) = nodes (add_nodes parsed empty_graph).
Proof.
  unfold build_topology. rewrite nodes_annotate.
  set (G0 := add_nodes parsed empty_graph).
  assert (Hk0 : ∀ x, x ∈ parsed.*1 → x ∈ nodes G0).
  { intros x Hx. apply (add_nodes_spec parsed empty_graph); [constructor|].
    by right. }
  assert (H1 : g_node (pass1 parsed G0) = g_node G0).
  { unfold pass1, pass1_from.
    apply (foldl_preserves_in (λ G, g_node G = g_node G0)); [|done].
    intros G [a d] Had HG.
    apply (foldl_preserves (λ G, g_node G = g_node G0)); [|done].
    intros G' intf HG'. rewrite <- HG'. apply pass1_intf_nodes.
    - unfold nodes. by rewrite HG'.
    - apply list_elem_of_fmap. by exists (a, d). }
  unfold nodes, pass2.
  rewrite (foldl_preserves_in (λ G, g_node G = g_node G0)); [done| |done].
  intros G p Hp HG. rewrite <- HG. eapply pass2_pair_nodes; [|done].
  unfold nodes. by rewrite HG.
Qed.

(** X1: the nodes of the built graph are the devices of the input, each
    once; a hint that names an unknown device adds no node. *)
Theorem X1_nodes_are_devices parsed :
  NoDup (nodes (build_topology parsed))
  ∧ ∀ x, x ∈ nodes (build_topology parsed) ↔ x ∈ parsed.*1.
Proof.
  rewrite build_topology_nodes.
  destruct (add_nodes_spec parsed empty_graph) as [Hnd Hx]; [constructor|].
  split; [done|]. intros x. rewrite Hx. unfold nodes. simpl.
  rewrite elem_of_nil. tauto.
Qed.

(** ** Edges *)

Lemma edge_data_Some es u v d :
  edge_data es u v = Some d → ∃ k, (k, d) ∈ es ∧ same_edge u v k.
Proof.
  induction es as [|[e d0] es IH]; simpl; [done|].
  case_decide.
  - intros [= ->]. exists e. split; [left|done].
  - intros (k & Hk & Hs)%IH. exists k. split; [by right|done].
Qed.

Lemma has_edge_keys G u v :
  has_edge G u v = true ↔ ∃ k, k ∈ (g_edge G).*1 ∧ same_edge u v k.
Proof.
  unfold has_edge. rewrite bool_decide_eq_true.
  destruct (edge_data (g_edge G) u v) as [d|] eqn:E.
  - split; [intros _|by eauto].
    apply edge_data_Some in E as (k & Hk & Hs). exists k. split; [|done].
    apply list_elem_of_fmap. by exists (k, d).
  - split; [by intros [? ?]|]. intros (k & Hk & Hs).
    exfalso. by apply (proj1 (edge_data_None _ _ _) E k).
Qed.

Lemma add_edge_keys_mono G u v k :
  k ∈ (g_edge G).*1 → k ∈ (g_edge (add_edge G u v)).*1.
Proof.
  intros Hk. unfold add_edge. destruct (has_edge G u v); simpl.
  - by rewrite update_edge_keys.
  - rewrite fmap_app. apply elem_of_app. by left.
Qed.

Lemma add_edge_has_edge G u v : has_edge (add_edge G u v) u v = true.
Proof.
  apply has_edge_keys. unfold add_edge.
  destruct (has_edge G u v) eqn:E; simpl.
  - rewrite update_edge_keys. by apply has_edge_keys.
  - exists (u, v). split; [|by left].
    rewrite fmap_app. apply elem_of_app. right. left.
Qed.

Lemma pass1_intf_keys_mono parsed a G intf k :
  k ∈ (g_edge G).*1 → k ∈ (g_edge (pass1_intf parsed a G intf)).*1.
Proof.
  intros Hk. unfold pass1_intf.
  destruct (connects_to intf) as [[b b_if]|]; [|done].
  destruct (in_parsed b parsed); [|done]. simpl.
  rewrite update_edge_keys. by apply add_edge_keys_mono.
Qed.

Lemma pass2_pair_keys_mono G p k :
  k ∈ (g_edge G).*1 → k ∈ (g_edge (pass2_pair G p)).*1.
Proof.
  destruct p as [[[[[n1 i1] ip1] m1] b1] [[[[n2 i2] ip2] m2] b2]].
  intros Hk. unfold pass2_pair. case_decide; [|done]. simpl.
  rewrite update_edge_keys.
  destruct (has_edge G n1 n2); [done|]. by apply add_edge_keys_mono.
Qed.

Lemma pass2_keys_mono parsed G k :
  k ∈ (g_edge G).*1 → k ∈ (g_edge (pass2 parsed G)).*1.
Proof.
  unfold pass2. apply (foldl_preserves (λ G, k ∈ (g_edge G).*1)).
  intros G' p. apply pass2_pair_keys_mono.
Qed.

Lemma annotate_keys parsed G : (g_edge (annotate parsed G)).*1 = (g_edge G).*1.
Proof.
  simpl. rewrite <- list_fmap_compose. apply list_fmap_ext. by intros _ [] _.
Qed.

(** A property that one iteration establishes and all preserve holds after
    the loop. *)
Lemma foldl_establishes {A B} (Q : A → Prop) (f : A → B → A) (l : list B) a x :
  x ∈ l → (∀ a, Q (f a x)) → (∀ a b, Q a → Q (f a b)) → Q (foldl f a l).
Proof.
  intros Hx Hest Hpres. revert a.
  induction l as [|b l IH]; intros a; [by apply elem_of_nil in Hx|].
  apply elem_of_cons in Hx as [->|Hx]; simpl.
  - apply foldl_preserves; [done|]. apply Hest.
  - by apply IH.
Qed.

Lemma pass1_hint_edge parsed G a d intf b b_if :
  (a, d) ∈ parsed → intf ∈ interfaces d →
  connects_to intf = Some (b, b_if) → b ∈ parsed.*1 →
  has_edge (pass1 parsed G) a b = true.
Proof.
  intros Had Hintf Hct Hb. apply has_edge_keys.
  unfold pass1, pass1_from.
  apply (foldl_establishes
           (λ G, ∃ k, k ∈ (g_edge G).*1 ∧ same_edge a b k) _ _ _ (a, d) Had).
  - intros G0.
    apply (foldl_establishes
             (λ G, ∃ k, k ∈ (g_edge G).*1 ∧ same_edge a b k) _ _ _ intf Hintf).
    + intros G1. unfold pass1_intf. rewrite Hct.
      unfold in_parsed. rewrite bool_decide_true by done. simpl.
      rewrite update_edge_keys. apply has_edge_keys, add_edge_has_edge.
    + intros G1 i (k & Hk & Hs). exists k. split; [|done].
      by apply pass1_intf_keys_mono.
  - intros G0 [a' d'] (k & Hk & Hs). exists k. split; [|done].
    apply (foldl_preserves (λ G, k ∈ (g_edge G).*1)); [|done].
    intros G1 i. apply pass1_intf_keys_mono.
Qed.

(** X2: every interface hint whose peer is a device of the input yields an
    edge between the device and the peer in the built graph. *)
Theorem X2_hint_yields_edge parsed a d intf b b_if :
  (a, d) ∈ parsed → intf ∈ interfaces d →
  connects_to intf = Some (b, b_if) → b ∈ parsed.*1 →
  has_edge (build_topology parsed) a b = true.
Proof.
  intros Had Hintf Hct Hb.
  pose proof (pass1_hint_edge parsed (add_nodes parsed empty_graph)
                a d intf b b_if Had Hintf Hct Hb) as H.
  apply has_edge_keys in H as (k & Hk & Hs). apply has_edge_keys.
  exists k. split; [|done]. unfold build_topology.
  rewrite annotate_keys. by apply pass2_keys_mono.
Qed.

Lemma X2_hint_yields_edge_witness :
  has_edge (build_topology parallel_net) "R1" "R2" = true.
Proof.
  apply (X2_hint_yields_edge parallel_net "R1"
           (device [plain_if "Fa0/0" (Some ("R2", "Fa0/0")%string);
                    plain_if "Fa0/1" (Some ("R2", "Fa0/1")%string)] None)
           (plain_if "Fa0/0" (Some ("R2", "Fa0/0")%string)) "R2" "Fa0/0").
  - left.
  - left.
  - reflexivity.
  - vm_compute. right. left.
Defined.

(** ** Self-loops *)

Lemma pass1_no_self_loop parsed G :
  no_self_hint parsed → no_self_loop G → no_self_loop (pass1 parsed G).
Proof.
  intros Hh. unfold pass1, pass1_from. apply foldl_preserves_in.
  intros G0 [a d] Had HG0. apply foldl_preserves_in; [|done].
  intros G1 intf Hintf HG1. unfold pass1_intf.
  destruct (connects_to intf) as [[b b_if]|] eqn:Hct; [|done].
  destruct (in_parsed b parsed); [|done].
  intros u v. unfold add_link. simpl. rewrite update_edge_keys.
  unfold add_edge. destruct (has_edge G1 a b); simpl.
  - rewrite update_edge_keys. apply HG1.
  - rewrite fmap_app. intros [Hin|Hin]%elem_of_app; [by apply HG1|].
    apply list_elem_of_singleton in Hin. injection Hin as -> ->.
    intros ->. by eapply Hh.
Qed.

(** X3: when no interface hint names its own device, the built graph has no
    self-loop: pass 2 never adds one, and pass 1 only for such a hint. *)
Theorem X3_no_self_loop_without_self_hint parsed u v ed :
  no_self_hint parsed → (u, v, ed) ∈ edges (build_topology parsed) → u ≠ v.
Proof.
  intros Hh Hin.
  assert (Hns : no_self_loop (build_topology parsed)).
  { unfold build_topology. intros x y. rewrite annotate_keys.
    apply pass2_no_self_loop, pass1_no_self_loop; [done|].
    unfold no_self_loop.
    assert (Hk : g_edge (add_nodes parsed empty_graph) = []).
    { unfold add_nodes. by apply (foldl_preserves (λ G, g_edge G = []));
        [intros G [n d] HG|]. }
    rewrite Hk. by intros x' y' ?%elem_of_nil. }
  apply edges_sound in Hin as [Hin|Hin].
  - apply (Hns u v). apply list_elem_of_fmap. by exists ((u, v), ed).
  - intros ->. apply (Hns v v); [|done].
    apply list_elem_of_fmap. by exists ((v, v), ed).
Qed.

Lemma X3_no_self_loop_witness :
  ("R2", "R1",
   mkEdgeAttr [("R2", "Gi0/0", "R1", "Gi0/0")] (Some 100000)
              (Some [(9000, 1500)]))%string
    ∈ edges (build_topology subnet_net)
  ∧ "R2"%string ≠ "R1"%string.
Proof.
  assert (H : ("R2", "R1",
               mkEdgeAttr [("R2", "Gi0/0", "R1", "Gi0/0")] (Some 100000)
                          (Some [(9000, 1500)]))%string
              ∈ edges (build_topology subnet_net)) by (vm_compute; left).
  split; [exact H|].
  apply (X3_no_self_loop_without_self_hint subnet_net _ _ _) in H; [exact H|].
  intros a d intf b b_if Had Hintf Hct.
  repeat (apply elem_of_cons in Had as [Had|Had]; [injection Had as -> ->|]);
    try (by apply elem_of_nil in Had);
    repeat (apply elem_of_cons in Hintf as [->|Hintf]; [discriminate Hct|]);
    by apply elem_of_nil in Hintf.
Defined.

(** ** Link sets *)

Lemma update_edge_elem_or f es u v e d' :
  (e, d') ∈ update_edge f es u v →
  (e, d') ∈ es ∨ (same_edge u v e ∧ ∃ d, (e, d) ∈ es ∧ d' = f d).
Proof.
  induction es as [|[e0 d0] es IH]; simpl; [by intros ?%elem_of_nil|].
  case_decide.
  - intros [[= -> ->]|Hin]%elem_of_cons.
    + right. split; [done|]. exists d0. split; [left|done].
    + left. by right.
  - intros [[= -> ->]|Hin]%elem_of_cons; [left; left|].
    destruct (IH Hin) as [?|(Hs & d & Hd & ->)]; [left; by right|].
    right. split; [done|]. exists d. split; [by right|done].
Qed.

Lemma update_edge_compose f g es u v :
  update_edge f (update_edge g es u v) u v = update_edge (f ∘ g) es u v.
Proof.
  induction es as [|[e d] es IH]; simpl; [done|].
  case_decide; simpl.
  - by rewrite decide_True.
  - rewrite decide_False by done. by f_equal.
Qed.

Lemma update_edge_snoc_new f es u v k d :
  edge_data es u v = None → same_edge u v k →
  update_edge f (es ++ [(k, d)]) u v = es ++ [(k, f d)].
Proof.
  intros Hn Hk. induction es as [|[e0 d0] es IH]; simpl in *.
  - by rewrite decide_True.
  - case_decide; [done|]. f_equal. by apply IH.
Qed.

Lemma update_edge_hits f es u v d0 :
  edge_data es u v = Some d0 →
  ∃ e, same_edge u v e ∧ (e, f d0) ∈ update_edge f es u v.
Proof.
  induction es as [|[e d] es IH]; simpl; [done|].
  case_decide.
  - intros [= ->]. exists e. split; [done|left].
  - intros (e' & Hs & Hin)%IH. exists e'. split; [done|by right].
Qed.

Lemma set_add_elem t s : t ∈ set_add t s.
Proof.
  unfold set_add. case_decide; [done|]. apply elem_of_app. right. left.
Qed.

Lemma set_add_NoDup t s : NoDup s → NoDup (set_add t s).
Proof.
  intros Hnd. unfold set_add. case_decide; [done|].
  apply NoDup_app. split; [done|]. split; [|apply NoDup_singleton].
  by intros x Hx ->%list_elem_of_singleton.
Qed.

Lemma set_add_inv t s x : x ∈ set_add t s → x ∈ s ∨ x = t.
Proof.
  unfold set_add. case_decide; [by left|].
  intros [?| ->%list_elem_of_singleton]%elem_of_app; auto.
Qed.

Lemma set_add_nonempty t s : set_add t s ≠ [].
Proof. intros H. pose proof (set_add_elem t s) as Hin. rewrite H in Hin.
  by apply elem_of_nil in Hin. Qed.

Lemma has_edge_false G u v : has_edge G u v = false → edge_data (g_edge G) u v = None.
Proof.
  unfold has_edge. intros H%bool_decide_eq_false. by apply eq_None_not_Some.
Qed.

(** The body of pass 1: the entries after [add_edge] then [add_link]. *)
Lemma hint_step_entries G a b t e d' :
  (e, d') ∈ g_edge (add_link (add_edge G a b) a b t) →
  (e, d') ∈ g_edge G ∨ (same_edge a b e ∧ links d' = [t]).
Proof.
  unfold add_link, add_edge. destruct (has_edge G a b) eqn:Hhas; simpl.
  - rewrite update_edge_compose.
    intros [?|(Hs & d & Hd & ->)]%update_edge_elem_or; [by left|].
    right. split; [done|]. reflexivity.
  - rewrite (update_edge_snoc_new _ _ _ _ (a, b));
      [|by apply has_edge_false|by left].
    intros [?|Hin]%elem_of_app; [by left|].
    apply list_elem_of_singleton in Hin. injection Hin as -> ->.
    right. split; [by left|]. reflexivity.
Qed.

(** The body of pass 2: the entries after the guarded [add_edge] and
    [add_link]. *)
Lemma subnet_step_entries G a b t e d' :
  (e, d') ∈ g_edge (add_link (if has_edge G a b then G else add_edge G a b)
                             a b t) →
  (e, d') ∈ g_edge G
  ∨ (same_edge a b e ∧ links d' = [t])
  ∨ (same_edge a b e ∧ ∃ d, (e, d) ∈ g_edge G ∧ links d' = set_add t (links d)).
Proof.
  destruct (has_edge G a b) eqn:Hhas.
  - unfold add_link. simpl.
    intros [?|(Hs & d & Hd & ->)]%update_edge_elem_or; [by left|].
    right. right. split; [done|]. by exists d.
  - intros H. pose proof (hint_step_entries G a b t e d') as Hh.
    unfold add_link, add_edge in *. rewrite Hhas in *. simpl in *.
    destruct (Hh H) as [?|?]; auto.
Qed.

Lemma links_sound_hint_step parsed G a b ai bi :
  (a, ai, b, bi) ∈ hint_links parsed →
  links_sound parsed G →
  links_sound parsed (add_link (add_edge G a b) a b (a, ai, b, bi)).
Proof.
  intros Ht HG e d' [Hin|[Hs Hl]]%hint_step_entries; [by apply HG|].
  rewrite Hl. split; [done|]. split; [apply NoDup_singleton|].
  intros l ->%list_elem_of_singleton. split; [done|by left].
Qed.

Lemma links_sound_subnet_step parsed G a b ai bi :
  (a, ai, b, bi) ∈ inferred_links parsed →
  links_sound parsed G →
  links_sound parsed
    (add_link (if has_edge G a b then G else add_edge G a b) a b (a, ai, b, bi)).
Proof.
  intros Ht HG e d' [Hin|[[Hs Hl]|(Hs & d & Hd & Hl)]]%subnet_step_entries.
  - by apply HG.
  - rewrite Hl. split; [done|]. split; [apply NoDup_singleton|].
    intros l ->%list_elem_of_singleton. split; [done|by right].
  - rewrite Hl. destruct (HG e d Hd) as (Hne & Hnd & Hall).
    split; [apply set_add_nonempty|]. split; [by apply set_add_NoDup|].
    intros l [Hl'| ->]%set_add_inv; [by apply Hall|].
    split; [done|by right].
Qed.

Lemma hint_links_elem parsed a d intf b b_if :
  (a, d) ∈ parsed → intf ∈ interfaces d →
  connects_to intf = Some (b, b_if) → in_parsed b parsed = true →
  (a, name intf, b, b_if) ∈ hint_links parsed.
Proof.
  intros Had Hintf Hct Hb. unfold hint_links. apply elem_of_flat_map.
  exists (a, d). split; [done|]. apply list_elem_of_omap.
  exists intf. split; [done|]. by rewrite Hct, Hb.
Qed.

Lemma add_nodes_no_edge parsed : g_edge (add_nodes parsed empty_graph) = [].
Proof.
  unfold add_nodes. apply (foldl_preserves (λ G, g_edge G = [])); [|done].
  by intros G [n d] HG.
Qed.

Lemma links_sound_build parsed : links_sound parsed (build_topology parsed).
Proof.
  unfold build_topology.
  assert (Hpre : links_sound parsed
                   (pass2 parsed (pass1 parsed (add_nodes parsed empty_graph)))).
  { unfold pass2. apply foldl_preserves_in.
    { intros G p Hp HG.
      destruct p as [[[[[n1 i1] ip1] m1] b1] [[[[n2 i2] ip2] m2] b2]] eqn:Ep.
      unfold pass2_pair. case_decide as Hc; [|done].
      apply links_sound_subnet_step; [|done].
      unfold inferred_links. apply list_elem_of_omap.
      exists p. subst p. split; [done|]. simpl. by rewrite decide_True. }
    unfold pass1, pass1_from. apply foldl_preserves_in.
    { intros G [a d] Had HG. apply foldl_preserves_in; [|done].
      intros G' intf Hintf HG'. unfold pass1_intf.
      destruct (connects_to intf) as [[b b_if]|] eqn:Hct; [|done].
      destruct (in_parsed b parsed) eqn:Hb; [|done].
      apply links_sound_hint_step; [|done]. by eapply hint_links_elem. }
    intros e d. rewrite add_nodes_no_edge. by intros ?%elem_of_nil. }
  intros e d' Hin. simpl in Hin.
  apply list_elem_of_fmap in Hin as ([e0 d0] & [= -> ->] & Hin0).
  simpl. by apply Hpre.
Qed.

Lemma same_edge_swap u v a b : same_edge a b (v, u) ↔ same_edge a b (u, v).
Proof. unfold same_edge. simpl. tauto. Qed.

(** X4: every edge of the built graph has a non-empty link set without
    duplicates; each of its Link tuples joins the edge's two devices and
    comes from an interface hint or from a shared-subnet pair. *)
Theorem X4_edge_links_sound parsed u v ed :
  (u, v, ed) ∈ edges (build_topology parsed) →
  links ed ≠ [] ∧ NoDup (links ed)
  ∧ ∀ l, l ∈ links ed →
      joins (u, v) l ∧ (l ∈ hint_links parsed ∨ l ∈ inferred_links parsed).
Proof.
  intros [Hin|Hin]%edges_sound.
  - by apply (links_sound_build parsed (u, v) ed).
  - destruct (links_sound_build parsed (v, u) ed Hin) as (Hne & Hnd & Hall).
    split; [done|]. split; [done|]. intros l Hl.
    destruct (Hall l Hl) as [Hj Hor]. split; [|done].
    unfold joins in *. by apply same_edge_swap.
Qed.

Lemma X4_edge_links_sound_witness :
  let ed := mkEdgeAttr [("R2", "Gi0/0", "R1", "Gi0/0")%string] (Some 100000)
                       (Some [(9000, 1500)]) in
  ("R2", "R1", ed)%string ∈ edges (build_topology subnet_net)
  ∧ links ed ≠ [] ∧ NoDup (links ed)
  ∧ ∀ l, l ∈ links ed →
      joins ("R2", "R1")%string l
      ∧ (l ∈ hint_links subnet_net ∨ l ∈ inferred_links subnet_net).
Proof.
  intros ed.
  assert (H : ("R2", "R1", ed)%string ∈ edges (build_topology subnet_net))
    by (vm_compute; left).
  split; [exact H|].
  exact (X4_edge_links_sound subnet_net _ _ _ H).
Defined.

(** ** Shared-subnet adjacency *)

Lemma combinations2_pair {A} (l : list A) x y :
  x ∈ l → y ∈ l → x ≠ y → (x, y) ∈ combinations2 l ∨ (y, x) ∈ combinations2 l.
Proof.
  induction l as [|a l IH]; [by intros ?%elem_of_nil|].
  intros [->|Hx]%elem_of_cons [->|Hy]%elem_of_cons Hne; simpl.
  - done.
  - left. apply elem_of_app. left. apply list_elem_of_fmap. by exists y.
  - right. apply elem_of_app. left. apply list_elem_of_fmap. by exists x.
  - destruct (IH Hx Hy Hne); [left|right]; apply elem_of_app; by right.
Qed.

Lemma iface_list_elem parsed n d intf a :
  (n, d) ∈ parsed → intf ∈ interfaces d → ip intf = Some a → a ≠ ""%string →
  (n, name intf, a, mtu intf, bw intf) ∈ iface_list parsed.
Proof.
  intros Hnd Hintf Hip Ha. unfold iface_list. apply elem_of_flat_map.
  exists (n, d). split; [done|]. unfold iface_entries.
  apply list_elem_of_omap. exists intf. split; [done|].
  rewrite Hip. simpl. by rewrite bool_decide_true.
Qed.

Lemma add_link_present G u v t :
  has_edge G u v = true →
  ∃ e, same_edge u v e ∧ has_link (add_link G u v t) e t.
Proof.
  unfold has_edge. intros [d0 Hd0]%bool_decide_eq_true.
  destruct (update_edge_hits (λ d, set_links (set_add t (links d)) d)
              _ _ _ _ Hd0) as (e & Hs & Hin).
  exists e. split; [done|]. eexists. split; [exact Hin|]. apply set_add_elem.
Qed.

Lemma pass2_pair_present G n1 i1 ip1 m1 b1 n2 i2 ip2 m2 b2 :
  prefix24 ip1 = prefix24 ip2 → n1 ≠ n2 →
  ∃ e, same_edge n1 n2 e
       ∧ has_link (pass2_pair G ((n1, i1, ip1, m1, b1), (n2, i2, ip2, m2, b2)))
                  e (n1, i1, n2, i2).
Proof.
  intros Hp Hne. unfold pass2_pair. rewrite decide_True by done.
  apply add_link_present. destruct (has_edge G n1 n2) eqn:E; [done|].
  apply add_edge_has_edge.
Qed.

Lemma pass2_link_present parsed G n1 i1 ip1 m1 b1 n2 i2 ip2 m2 b2 :
  ((n1, i1, ip1, m1, b1), (n2, i2, ip2, m2, b2))
    ∈ combinations2 (iface_list parsed) →
  prefix24 ip1 = prefix24 ip2 → n1 ≠ n2 →
  ∃ e, same_edge n1 n2 e ∧ has_link (pass2 parsed G) e (n1, i1, n2, i2).
Proof.
  intros Hin Hp Hne. unfold pass2.
  apply (foldl_establishes
           (λ G, ∃ e, same_edge n1 n2 e ∧ has_link G e (n1, i1, n2, i2))
           _ _ _ _ Hin).
  - intros G0. by apply pass2_pair_present.
  - intros G0 p (e & Hs & Hl). exists e. split; [done|].
    by apply pass2_pair_keeps.
Qed.

Lemma annotate_has_link parsed G e l :
  has_link G e l → has_link (annotate parsed G) e l.
Proof.
  intros (d & Hd & Hl). exists (annotate_edge parsed d). split; [|done].
  simpl. apply list_elem_of_fmap. by exists (e, d).
Qed.

Lemma has_link_edges G e l :
  store_ok G → has_link G e l →
  ∃ u v ed, (u, v, ed) ∈ edges G ∧ same_edge e.1 e.2 (u, v) ∧ l ∈ links ed.
Proof.
  intros Hok (d & Hd & Hl). destruct e as [a b].
  destruct (edges_cover G a b d Hok Hd) as [H|H].
  - exists a, b, d. split; [done|]. split; [by left|done].
  - exists b, a, d. split; [done|]. split; [by right|done].
Qed.

Lemma same_edge_trans_key u v e x y :
  same_edge u v e → same_edge e.1 e.2 (x, y) → same_edge u v (x, y).
Proof. destruct e. unfold same_edge. simpl. naive_solver. Qed.

(** X5: two interfaces with addresses on distinct devices whose addresses
    share their first three dot-separated fields give an edge between the
    two devices, and the Link tuple of the two interfaces, in one
    orientation, is in its link set. *)
Theorem X5_shared_subnet_yields_link parsed n1 d1 intf1 a1 n2 d2 intf2 a2 :
  (n1, d1) ∈ parsed → (n2, d2) ∈ parsed →
  intf1 ∈ interfaces d1 → intf2 ∈ interfaces d2 →
  ip intf1 = Some a1 → ip intf2 = Some a2 →
  a1 ≠ ""%string → a2 ≠ ""%string →
  prefix24 a1 = prefix24 a2 → n1 ≠ n2 →
  ∃ u v ed,
    (u, v, ed) ∈ edges (build_topology parsed)
    ∧ same_edge n1 n2 (u, v)
    ∧ ((n1, name intf1, n2, name intf2) ∈ links ed
       ∨ (n2, name intf2, n1, name intf1) ∈ links ed).
Proof.
  intros H1 H2 Hi1 Hi2 Hip1 Hip2 Ha1 Ha2 Hp Hne.
  pose proof (iface_list_elem _ _ _ _ _ H1 Hi1 Hip1 Ha1) as E1.
  pose proof (iface_list_elem _ _ _ _ _ H2 Hi2 Hip2 Ha2) as E2.
  destruct (combinations2_pair _ _ _ E1 E2) as [Hc|Hc]; [congruence| |].
  - destruct (pass2_link_present parsed
                (pass1 parsed (add_nodes parsed empty_graph))
                _ _ _ _ _ _ _ _ _ _ Hc Hp Hne) as (e & Hs & Hl).
    apply (annotate_has_link parsed) in Hl.
    destruct (has_link_edges _ _ _ (store_ok_build parsed) Hl)
      as (u & v & ed & Hin & Hs' & Hl').
    exists u, v, ed. split; [done|].
    split; [by eapply same_edge_trans_key|by left].
  - destruct (pass2_link_present parsed
                (pass1 parsed (add_nodes parsed empty_graph))
                _ _ _ _ _ _ _ _ _ _ Hc (eq_sym Hp) (not_eq_sym Hne))
      as (e & Hs & Hl).
    apply (annotate_has_link parsed) in Hl.
    destruct (has_link_edges _ _ _ (store_ok_build parsed) Hl)
      as (u & v & ed & Hin & Hs' & Hl').
    exists u, v, ed. split; [done|]. split; [|by right].
    pose proof (same_edge_trans_key _ _ _ _ _ Hs Hs') as Hs2.
    unfold same_edge in *. simpl in *. tauto.
Qed.

Lemma X5_shared_subnet_witness :
  ∃ u v ed,
    (u, v, ed) ∈ edges (build_topology subnet_net)
    ∧ same_edge "R1" "R2" (u, v)
    ∧ (("R1", "Gi0/0", "R2", "Gi0/0")%string ∈ links ed
       ∨ ("R2", "Gi0/0", "R1", "Gi0/0")%string ∈ links ed).
Proof.
  apply (X5_shared_subnet_yields_link subnet_net
           "R1" (device [addr_if "Gi0/0" "10.0.0.1" 1500 100000] None)
           (addr_if "Gi0/0" "10.0.0.1" 1500 100000) "10.0.0.1"
           "R2" (device [addr_if "Gi0/0" "10.0.0.2" 9000 100000] None)
           (addr_if "Gi0/0" "10.0.0.2" 9000 100000) "10.0.0.2").
  - right. left.
  - left.
  - left.
  - left.
  - reflexivity.
  - reflexivity.
  - discriminate.
  - discriminate.
  - reflexivity.
  - discriminate.
Defined.

(** ** Capacity with positive bandwidths *)

Lemma interfaces_of_elem parsed a x :
  x ∈ interfaces_of parsed a → ∃ d, (a, d) ∈ parsed ∧ x ∈ interfaces d.
Proof.
  induction parsed as [|[n d] parsed IH]; simpl; [by intros ?%elem_of_nil|].
  case_decide; subst.
  - intros Hx. exists d. split; [left|done].
  - intros (d' & Hd' & Hx)%IH. exists d'. split; [by right|done].
Qed.

Lemma side_bw_pos parsed a ai : positive_bw parsed → 0 < side_bw parsed a ai.
Proof.
  intros Hpos. unfold side_bw.
  destruct (last _) as [intf|] eqn:E; [|lia].
  apply last_Some_elem_of, list_elem_of_filter in E as [_ Hin].
  apply interfaces_of_elem in Hin as (d & Hd & Hin). by eapply Hpos.
Qed.

Lemma sum_Z_pos (l : list Z) :
  Forall (λ z, 0 < z) l → l ≠ [] → 0 < sum_Z l.
Proof.
  unfold sum_Z. intros Hall Hne.
  assert (Hge : ∀ k, Forall (λ z, 0 < z) k → 0 ≤ foldr Z.add 0 k).
  { induction 1 as [|z k Hz _ IH]; simpl; lia. }
  destruct Hall as [|z k Hz Hk]; [done|]. simpl.
  specialize (Hge k Hk). lia.
Qed.

Lemma sum_min_bw_pos parsed ls :
  positive_bw parsed → ls ≠ [] → 0 < sum_min_bw parsed ls.
Proof.
  intros Hpos Hne. unfold sum_min_bw. apply sum_Z_pos.
  - apply Forall_fmap, Forall_forall. intros [[[a ai] b] bi] _. simpl.
    pose proof (side_bw_pos parsed a ai Hpos).
    pose proof (side_bw_pos parsed b bi Hpos). lia.
  - by destruct ls.
Qed.

(** X6: when every configured bandwidth is positive, the capacity of every
    edge of the built graph is exactly the sum over its links of the smaller
    side bandwidth, and it is positive: the 100000 default for a zero sum
    is never used. *)
Theorem X6_capacity_exact_when_positive parsed u v ed :
  positive_bw parsed →
  (u, v, ed) ∈ edges (build_topology parsed) →
  capacity_kbps ed = Some (sum_min_bw parsed (links ed))
  ∧ 0 < sum_min_bw parsed (links ed).
Proof.
  intros Hpos Hin.
  assert (Hne : links ed ≠ []).
  { apply edges_sound in Hin as [Hin|Hin];
      by eapply (links_sound_build parsed). }
  pose proof (sum_min_bw_pos parsed (links ed) Hpos Hne) as Hsum.
  split; [|done].
  rewrite (edges_build_annotated _ _ _ _ Hin) at 1. simpl.
  rewrite links_capacity_sum. by rewrite decide_False by lia.
Qed.

Lemma X6_capacity_exact_witness :
  let ed := mkEdgeAttr [("R2", "Gi0/0", "R1", "Gi0/0")%string] (Some 100000)
                       (Some [(9000, 1500)]) in
  capacity_kbps ed = Some (sum_min_bw subnet_net (links ed))
  ∧ 0 < sum_min_bw subnet_net (links ed).
Proof.
  intros ed.
  apply (X6_capacity_exact_when_positive subnet_net "R2" "R1" ed).
  - intros n d intf Hnd Hintf.
    repeat (apply elem_of_cons in Hnd as [Hnd|Hnd]; [injection Hnd as -> ->|]);
      try (by apply elem_of_nil in Hnd);
      repeat (apply elem_of_cons in Hintf as [->|Hintf]; [by vm_compute|]);
      by apply elem_of_nil in Hintf.
  - vm_compute. left.
Defined.

(** * Further properties of the issue detector *)

Lemma detect_issues_app parsed G issues :
  detect_issues parsed G = Some issues →
  ∃ cycles, cycle_basis G = Some cycles
    ∧ issues = duplicate_ip_issues parsed ++ wrong_vlan_issues parsed
               ++ gateway_issues parsed ++ mtu_issues G
               ++ loop_issues cycles ++ bgp_issues parsed.
Proof.
  unfold detect_issues. destruct (cycle_basis G) as [cycles|]; [|done].
  simpl. intros [= <-]. by exists cycles.
Qed.

Lemma not_in_other_type t i l :
  Forall (λ j, type_of j = t) l → type_of i ≠ t → i ∉ l.
Proof.
  intros Hall Hne Hin. rewrite Forall_forall in Hall. by apply Hne, Hall.
Qed.

Lemma wrong_vlan_issues_elem parsed n i v :
  wrong_vlan_label n i v ∈ wrong_vlan_issues parsed ↔ undefined_vlan parsed n i v.
Proof.
  unfold wrong_vlan_issues, undefined_vlan. rewrite elem_of_flat_map. split.
  - intros ([n' d] & Hnd & Hin). case_decide as Hsw; [|by apply elem_of_nil in Hin].
    apply list_elem_of_omap in Hin as (intf & Hintf & Hf).
    destruct (vlan intf) as [v'|] eqn:Hv; [|done].
    destruct (truthy (Some v') && bool_decide (v' ∉ (vlans d).*1)) eqn:Hc;
      [|done].
    injection Hf as -> Hname ->. apply andb_true_iff in Hc as [Ht Hnin].
    simpl in Ht. apply bool_decide_eq_true in Ht, Hnin.
    exists d, intf. by repeat split.
  - intros (d & intf & Hnd & Hsw & Hintf & Hname & Hv & Hne & Hnin).
    exists (n, d). split; [done|]. rewrite decide_True by done.
    apply list_elem_of_omap. exists intf. split; [done|].
    rewrite Hv. simpl. rewrite !bool_decide_true by done. simpl. by rewrite Hname.
Qed.

Lemma same24_spec gw ifs : same24 gw ifs = true ↔ shares_prefix gw ifs.
Proof.
  unfold same24, shares_prefix.
  assert (Hgen : ∀ acc,
    foldl (λ acc intf,
             match ip intf with
             | Some a => if truthy (ip intf) && bool_decide (prefix24 a = prefix24 gw)
                         then true else acc
             | None => acc
             end) acc ifs = true
    ↔ acc = true ∨ ∃ intf a, intf ∈ ifs ∧ ip intf = Some a ∧ a ≠ ""%string
                            ∧ prefix24 a = prefix24 gw).
  { induction ifs as [|x ifs IH]; intros acc; simpl.
    - split; [by left|]. intros [?|(? & ? & ?%elem_of_nil & _)]; done.
    - rewrite IH. split.
      + intros [Hacc|(intf & a & Hin & Hrest)].
        * destruct (ip x) as [a|] eqn:Hip; [|by left].
          destruct (truthy (Some a) && bool_decide (prefix24 a = prefix24 gw))
            eqn:Hc; [|by left].
          apply andb_true_iff in Hc as [Ht Hp]. simpl in Ht.
          apply bool_decide_eq_true in Ht, Hp.
          right. exists x, a. split; [left|done].
        * right. exists intf, a. split; [by right|done].
      + intros [->|(intf & a & [->|Hin]%elem_of_cons & Hip & Ha & Hp)].
        * left. destruct (ip x); [|done]. by destruct (_ && _).
        * left. rewrite Hip. simpl. by rewrite !bool_decide_true.
        * right. exists intf, a. done. }
  rewrite Hgen. split; [intros [?|?]; done|by right].
Qed.

Lemma gateway_issues_elem parsed n gw :
  gateway_mismatch n gw ∈ gateway_issues parsed ↔ stray_gateway parsed n gw.
Proof.
  unfold gateway_issues, stray_gateway. rewrite list_elem_of_omap. split.
  - intros ([n' d] & Hnd & Hf).
    destruct (default_gateway d) as [gw'|] eqn:Hgw; [|done].
    destruct (truthy (Some gw') && negb (same24 gw' (interfaces d))) eqn:Hc;
      [|done].
    injection Hf as -> ->. apply andb_true_iff in Hc as [Ht Hs].
    simpl in Ht. apply bool_decide_eq_true in Ht.
    apply negb_true_iff in Hs. exists d. repeat split; try done.
    rewrite <- same24_spec. by rewrite Hs.
  - intros (d & Hnd & Hgw & Hne & Hns). exists (n, d). split; [done|].
    rewrite Hgw. simpl. rewrite bool_decide_true by done. simpl.
    destruct (same24 gw (interfaces d)) eqn:Hs; [|done].
    exfalso. by apply Hns, same24_spec.
Qed.

(** X7: a wrong_vlan_label issue is emitted for an interface exactly when
    its device is a switch and the interface is in an access VLAN that the
    switch does not define; routers never get one. *)
Theorem X7_wrong_vlan_label_iff parsed :
  ∃ issues,
    detect_issues parsed (build_topology parsed) = Some issues
    ∧ ∀ n i v, wrong_vlan_label n i v ∈ issues ↔ undefined_vlan parsed n i v.
Proof.
  destruct (detect_issues_total parsed) as (issues & cycles & Hdet & _).
  exists issues. split; [done|]. intros n i v.
  destruct (detect_issues_app _ _ _ Hdet) as (cs & _ & ->).
  rewrite <- wrong_vlan_issues_elem, !elem_of_app.
  pose proof (not_in_other_type _ (wrong_vlan_label n i v) _
                (duplicate_ip_issues_type parsed)).
  pose proof (not_in_other_type _ (wrong_vlan_label n i v) _
                (gateway_issues_type parsed)).
  pose proof (not_in_other_type _ (wrong_vlan_label n i v) _
                (mtu_issues_type (build_topology parsed))).
  pose proof (not_in_other_type _ (wrong_vlan_label n i v) _
                (loop_issues_type cs)).
  pose proof (not_in_other_type _ (wrong_vlan_label n i v) _
                (bgp_issues_type parsed)).
  simpl in *. naive_solver.
Qed.

(** X8: a gateway_mismatch issue is emitted for a device exactly when it has
    a default gateway and none of its interface addresses shares the first
    three dot-separated fields of the gateway. *)
Theorem X8_gateway_mismatch_iff parsed :
  ∃ issues,
    detect_issues parsed (build_topology parsed) = Some issues
    ∧ ∀ n gw, gateway_mismatch n gw ∈ issues ↔ stray_gateway parsed n gw.
Proof.
  destruct (detect_issues_total parsed) as (issues & cycles & Hdet & _).
  exists issues. split; [done|]. intros n gw.
  destruct (detect_issues_app _ _ _ Hdet) as (cs & _ & ->).
  rewrite <- gateway_issues_elem, !elem_of_app.
  pose proof (not_in_other_type _ (gateway_mismatch n gw) _
                (duplicate_ip_issues_type parsed)).
  pose proof (not_in_other_type _ (gateway_mismatch n gw) _
                (wrong_vlan_issues_type parsed)).
  pose proof (not_in_other_type _ (gateway_mismatch n gw) _
                (mtu_issues_type (build_topology parsed))).
  pose proof (not_in_other_type _ (gateway_mismatch n gw) _
                (loop_issues_type cs)).
  pose proof (not_in_other_type _ (gateway_mismatch n gw) _
                (bgp_issues_type parsed)).
  simpl in *. naive_solver.
Qed.

(** X9: the issues come out grouped by rule, in the fixed rule order. *)
Theorem X9_issues_in_rule_order parsed :
  ∃ issues,
    detect_issues parsed (build_topology parsed) = Some issues
    ∧ issues = flat_map (λ t, of_type t issues) rule_order.
Proof.
  destruct (detect_issues_total parsed) as (issues & cycles & Hdet & _).
  exists issues. split; [done|].
  destruct (detect_issues_app _ _ _ Hdet) as (cs & _ & ->).
  pose proof (duplicate_ip_issues_type parsed) as H1.
  pose proof (wrong_vlan_issues_type parsed) as H2.
  pose proof (gateway_issues_type parsed) as H3.
  pose proof (mtu_issues_type (build_topology parsed)) as H4.
  pose proof (loop_issues_type cs) as H5.
  pose proof (bgp_issues_type parsed) as H6.
  unfold rule_order. cbn [flat_map]. rewrite !of_type_app.
  rewrite !(of_type_Forall _ _ _ H1), !(of_type_Forall _ _ _ H2),
    !(of_type_Forall _ _ _ H3), !(of_type_Forall _ _ _ H4),
    !(of_type_Forall _ _ _ H5), !(of_type_Forall _ _ _ H6).
  repeat match goal with
         | |- context [decide (?a = ?b)] =>
             first [ rewrite (decide_True (P := a = b)) by done
                   | rewrite (decide_False (P := a = b)) by done ]
         end.
  by rewrite ?app_nil_r, ?app_nil_l.
Qed.

(** * Further properties of the demand simulator and the load balancer *)

Lemma recommend_spec G edge_load :
  recommend_load_balancing G edge_load
  = if decide (keys_are_edges G edge_load) then Ok (overloaded G edge_load)
    else Raise KeyError.
Proof.
  induction edge_load as [|[[a b] load] rest IH]; [done|].
  cbn [recommend_load_balancing].
  destruct (edge_data (g_edge G) a b) as [ed|] eqn:E.
  - rewrite IH. destruct (decide (keys_are_edges G rest)) as [Hk|Hk].
    + rewrite (decide_True (P := keys_are_edges G ((a, b, load) :: rest))).
      2:{ apply Forall_cons. split; [|done]. simpl. unfold has_edge.
          rewrite E. by apply bool_decide_eq_true. }
      unfold overloaded. cbn [omap list_omap]. unfold capacity_of.
      rewrite E. simpl. by case_decide.
    + rewrite (decide_False (P := keys_are_edges G ((a, b, load) :: rest)));
        [done|]. by intros [_ ?]%Forall_cons.
  - rewrite (decide_False (P := keys_are_edges G ((a, b, load) :: rest)));
      [done|]. intros [Hab _]%Forall_cons. simpl in Hab.
    unfold has_edge in Hab. rewrite E in Hab.
    apply bool_decide_eq_true in Hab as [? ?]. done.
Qed.

(** X10: [recommend_load_balancing] raises [KeyError] exactly when some key
    of the load mapping is not an edge of the graph; otherwise it returns,
    in key order, one recommendation for each key whose load exceeds the
    capacity of its edge, and none for the others. *)
Theorem X10_recommend_spec G edge_load :
  (recommend_load_balancing G edge_load = Raise KeyError
   ↔ ¬ keys_are_edges G edge_load)
  ∧ (keys_are_edges G edge_load →
     recommend_load_balancing G edge_load = Ok (overloaded G edge_load))
  ∧ ∀ r, r ∈ overloaded G edge_load → r_load_kbps r > r_capacity_kbps r.
Proof.
  rewrite recommend_spec. split; [|split].
  - case_decide; split; done.
  - intros Hk. by rewrite decide_True.
  - intros r ([[a b] load] & _ & Hf)%list_elem_of_omap.
    case_decide; [|done]. by injection Hf as <-.
Qed.

Lemma neighbors_has_edge G x y : y ∈ neighbors G x → has_edge G x y = true.
Proof.
  rewrite neighbors_keys. intros ([u v] & Huv & Hf)%list_elem_of_omap.
  apply has_edge_keys. exists (u, v). split; [done|].
  unfold same_edge. simpl. repeat case_decide; simplify_eq; auto.
Qed.

Lemma has_edge_sym G x y : has_edge G x y = true → has_edge G y x = true.
Proof.
  rewrite !has_edge_keys. intros (k & Hk & Hs). exists k. split; [done|].
  unfold same_edge in *. tauto.
Qed.

Lemma has_edge_sorted G a b :
  has_edge G a b = true →
  has_edge G (sorted_pair a b).1 (sorted_pair a b).2 = true.
Proof.
  intros H. unfold sorted_pair. destruct (String.ltb b a); simpl; [|done].
  by apply has_edge_sym.
Qed.

Lemma dict_set_keys_iff k v (d : EdgeLoad) k' :
  k' ∈ (dict_set k v d).*1 ↔ k' ∈ d.*1 ∨ k' = k.
Proof.
  induction d as [|[k0 v0] d IH]; simpl.
  - rewrite list_elem_of_singleton, elem_of_nil. tauto.
  - case_decide; subst; simpl.
    + rewrite !elem_of_cons. naive_solver.
    + rewrite !elem_of_cons, IH. tauto.
Qed.

Lemma keys_are_edges_set G k v load :
  has_edge G k.1 k.2 = true → keys_are_edges G load →
  keys_are_edges G (dict_set k v load).
Proof.
  unfold keys_are_edges. rewrite !Forall_forall. intros Hk Hall k'.
  rewrite dict_set_keys_iff. intros [?| ->]; auto.
Qed.

Lemma initial_load_edges G : keys_are_edges G (initial_load G).
Proof.
  unfold initial_load.
  assert (Hgen : ∀ (es : list (string * string * edge_attr)) load,
            (∀ u v d, (u, v, d) ∈ es → has_edge G u v = true) →
            keys_are_edges G load →
            keys_are_edges G
              (foldl (λ load '(u, v, _), dict_set (u, v) 0 load) load es)).
  { induction es as [|[[u v] d] es IH]; intros load Hes Hl; simpl; [done|].
    apply IH.
    - intros u' v' d' Hin. eapply Hes. by right.
    - apply keys_are_edges_set; [|done]. simpl. eapply Hes. left. }
  apply Hgen; [|constructor].
  intros u v d [Hin|Hin]%edges_sound; apply has_edge_keys.
  - exists (u, v). split; [|by left]. apply list_elem_of_fmap. by exists ((u, v), d).
  - exists (v, u). split; [|by right]. apply list_elem_of_fmap. by exists ((v, u), d).
Qed.

Lemma add_path_edges G demand path load :
  linked G path → keys_are_edges G load →
  keys_are_edges G (add_path demand load path).
Proof.
  unfold add_path. revert load.
  induction path as [|a [|b path] IH]; intros load Hl Hk; try done.
  destruct Hl as [Hab Hl]. cbn [tail zip zip_with foldl].
  apply (IH _ Hl). unfold add_demand. simpl.
  apply keys_are_edges_set; [|done].
  by apply has_edge_sorted, neighbors_has_edge.
Qed.

Lemma trials_edges sp rnd G ts :
  path_ok G sp → ∀ load load',
    keys_are_edges G load → trials sp rnd G load ts = Ok load' →
    keys_are_edges G load'.
Proof.
  intros Hsp. induction ts as [|t ts IH]; intros load load' Hk; simpl.
  - by intros [= <-].
  - unfold trial. destruct (sample2 _ _ _) as [[s d]|e]; [|done].
    destruct (sp G s d) as [path|] eqn:Hp.
    + apply IH. apply add_path_edges; [by eapply Hsp|done].
    + by apply IH.
Qed.

(** X11: when the path routine returns paths along edges of the graph,
    every key of the mapping returned by the demand simulator is an edge of
    the graph, so the load balancer run on it raises no [KeyError]. *)
Theorem X11_demand_keys_are_edges sp rnd G load :
  path_ok G sp →
  estimate_endpoint_demands sp rnd G = Ok load →
  keys_are_edges G load
  ∧ recommend_load_balancing G load = Ok (overloaded G load).
Proof.
  intros Hsp Hest.
  assert (Hk : keys_are_edges G load).
  { eapply trials_edges; [done|apply initial_load_edges|exact Hest]. }
  split; [done|]. rewrite recommend_spec. by rewrite decide_True.
Qed.

Lemma has_edge_neighbors G s d : has_edge G s d = true → d ∈ neighbors G s.
Proof.
  rewrite has_edge_keys, neighbors_keys. intros ([u v] & Huv & Hs).
  apply list_elem_of_omap. exists (u, v). split; [done|].
  unfold same_edge in Hs. simpl in *.
  destruct Hs as [[-> ->]|[-> ->]].
  - by rewrite decide_True.
  - destruct (decide (d = s)) as [->|]; [done|]. by rewrite decide_True.
Qed.

Lemma direct_path_ok G : path_ok G direct_path.
Proof.
  intros s d p. unfold direct_path.
  destruct (has_edge G s d) eqn:E; [|done]. intros [= <-].
  split; [|done]. by apply has_edge_neighbors.
Qed.

Lemma X11_demand_keys_witness :
  let G := build_topology subnet_net in
  let load := [(("R2", "R1")%string, 0); (("R1", "R2")%string, 6000)] in
  keys_are_edges G load
  ∧ recommend_load_balancing G load = Ok (overloaded G load).
Proof.
  intros G load.
  apply (X11_demand_keys_are_edges direct_path (λ _, mkDraw 0 0 0) G load).
  - apply direct_path_ok.
  - vm_compute. reflexivity.
Defined.

Lemma neighbors_no_edge G x : g_edge G = [] → neighbors G x = [].
Proof. intros H. unfold neighbors, adj. by rewrite H. Qed.

Lemma linked_no_edge G p : g_edge G = [] → linked G p → zip p (tail p) = [].
Proof.
  intros HG. destruct p as [|a [|b p]]; [done..|].
  intros [Hab _]. rewrite (neighbors_no_edge G a HG) in Hab.
  by apply elem_of_nil in Hab.
Qed.

Lemma edges_no_edge G : g_edge G = [] → edges G = [].
Proof.
  intros HG. unfold edges. generalize (@nil string).
  induction (nodes G) as [|n ns IH]; intros seen; simpl; [done|].
  unfold adj. rewrite HG. simpl. apply IH.
Qed.

Lemma trials_no_edge sp rnd G ts :
  g_edge G = [] → path_ok G sp → (2 ≤ length (nodes G))%nat →
  trials sp rnd G [] ts = Ok [].
Proof.
  intros HG Hsp Hn. induction ts as [|t ts IH]; simpl; [done|].
  unfold trial.
  destruct (sample2_ok (nodes G) (d_src (rnd t)) (d_dst (rnd t)) Hn)
    as (s & d & ->).
  destruct (sp G s d) as [p|] eqn:Hp; [|done].
  unfold add_path. rewrite (linked_no_edge G p HG); [done|]. by eapply Hsp.
Qed.

(** X12: on a graph with at least two nodes and no edge, with a path routine
    that follows edges, the demand simulator returns the empty mapping and
    the load balancer no recommendation. *)
Theorem X12_no_edge_no_load sp rnd G :
  g_edge G = [] → path_ok G sp → (2 ≤ length (nodes G))%nat →
  estimate_endpoint_demands sp rnd G = Ok []
  ∧ recommend_load_balancing G [] = Ok [].
Proof.
  intros HG Hsp Hn. split; [|done].
  unfold estimate_endpoint_demands, initial_load.
  rewrite (edges_no_edge G HG). cbn [foldl]. by apply trials_no_edge.
Qed.

Lemma X12_no_edge_witness :
  estimate_endpoint_demands direct_path (λ _, mkDraw 0 0 0)
    (build_topology asn_zero_net) = Ok []
  ∧ recommend_load_balancing (build_topology asn_zero_net) [] = Ok [].
Proof.
  apply (X12_no_edge_no_load direct_path (λ _, mkDraw 0 0 0)
           (build_topology asn_zero_net)).
  - reflexivity.
  - apply direct_path_ok.
  - vm_compute. lia.
Defined.

Lemma trials_raise sp rnd G load ts e :
  trials sp rnd G load ts = Raise e →
  e = ValueError ∧ (length (nodes G) < 2)%nat.
Proof.
  intros H.
  destruct (decide (length (nodes G) < 2)%nat) as [Hlt|Hge].
  - split; [|done]. destruct ts as [|t ts]; [done|].
    rewrite trials_raise_short in H by done. by injection H as <-.
  - destruct (trials_ok sp rnd G load ts) as (load' & Hok & _); [lia|].
    congruence.
Qed.

(** X13: the demand simulator raises only [ValueError], and exactly when the
    graph has fewer than two nodes; with two or more nodes it returns a
    mapping that still has every key it was initialised with, whatever the
    random draws and the path routine are. *)
Theorem X13_demand_error_behaviour sp rnd G :
  (∀ e, estimate_endpoint_demands sp rnd G = Raise e
        ↔ e = ValueError ∧ (length (nodes G) < 2)%nat)
  ∧ ((2 ≤ length (nodes G))%nat →
     ∃ load, estimate_endpoint_demands sp rnd G = Ok load
             ∧ ∀ k, k ∈ (initial_load G).*1 → k ∈ load.*1).
Proof.
  unfold estimate_endpoint_demands. split.
  - intros e. split; [apply trials_raise|].
    intros [-> Hlt]. by apply trials_raise_short.
  - intros Hn. by apply trials_ok.
Qed.

(** ** Loads *)

Lemma choice_pos k : 1000 ≤ choice k.
Proof.
  unfold choice, demand_choices. simpl length.
  assert (Hk : (k mod 5 < 5)%nat) by (apply Nat.mod_upper_bound; lia).
  destruct (k mod 5)%nat as [|[|[|[|[|n]]]]]; simpl; lia.
Qed.

Lemma dict_get_load k (d : EdgeLoad) :
  Forall (λ kv, kv.2 = 0 ∨ 1000 ≤ kv.2) d →
  dict_get k d 0 = 0 ∨ 1000 ≤ dict_get k d 0.
Proof.
  induction 1 as [|[k' v] d Hv _ IH]; simpl; [by left|]. by case_decide.
Qed.

Lemma dict_set_load k v (d : EdgeLoad) :
  v = 0 ∨ 1000 ≤ v → Forall (λ kv, kv.2 = 0 ∨ 1000 ≤ kv.2) d →
  Forall (λ kv, kv.2 = 0 ∨ 1000 ≤ kv.2) (dict_set k v d).
Proof.
  intros Hv. induction 1 as [|[k' v'] d Hv' Hd IH]; simpl.
  - constructor; [done|constructor].
  - case_decide; constructor; done.
Qed.

Lemma add_path_load demand path load :
  1000 ≤ demand → Forall (λ kv, kv.2 = 0 ∨ 1000 ≤ kv.2) load →
  Forall (λ kv, kv.2 = 0 ∨ 1000 ≤ kv.2) (add_path demand load path).
Proof.
  intros Hd. unfold add_path. generalize (zip path (tail path)). intros l.
  revert load. induction l as [|ab l IH]; intros load Hl; simpl; [done|].
  apply IH. unfold add_demand. apply dict_set_load; [|done].
  destruct (dict_get_load (sorted_pair ab.1 ab.2) load Hl); lia.
Qed.

Lemma initial_load_zero G : Forall (λ kv, kv.2 = 0) (initial_load G).
Proof.
  unfold initial_load.
  assert (Hgen : ∀ (es : list (string * string * edge_attr)) load,
            Forall (λ kv : string * string * Z, kv.2 = 0) load →
            Forall (λ kv : string * string * Z, kv.2 = 0)
              (foldl (λ load '(u, v, _), dict_set (u, v) 0 load) load es)).
  { induction es as [|[[u v] d] es IH]; intros load Hl; simpl; [done|].
    apply IH. clear IH. induction Hl as [|[k' v'] l Hv Hl IHl]; simpl.
    - by repeat constructor.
    - case_decide; constructor; done. }
  apply Hgen. constructor.
Qed.

(** X14: every load in the mapping returned by the demand simulator is
    either 0 or at least 1000 kbps; no load is negative. *)
Theorem X14_loads_zero_or_demand sp rnd G load k v :
  estimate_endpoint_demands sp rnd G = Ok load → (k, v) ∈ load →
  v = 0 ∨ 1000 ≤ v.
Proof.
  unfold estimate_endpoint_demands. intros Hest Hin.
  assert (Hall : Forall (λ kv, kv.2 = 0 ∨ 1000 ≤ kv.2) load).
  { revert Hest.
    assert (H0 : Forall (λ kv : string * string * Z, kv.2 = 0 ∨ 1000 ≤ kv.2)
                   (initial_load G)).
    { eapply Forall_impl; [apply initial_load_zero|]. intros kv. simpl. auto. }
    revert H0. generalize (initial_load G). generalize (seq 0 6).
    induction l as [|t ts IH]; intros l0 H0; simpl.
    - by intros [= <-].
    - unfold trial. destruct (sample2 _ _ _) as [[s d]|e]; [|done].
      destruct (sp G s d) as [path|]; [|by apply IH].
      apply IH. apply add_path_load; [|done]. apply choice_pos. }
  rewrite Forall_forall in Hall. by apply (Hall (k, v)).
Qed.

Lemma X14_loads_witness : 6000 = 0 ∨ 1000 ≤ 6000.
Proof.
  apply (X14_loads_zero_or_demand direct_path (λ _, mkDraw 0 0 0)
           (build_topology subnet_net)
           [(("R2", "R1")%string, 0); (("R1", "R2")%string, 6000)]
           ("R1", "R2")%string 6000).
  - vm_compute. reflexivity.
  - right. left.
Defined.

(** * Properties of the /24 prefix *)

Lemma split_dot_nonempty s : split_dot s ≠ [].
Proof.
  destruct s as [|c s]; simpl; [done|].
  case_decide; [done|]. by destruct (split_dot s).
Qed.

(** Joining the fields of a string gives the string back. *)
Lemma join_split_dot s : join_dot (split_dot s) = s.
Proof.
  induction s as [|c s IH]; [done|]. simpl.
  pose proof (split_dot_nonempty s) as Hne.
  case_decide as Hc.
  - subst c. destruct (split_dot s) as [|h t] eqn:E; [done|].
    change (join_dot (EmptyString :: h :: t))
      with (String dot (join_dot (h :: t))). by rewrite IH.
  - destruct (split_dot s) as [|h t] eqn:E; [done|].
    destruct t as [|h' t].
    + simpl in *. by rewrite IH.
    + change (join_dot (String c h :: h' :: t))
        with (String c (join_dot (h :: h' :: t))). by rewrite IH.
Qed.

Lemma split_dot_fields s : Forall dot_free (split_dot s).
Proof.
  induction s as [|c s IH]; simpl; [by repeat constructor|].
  case_decide as Hc.
  - by constructor.
  - destruct (split_dot s) as [|h t]; [by repeat constructor|].
    apply Forall_cons in IH as [Hh Ht]. by constructor.
Qed.

Lemma split_dot_dot_free a : dot_free a → split_dot a = [a].
Proof.
  induction a as [|c a IH]; [done|]. intros [Hc Ha]. simpl.
  rewrite decide_False by done. by rewrite (IH Ha).
Qed.

Lemma split_dot_field a s :
  dot_free a → split_dot (a +:+ String dot s) = a :: split_dot s.
Proof.
  induction a as [|c a IH]; simpl.
  - done.
  - intros [Hc Ha]. rewrite decide_False by done. by rewrite (IH Ha).
Qed.

(** Splitting the join of dot-free fields gives the fields back. *)
Lemma split_join_dot l :
  l ≠ [] → Forall dot_free l → split_dot (join_dot l) = l.
Proof.
  induction l as [|a l IH]; [done|]. intros _ [Ha Hl]%Forall_cons.
  destruct l as [|b l]; [by apply split_dot_dot_free|].
  cbn [join_dot]. rewrite (split_dot_field a _ Ha). f_equal. by apply IH.
Qed.

(** X15: of an address with four or more dot-separated fields the prefix is
    the first three fields joined by dots; an address with at most three
    fields is its own prefix. *)
Theorem X15_prefix24_fields :
  (∀ a b c rest, dot_free a → dot_free b → dot_free c →
     prefix24 (dotted4 a b c rest) = join_dot [a; b; c])
  ∧ (∀ s, (length (split_dot s) ≤ 3)%nat → prefix24 s = s).
Proof.
  split.
  - intros a b c rest Ha Hb Hc. unfold prefix24, dotted4.
    rewrite (split_dot_field a _ Ha), (split_dot_field b _ Hb),
      (split_dot_field c _ Hc). reflexivity.
  - intros s Hlen. unfold prefix24. rewrite take_ge by done.
    apply join_split_dot.
Qed.

(** X16: two addresses have the same prefix exactly when their first three
    dot-separated fields are the same, field by field: the comparison of the
    joined strings never confuses different fields. *)
Theorem X16_prefix24_eq_iff s s' :
  prefix24 s = prefix24 s' ↔ take 3 (split_dot s) = take 3 (split_dot s').
Proof.
  unfold prefix24. split; [|by intros ->].
  intros H.
  assert (Hok : ∀ t, take 3 (split_dot t) ≠ []
                     ∧ Forall dot_free (take 3 (split_dot t))).
  { intros t. split.
    - pose proof (split_dot_nonempty t). by destruct (split_dot t).
    - apply Forall_take, split_dot_fields. }
  destruct (Hok s) as [Hn Hf]. destruct (Hok s') as [Hn' Hf'].
  rewrite <- (split_join_dot _ Hn Hf), <- (split_join_dot _ Hn' Hf').
  by rewrite H.
Qed.
(** * Properties of the discovery simulation *)

Lemma neighborhood_router G n m : m ∈ neighborhood G n → m ∈ router_nodes G.
Proof. unfold neighborhood. rewrite list_elem_of_filter. tauto. Qed.

Lemma neighborhood_neighbors G n m : m ∈ neighborhood G n → m ∈ neighbors G n.
Proof. unfold neighborhood. rewrite list_elem_of_filter. tauto. Qed.

Lemma neighborhood_sym G n m :
  m ∈ neighborhood G n → n ∈ router_nodes G → n ∈ neighborhood G m.
Proof.
  unfold neighborhood. rewrite !list_elem_of_filter.
  intros [_ H] Hn. split; [done|]. by apply neighbors_sym.
Qed.

Lemma local_created G : local G (created G).
Proof.
  split; simpl; try done.
  - intros n x H. by apply elem_of_nil in H.
  - intros n x H. by apply elem_of_nil in H.
Qed.

Ltac upd := unfold fn_set in *.

Lemma local_set_pc G s n p :
  local G s → n ∈ router_nodes G → p ≠ Crashed →
  (∀ todo m, p = Bootstrap todo → m ∈ todo → m ∈ neighborhood G n) →
  (∀ x, p = Received x → x.1 ∈ neighborhood G n) →
  (∀ frm, p = Replying frm → frm ∈ neighborhood G n) →
  local G (set_pc n p s).
Proof.
  intros [] Hn Hp Hb Hr Hy.
  split; simpl; intros; upd; repeat case_decide; subst; eauto.
Qed.

Lemma local_put G s n x :
  local G s → x.1 ∈ neighborhood G n → local G (put n x s).
Proof.
  intros [] Hx.
  split; simpl; intros; upd; repeat case_decide; subst; eauto.
  match goal with H : _ ∈ _ ++ _ |- _ => apply elem_of_app in H as [?|H] end;
    eauto.
  apply list_elem_of_singleton in H. by subst.
Qed.

Lemma local_log_append G s n x :
  local G s → n ∈ router_nodes G → x.1 ∈ neighborhood G n →
  local G (log_append n x s).
Proof.
  intros [] Hn Hx.
  split; simpl; intros; upd; repeat case_decide; subst; eauto.
  match goal with H : _ ∈ _ ++ _ |- _ => apply elem_of_app in H as [?|H] end;
    eauto.
  apply list_elem_of_singleton in H. by subst.
Qed.

Lemma local_fire G a s : local G s → local G (fire G a s).
Proof.
  intros Hs. destruct a as [|n|n]; simpl.
  - destruct (to_start s) as [|n rest] eqn:Es; [done|].
    destruct Hs.
    assert (n ∈ router_nodes G) by (apply lc_start0; rewrite Es; left).
    assert (∀ k, k ∈ rest → k ∈ router_nodes G)
      by (intros; apply lc_start0; rewrite Es; by right).
    destruct (th_pc s n) eqn:En;
      split; simpl; intros; upd; repeat case_decide; subst; eauto;
      congruence.
  - unfold thread_step.
    destruct (th_pc s n) as [|[|nb todo]| |[frm ty]|frm| |] eqn:En; try done.
    + apply local_set_pc; try done. apply (lc_started _ _ Hs). congruence.
    + assert (n ∈ router_nodes G) by (apply (lc_started _ _ Hs); congruence).
      assert (nb ∈ neighborhood G n)
        by (eapply (lc_todo _ _ Hs); [done|left]).
      apply local_set_pc; try done.
      * apply local_put; [done|]. simpl. by apply neighborhood_sym.
      * intros ?? [= <-] ?. eapply (lc_todo _ _ Hs); [done|by right].
    + destruct (th_inbox s n) as [|m q] eqn:Ei; [done|].
      destruct Hs.
      assert (n ∈ router_nodes G) by (apply lc_started0; congruence).
      assert (m.1 ∈ neighborhood G n)
        by (apply lc_inbox0; rewrite Ei; left).
      assert (∀ x, x ∈ q → x.1 ∈ neighborhood G n)
        by (intros; apply lc_inbox0; rewrite Ei; by right).
      split; simpl; intros; upd; repeat case_decide; subst; eauto;
        try congruence.
    + assert (n ∈ router_nodes G) by (apply (lc_started _ _ Hs); congruence).
      assert (frm ∈ neighborhood G n) by (by apply (lc_hand _ _ Hs n (frm, ty))).
      apply local_set_pc; try done.
      * by apply local_log_append.
      * by destruct ty.
      * by destruct ty.
      * by destruct ty.
      * destruct ty; [|done]. by intros ? [= <-].
    + assert (n ∈ router_nodes G) by (apply (lc_started _ _ Hs); congruence).
      assert (frm ∈ neighborhood G n) by (by apply (lc_reply _ _ Hs)).
      rewrite decide_True by (by eapply neighborhood_router).
      apply local_set_pc; try done.
      apply local_put; [done|]. simpl. by apply neighborhood_sym.
  - destruct (th_pc s n) eqn:En; try done.
    apply local_set_pc; try done. apply (lc_started _ _ Hs). congruence.
Qed.

Lemma sim_state_snoc G sched a :
  sim_state G (sched ++ [a]) = fire G a (sim_state G sched).
Proof. unfold sim_state. by rewrite foldl_app. Qed.

Lemma local_sim_state G sched : local G (sim_state G sched).
Proof.
  induction sched as [|a sched IH] using rev_ind.
  - apply local_created.
  - rewrite sim_state_snoc. by apply local_fire.
Qed.

Lemma occ_nil `{EqDecision A} (x : A) : occ x [] = 0%nat.
Proof. done. Qed.

Lemma occ_cons `{EqDecision A} (x y : A) l :
  occ x (y :: l) = ((if decide (y = x) then 1 else 0) + occ x l)%nat.
Proof. unfold occ. rewrite filter_cons. by case_decide. Qed.

Lemma occ_app `{EqDecision A} (x : A) l k :
  occ x (l ++ k) = (occ x l + occ x k)%nat.
Proof. unfold occ. by rewrite list.filter_app, length_app. Qed.

Lemma occ_snoc `{EqDecision A} (x y : A) l :
  occ x (l ++ [y]) = (occ x l + if decide (y = x) then 1 else 0)%nat.
Proof. rewrite occ_app, occ_cons. unfold occ. simpl. lia. Qed.

Lemma occ_pos `{EqDecision A} (x : A) l : (0 < occ x l)%nat ↔ x ∈ l.
Proof.
  induction l as [|y l IH].
  - unfold occ. simpl. split; [lia|]. intros H. by apply elem_of_nil in H.
  - rewrite occ_cons, elem_of_cons. case_decide; subst.
    + split; [by left|lia].
    + rewrite <- IH. split; [simpl; tauto|].
      intros [?|?]; [congruence|done].
Qed.

Lemma occ_NoDup `{EqDecision A} (l : list A) :
  NoDup l ↔ ∀ x, (occ x l ≤ 1)%nat.
Proof.
  induction l as [|y l IH].
  - split; [|constructor]. intros _ x. unfold occ. simpl. lia.
  - rewrite list.NoDup_cons. split.
    + intros [Hy H] x. rewrite IH in H. rewrite occ_cons. case_decide; subst.
      * assert (¬ (0 < occ x l)%nat) by (by rewrite occ_pos). lia.
      * specialize (H x). lia.
    + intros H. split.
      * intros Hy%occ_pos. specialize (H y). rewrite occ_cons in H.
        rewrite decide_True in H by done. lia.
      * apply IH. intros x. specialize (H x). rewrite occ_cons in H. lia.
Qed.

Lemma conserved_created G : conserved G (created G).
Proof. split; intros m n; unfold unsent, in_hand, owes, occ; simpl; lia. Qed.

Ltac count_step H :=
  unfold unsent, in_hand, owes in *; simpl; upd;
  repeat (case_decide; simplify_eq);
  repeat match goal with
         | E : th_pc _ _ = _ |- _ => rewrite E in *
         | E : th_inbox _ _ = _ |- _ => rewrite E in *
         end;
  rewrite ?occ_snoc, ?occ_cons in *;
  repeat (case_decide; simplify_eq);
  repeat match goal with
         | |- context [match th_pc ?s ?x with _ => _ end] =>
             destruct (th_pc s x) eqn:?
         end;
  repeat (case_decide; simplify_eq);
  simpl in *; try lia.

Lemma conserved_fire G a s :
  local G s → conserved G s → conserved G (fire G a s).
Proof.
  intros Hl [Hh Ha]. destruct a as [|n|n]; simpl.
  - destruct (to_start s) as [|n rest] eqn:Es; [done|].
    destruct (th_pc s n) eqn:En; split; simpl; try done;
      intros m k; [pose proof (Hh m k) as H|pose proof (Ha m k) as H];
      count_step H.
  - unfold thread_step.
    destruct (th_pc s n) as [|[|nb todo]| |[frm ty]|frm| |] eqn:En; try done.
    + split; intros m k; [pose proof (Hh m k) as H|pose proof (Ha m k) as H];
        count_step H.
    + split; intros m k; [pose proof (Hh m k) as H|pose proof (Ha m k) as H];
        count_step H.
    + destruct (th_inbox s n) as [|x q] eqn:Ei; [done|].
      split; intros m k; [pose proof (Hh m k) as H|pose proof (Ha m k) as H];
        count_step H.
    + split; intros m k; [pose proof (Hh m k) as H|pose proof (Ha m k) as H];
        destruct ty; count_step H.
    + rewrite decide_True
        by (eapply neighborhood_router, (lc_reply _ _ Hl); done).
      split; intros m k; [pose proof (Hh m k) as H|pose proof (Ha m k) as H];
        count_step H.
  - destruct (th_pc s n) eqn:En; try done.
    split; intros m k; [pose proof (Hh m k) as H|pose proof (Ha m k) as H];
      count_step H.
Qed.

Lemma conserved_sim_state G sched : conserved G (sim_state G sched).
Proof.
  induction sched as [|a sched IH] using rev_ind.
  - apply conserved_created.
  - rewrite sim_state_snoc.
    apply conserved_fire; [apply local_sim_state|done].
Qed.

Lemma run_day1_sim_elem G sched n l :
  (n, l) ∈ run_day1_sim G sched ↔
  n ∈ router_nodes G ∧ l = th_log (sim_state G sched) n.
Proof.
  unfold run_day1_sim. rewrite list_elem_of_fmap. split.
  - intros (k & [= -> ->] & Hk). done.
  - intros [Hn ->]. by exists n.
Qed.

Lemma expected_log_elem G n m ty :
  (m, ty) ∈ expected_log G n ↔ m ∈ neighborhood G n.
Proof.
  unfold expected_log. rewrite elem_of_flat_map. split.
  - intros (k & Hk & H). simpl in H.
    apply elem_of_cons in H as [[= -> _]|H]; [done|].
    apply list_elem_of_singleton in H as [= -> _]. done.
  - intros H. exists m. split; [done|].
    destruct ty; [left|right; left].
Qed.

Lemma expected_log_length G n :
  length (expected_log G n) = (2 * length (neighborhood G n))%nat.
Proof.
  unfold expected_log. induction (neighborhood G n) as [|m l IH];
    simpl; [done|]. rewrite IH. lia.
Qed.

Lemma hello_logged_once G sched m n :
  (occ (m, NEIGHBOR_HELLO) (th_log (sim_state G sched) n)
   ≤ occ n (neighborhood G m))%nat.
Proof.
  pose proof (cs_hello _ _ (conserved_sim_state G sched) m n). lia.
Qed.

Lemma ack_logged_once G sched m n :
  (occ (n, NEIGHBOR_ACK) (th_log (sim_state G sched) m)
   ≤ occ (m, NEIGHBOR_HELLO) (th_log (sim_state G sched) n))%nat.
Proof.
  pose proof (cs_ack _ _ (conserved_sim_state G sched) m n). lia.
Qed.

Lemma NoDup_neighborhood G n :
  NoDup (neighbors G n) → NoDup (neighborhood G n).
Proof. apply list.NoDup_filter. Qed.

Lemma NoDup_neighbors_two_routers x : NoDup (neighbors two_routers x).
Proof.
  unfold neighbors, adj. simpl.
  repeat case_decide; simpl; repeat constructor; set_solver.
Qed.

(** X17 (src/tool.py, NodeThread.run and run_day1_sim): whatever the
    interleaving of the threads, the lookup [nodes[frm]] of a reply never
    raises [KeyError], and every entry [(frm, type)] in the log returned
    for a router [n] comes from a router [frm] adjacent to [n] in the
    graph. *)
Theorem X17_discovery_stays_local G sched :
  (∀ n, th_pc (sim_state G sched) n ≠ Crashed)
  ∧ (∀ n l frm ty, (n, l) ∈ run_day1_sim G sched → (frm, ty) ∈ l →
       frm ∈ router_nodes G ∧ frm ∈ neighbors G n).
Proof.
  pose proof (local_sim_state G sched) as Hl. split.
  - apply Hl.
  - intros n l frm ty [Hn ->]%run_day1_sim_elem Hx.
    apply (lc_log _ _ Hl) in Hx as [_ Hx]. simpl in Hx.
    split; [by eapply neighborhood_router|by apply neighborhood_neighbors].
Qed.

(** X18 (src/tool.py, NodeThread.run and run_day1_sim): on a graph whose
    neighbour lists have no repetition, no returned log contains the same
    entry twice, whatever the interleaving: a router logs at most one
    NEIGHBOR_HELLO and one NEIGHBOR_ACK per neighbouring router, so a log
    has at most twice as many entries as the router has router
    neighbours. *)
Theorem X18_log_without_repetition G sched n l :
  (∀ x, NoDup (neighbors G x)) →
  (n, l) ∈ run_day1_sim G sched →
  NoDup l ∧ (length l ≤ 2 * length (neighborhood G n))%nat.
Proof.
  intros HG [Hn ->]%run_day1_sim_elem.
  assert (NoDup (th_log (sim_state G sched) n)) as Hnd.
  { apply occ_NoDup. intros [m ty].
    assert (occ (m, NEIGHBOR_HELLO) (th_log (sim_state G sched) n) ≤ 1)%nat
      as Hh.
    { etrans; [apply hello_logged_once|].
      apply occ_NoDup, NoDup_neighborhood, HG. }
    destruct ty; [done|].
    etrans; [apply ack_logged_once|].
    etrans; [apply hello_logged_once|].
    apply occ_NoDup, NoDup_neighborhood, HG. }
  split; [done|].
  rewrite <- expected_log_length. apply submseteq_length.
  apply NoDup_submseteq; [done|].
  intros [m ty] Hx. apply expected_log_elem.
  by apply (lc_log _ _ (local_sim_state G sched)) in Hx as [_ Hx].
Qed.

Lemma X18_log_without_repetition_witness :
  NoDup [("R2", NEIGHBOR_HELLO); ("R2", NEIGHBOR_ACK)]%string
  ∧ (length [("R2", NEIGHBOR_HELLO); ("R2", NEIGHBOR_ACK)]%string
     ≤ 2 * length (neighborhood two_routers "R1"))%nat.
Proof.
  apply (X18_log_without_repetition two_routers full_schedule "R1"%string).
  - apply NoDup_neighbors_two_routers.
  - vm_compute. left.
Defined.

(** X19 (src/tool.py, NodeThread.run and run_day1_sim): once every router
    thread waits or has ended with an empty inbox, the log returned for a
    router holds a NEIGHBOR_HELLO and a NEIGHBOR_ACK from each of its
    router neighbours and nothing else. *)
Theorem X19_quiescent_logs_complete G sched n l m ty :
  quiescent G (sim_state G sched) →
  (n, l) ∈ run_day1_sim G sched →
  ((m, ty) ∈ l ↔ m ∈ neighborhood G n).
Proof.
  intros Hq [Hn ->]%run_day1_sim_elem. split.
  - intros Hx.
    by apply (lc_log _ _ (local_sim_state G sched)) in Hx as [_ Hx].
  - intros Hm.
    assert (∀ a b, a ∈ router_nodes G → b ∈ neighborhood G a →
              (b, NEIGHBOR_HELLO) ∈ th_log (sim_state G sched) a) as Hh.
    { intros a b Ha Hb. apply occ_pos.
      assert (a ∈ neighborhood G b) as Hab%occ_pos
        by (by apply neighborhood_sym).
      pose proof (cs_hello _ _ (conserved_sim_state G sched) b a) as H.
      destruct (Hq a Ha) as [Hi Hp].
      destruct (Hq b (neighborhood_router _ _ _ Hb)) as [_ Hpb].
      unfold unsent, in_hand in H. rewrite Hi in H.
      rewrite occ_nil in H.
      destruct Hp as [Hp|Hp], Hpb as [Hpb|Hpb];
        rewrite Hp, ?Hpb in H; lia. }
    destruct ty; [by apply Hh|].
    apply occ_pos.
    assert (m ∈ router_nodes G) as Hmr by (by eapply neighborhood_router).
    assert ((n, NEIGHBOR_HELLO) ∈ th_log (sim_state G sched) m) as Hl%occ_pos
      by (apply Hh; [done|by apply neighborhood_sym]).
    pose proof (cs_ack _ _ (conserved_sim_state G sched) n m) as H.
    destruct (Hq n Hn) as [Hi Hp]. destruct (Hq m Hmr) as [_ Hpm].
    unfold owes, in_hand in H. rewrite Hi in H.
    rewrite occ_nil in H.
    destruct Hp as [Hp|Hp], Hpm as [Hpm|Hpm];
      rewrite Hp, ?Hpm in H; lia.
Qed.

Lemma X19_quiescent_logs_complete_witness :
  ("R2", NEIGHBOR_ACK)%string
    ∈ [("R2", NEIGHBOR_HELLO); ("R2", NEIGHBOR_ACK)]%string
  ↔ "R2"%string ∈ neighborhood two_routers "R1".
Proof.
  apply (X19_quiescent_logs_complete two_routers full_schedule "R1"%string).
  - intros n Hn.
    change (router_nodes two_routers) with ["R1"; "R2"]%string in Hn.
    apply elem_of_cons in Hn as [->|Hn];
      [|apply list_elem_of_singleton in Hn as ->];
      (split; [reflexivity|]); [right|left]; reflexivity.
  - vm_compute. left.
Defined.

(** X20 (src/tool.py, NodeThread.run): an acknowledgement answers a logged
    hello.  If the log of [n] holds a NEIGHBOR_ACK from [m], the log of [m]
    holds the NEIGHBOR_HELLO from [n], whatever the interleaving. *)
Theorem X20_ack_answers_logged_hello G sched n m ln lm :
  (n, ln) ∈ run_day1_sim G sched →
  (m, lm) ∈ run_day1_sim G sched →
  (m, NEIGHBOR_ACK) ∈ ln → (n, NEIGHBOR_HELLO) ∈ lm.
Proof.
  intros [_ ->]%run_day1_sim_elem [_ ->]%run_day1_sim_elem.
  rewrite <- !occ_pos.
  pose proof (ack_logged_once G sched n m). lia.
Qed.

Lemma X20_ack_answers_logged_hello_witness :
  ("R1", NEIGHBOR_HELLO)%string
    ∈ [("R1", NEIGHBOR_HELLO); ("R1", NEIGHBOR_ACK)]%string.
Proof.
  apply (X20_ack_answers_logged_hello two_routers full_schedule
           "R1"%string "R2"%string
           [("R2", NEIGHBOR_HELLO); ("R2", NEIGHBOR_ACK)]%string).
  - vm_compute. left.
  - vm_compute. right. left.
  - right. left.
Defined.

(** * Where the demand is counted *)

Lemma dict_set_sorted k v (d : EdgeLoad) :
  canonical k →
  Forall (λ kv, canonical kv.1 ∨ kv.2 = 0) d →
  Forall (λ kv, canonical kv.1 ∨ kv.2 = 0) (dict_set k v d).
Proof.
  intros Hk. induction 1 as [|[k' v'] d Hv' Hd IH]; simpl.
  - constructor; [by left|constructor].
  - case_decide; subst; constructor; try done. by left.
Qed.

Lemma add_path_sorted demand path load :
  Forall (λ kv, canonical kv.1 ∨ kv.2 = 0) load →
  Forall (λ kv, canonical kv.1 ∨ kv.2 = 0) (add_path demand load path).
Proof.
  unfold add_path. generalize (zip path (tail path)). intros l.
  revert load. induction l as [|ab l IH]; intros load Hl; simpl; [done|].
  apply IH. unfold add_demand. apply dict_set_sorted; [|done].
  apply sorted_pair_canonical.
Qed.

(** X21 (src/tool.py, estimate_endpoint_demands): a key of the returned
    mapping that is not in sorted order carries no load.  Demand is only
    ever added under the sorted pair, so the load of an edge is never
    split between its two orientations. *)
Theorem X21_unsorted_key_carries_no_load sp rnd G load k v :
  estimate_endpoint_demands sp rnd G = Ok load → (k, v) ∈ load →
  ¬ canonical k → v = 0.
Proof.
  unfold estimate_endpoint_demands. intros Hest Hin Hk.
  assert (Hall : Forall (λ kv, canonical kv.1 ∨ kv.2 = 0) load).
  { revert Hest.
    assert (H0 : Forall (λ kv : string * string * Z, canonical kv.1 ∨ kv.2 = 0)
                   (initial_load G)).
    { eapply Forall_impl; [apply initial_load_zero|]. intros kv. simpl. auto. }
    revert H0. generalize (initial_load G). generalize (seq 0 6).
    induction l as [|t ts IH]; intros l0 H0; simpl.
    - by intros [= <-].
    - unfold trial. destruct (sample2 _ _ _) as [[s d]|e]; [|done].
      destruct (sp G s d) as [path|]; [|by apply IH].
      apply IH. by apply add_path_sorted. }
  rewrite Forall_forall in Hall.
  destruct (Hall (k, v) Hin) as [?|?]; done.
Qed.

Lemma X21_unsorted_key_witness : 0 = 0.
Proof.
  apply (X21_unsorted_key_carries_no_load direct_path (λ _, mkDraw 0 0 0)
           (build_topology subnet_net)
           [(("R2", "R1")%string, 0); (("R1", "R2")%string, 6000)]
           ("R2", "R1")%string 0).
  - vm_compute. reflexivity.
  - left.
  - vm_compute. discriminate.
Defined.

(** * The routers of the simulation *)

Lemma set_node_fresh ns n a : n ∉ ns.*1 → set_node ns n a = ns ++ [(n, Some a)].
Proof.
  induction ns as [|[m b] ns IH]; simpl; [done|].
  intros H. apply not_elem_of_cons in H as [Hm H].
  rewrite decide_False by done. by rewrite IH.
Qed.

Lemma add_nodes_fresh parsed G :
  NoDup (nodes G ++ parsed.*1) →
  g_node (add_nodes parsed G)
  = g_node G ++ ((λ nd, (nd.1, Some (node_attr_of nd.2))) <$> parsed).
Proof.
  unfold add_nodes. revert G.
  induction parsed as [|[n d] parsed IH]; intros G Hnd; simpl.
  - by rewrite app_nil_r.
  - assert (n ∉ nodes G) as Hn.
    { apply NoDup_app in Hnd as (_ & Hd & _). intros Hin.
      apply (Hd n Hin). left. }
    rewrite IH; simpl.
    + rewrite set_node_fresh by done. by rewrite <- app_assoc.
    + unfold nodes. simpl. rewrite set_node_fresh by done.
      rewrite fmap_app. simpl. rewrite <- app_assoc. done.
Qed.

Lemma build_topology_g_node parsed :
  g_node (build_topology parsed) = g_node (add_nodes parsed empty_graph).
Proof.
  unfold build_topology.
  change (g_node (annotate parsed ?G)) with (g_node G).
  set (G0 := add_nodes parsed empty_graph).
  assert (Hk0 : ∀ x, x ∈ parsed.*1 → x ∈ nodes G0).
  { intros x Hx. apply (add_nodes_spec parsed empty_graph); [constructor|].
    by right. }
  assert (H1 : g_node (pass1 parsed G0) = g_node G0).
  { unfold pass1, pass1_from.
    apply (foldl_preserves_in (λ G, g_node G = g_node G0)); [|done].
    intros G [a d] Had HG.
    apply (foldl_preserves (λ G, g_node G = g_node G0)); [|done].
    intros G' intf HG'. rewrite <- HG'. apply pass1_intf_nodes.
    - unfold nodes. by rewrite HG'.
    - apply list_elem_of_fmap. by exists (a, d). }
  unfold pass2.
  rewrite (foldl_preserves_in (λ G, g_node G = g_node G0)); [done| |done].
  intros G p Hp HG. rewrite <- HG. eapply pass2_pair_nodes; [|done].
  unfold nodes. by rewrite HG.
Qed.

(** X22 (src/tool.py, build_topology and run_day1_sim): on a graph built
    from configurations with distinct device names, the simulation creates
    a thread for exactly the devices whose configuration has device type
    router, in input order; switches take no part. *)
Theorem X22_simulated_routers parsed :
  NoDup parsed.*1 →
  router_nodes (build_topology parsed) = routers_of parsed.
Proof.
  intros Hnd. unfold router_nodes, routers_of.
  rewrite build_topology_g_node, add_nodes_fresh by done. simpl.
  clear Hnd. induction parsed as [|[n d] parsed IH]; [done|].
  rewrite fmap_cons, filter_cons.
  rewrite (filter_cons (λ nd : string * ConfigRecord, device_type nd.2 = router)).
  cbn [fst snd is_router node_attr_of na_device_type].
  destruct (decide (device_type d = router)) as [Ed|Ed].
  - rewrite decide_True by (by apply bool_decide_eq_true).
    rewrite !fmap_cons. f_equal. exact IH.
  - rewrite decide_False by (by rewrite bool_decide_eq_true).
    exact IH.
Qed.

Lemma X22_simulated_routers_witness :
  router_nodes (build_topology subnet_net) = routers_of subnet_net.
Proof.
  apply X22_simulated_routers. vm_compute.
  repeat constructor; set_solver.
Defined.

(** * Adjacent routers discover each other *)


(** The condition cannot be dropped: a thread whose window closes before
    its neighbour has greeted ends with an empty log, and the neighbour's
    hello stays in its inbox. *)
Lemma early_expiry_empty_log :
  ("R1"%string, []) ∈ run_day1_sim two_routers early_schedule
  ∧ th_inbox (sim_state two_routers early_schedule) "R1"
    = [("R2"%string, NEIGHBOR_HELLO); ("R2"%string, NEIGHBOR_ACK)]
  ∧ ¬ quiescent two_routers (sim_state two_routers early_schedule).
Proof.
  split; [vm_compute; left|]. split; [reflexivity|].
  intros Hq. destruct (Hq "R1"%string) as [Hi _]; [vm_compute; left|].
  discriminate Hi.
Qed.


